(** * Business identity resolution and competitive scoring

    A shallow embedding of the name-match validator
    ([GooglePlacesService.isBusinessNameMatch] and its helpers), the lead
    scoring rules ([ScoringService.scoreLead], [scoreLeadWithAI]) and the
    ten-pack market statistics ([TenPackAnalysisService.analyzeTenPack]),
    followed by the properties the specification states about them; then
    the rest of the business resolver (the search variants, the search by
    text with its category match, the business type, nearby places, the
    provider key), the in-memory store and the agency name of the e-mail
    templates, with the properties the code itself shows.

    Conventions of the embedding:
    - a JavaScript string is a list of 8-bit code units (the Latin-1 range
      of the UTF-16 code units); [toLowerCase], [\w], [\s] and [trim] are
      exact on that range;
    - a JavaScript number is an exact rational ([Q]); the inputs of the
      modelled functions are finite numbers (they come from JSON or from a
      schema that rejects NaN), and the thresholds the code compares with
      (4.0, 0.6, 0.75, 0.8, 0.95) are taken at their decimal value: for
      token counts and string lengths of any realistic size the rounded
      double products and quotients fall on the same side of every
      threshold as the exact ones;
    - a function that can throw returns a [result]. *)

From Stdlib Require Import Ascii String.
From Stdlib Require Import List Bool Arith ZArith QArith Qround Qminmax Qabs
  Lia Permutation Sorted.
From Stdlib Require Import Lqa DecimalString DecimalNat.

#[local] Set Warnings "-register-all".
Import ListNotations.

Local Open Scope string_scope.
Local Open Scope list_scope.
Local Open Scope nat_scope.

(** ** JavaScript strings *)

Module JsString.

Definition jsstring := list ascii.

(** A string literal of the source. *)
Definition lit (s : string) : jsstring := list_ascii_of_string s.

Definition code (c : ascii) : nat := nat_of_ascii c.

(** [\w] of a regular expression without the unicode flag. *)
Definition is_word (c : ascii) : bool :=
  let n := code c in
  ((48 <=? n) && (n <=? 57)) || ((65 <=? n) && (n <=? 90)) ||
  (n =? 95) || ((97 <=? n) && (n <=? 122)).

(** [\s], and the characters [trim] strips: TAB, LF, VT, FF, CR, SP, NBSP. *)
Definition is_space (c : ascii) : bool :=
  let n := code c in
  ((9 <=? n) && (n <=? 13)) || (n =? 32) || (n =? 160).

Definition lower_char (c : ascii) : ascii :=
  let n := code c in
  if ((65 <=? n) && (n <=? 90)) ||
     ((192 <=? n) && (n <=? 222) && negb (n =? 215))
  then ascii_of_nat (n + 32) else c.

Definition toLowerCase (s : jsstring) : jsstring := map lower_char s.

Fixpoint dropWhile (p : ascii -> bool) (s : jsstring) : jsstring :=
  match s with
  | [] => []
  | c :: rest => if p c then dropWhile p rest else s
  end.

Definition trimStart (s : jsstring) : jsstring := dropWhile is_space s.
Definition trimEnd (s : jsstring) : jsstring := rev (dropWhile is_space (rev s)).
Definition trim (s : jsstring) : jsstring := trimEnd (trimStart s).

(** [===] on strings. *)
Fixpoint str_eqb (a b : jsstring) : bool :=
  match a, b with
  | [], [] => true
  | x :: a', y :: b' => Ascii.eqb x y && str_eqb a' b'
  | _, _ => false
  end.

(** [s.split(sep)] for a one-character separator: never the empty array. *)
Fixpoint split (sep : ascii) (s : jsstring) : list jsstring :=
  match s with
  | [] => [[]]
  | c :: rest =>
      if Ascii.eqb c sep then [] :: split sep rest
      else match split sep rest with
           | w :: ws => (c :: w) :: ws
           | [] => [[c]]
           end
  end.

(** [words.join(sep)]. *)
Fixpoint join (sep : jsstring) (words : list jsstring) : jsstring :=
  match words with
  | [] => []
  | [w] => w
  | w :: ws => w ++ sep ++ join sep ws
  end.

Fixpoint startsWith (p s : jsstring) : bool :=
  match p, s with
  | [], _ => true
  | a :: p', b :: s' => Ascii.eqb a b && startsWith p' s'
  | _ :: _, [] => false
  end.

(** [s.includes(sub)]. *)
Fixpoint includes (s sub : jsstring) : bool :=
  startsWith sub s ||
  match s with
  | [] => false
  | _ :: s' => includes s' sub
  end.

(** [array.includes(word)] on an array of strings. *)
Definition array_includes (arr : list jsstring) (word : jsstring) : bool :=
  existsb (str_eqb word) arr.

End JsString.
Export JsString.

(** ** Name cleaning *)

Module Cleaning.

Definition hd_opt (s : jsstring) : option ascii :=
  match s with [] => None | c :: _ => Some c end.

Definition last_opt (s : jsstring) : option ascii := hd_opt (rev s).

Definition word_opt (c : option ascii) : bool :=
  match c with Some c => is_word c | None => false end.

(** The assertion [\b] between the character before a position and the one
    after it (none at either end of the string). *)
Definition boundary (before after : option ascii) : bool :=
  xorb (word_opt before) (word_opt after).

(** The literal alternatives of
    [/\b(restaurant|cafe|bistro|diner|grill|bar|pub|llc|inc|corp|ltd|co\.?)\b/g],
    in the order the expression lists them; [co\.?] comes last and is
    handled by [match_co]. *)
Definition suffixWords : list jsstring :=
  map lit ["restaurant"; "cafe"; "bistro"; "diner"; "grill"; "bar"; "pub";
           "llc"; "inc"; "corp"; "ltd"].

(** One literal alternative followed by the closing [\b]: the length of the
    match. *)
Definition match_literal (alt s : jsstring) : option nat :=
  if startsWith alt s &&
     boundary (last_opt alt) (hd_opt (skipn (length alt) s))
  then Some (length alt) else None.

(** [co\.?] followed by [\b]: the optional dot is greedy, and given back
    when the boundary fails after it. *)
Definition match_co (s : jsstring) : option nat :=
  if startsWith (lit "co") s then
    match skipn 2 s with
    | "."%char :: rest' =>
        if boundary (Some "."%char) (hd_opt rest') then Some 3
        else if boundary (Some "o"%char) (Some "."%char) then Some 2
        else None
    | rest => if boundary (Some "o"%char) (hd_opt rest) then Some 2 else None
    end
  else None.

Fixpoint first_some (l : list (option nat)) : option nat :=
  match l with
  | [] => None
  | Some n :: _ => Some n
  | None :: l' => first_some l'
  end.

(** The whole expression tried at one position; [before] is the character
    that precedes the position in the subject string. *)
Definition match_suffix (before : option ascii) (s : jsstring) : option nat :=
  if boundary before (hd_opt s)
  then first_some (map (fun alt => match_literal alt s) suffixWords ++ [match_co s])
  else None.

(** [.replace(/\b(...)\b/g, '')]: leftmost matches, scanning on after each
    match; [skip] counts the characters of the current match still to drop. *)
Fixpoint replace_suffixes (before : option ascii) (skip : nat) (s : jsstring)
  : jsstring :=
  match s with
  | [] => []
  | c :: rest =>
      match skip with
      | S k => replace_suffixes (Some c) k rest
      | O =>
          match match_suffix before s with
          | Some (S k) => replace_suffixes (Some c) k rest
          | _ => c :: replace_suffixes (Some c) 0 rest
          end
      end
  end.

(** [.replace(/[^\w\s]/g, '')]. *)
Definition remove_punctuation (s : jsstring) : jsstring :=
  filter (fun c => is_word c || is_space c) s.

(** [.replace(/\s+/g, ' ')]; [in_run] tells that the previous character was
    white space already replaced. *)
Fixpoint normalize_spaces (in_run : bool) (s : jsstring) : jsstring :=
  match s with
  | [] => []
  | c :: rest =>
      if is_space c
      then if in_run then normalize_spaces true rest
           else " "%char :: normalize_spaces true rest
      else c :: normalize_spaces false rest
  end.

Definition cleanBusinessName (name : jsstring) : jsstring :=
  trim (normalize_spaces false
          (remove_punctuation
             (replace_suffixes None 0 (toLowerCase name)))).

End Cleaning.
Export Cleaning.

(** ** Location terms *)

Module Location.

(** The [locationTerms] array of [removeLocationTerms], as the source lists
    it.  The name is split on single spaces, so the entries that contain a
    space can never equal a word. *)
Definition locationTerms : list jsstring :=
  map lit
    [ "al"; "alabama"; "ak"; "alaska"; "az"; "arizona"; "ar"; "arkansas";
      "ca"; "california";
      "co"; "colorado"; "ct"; "connecticut"; "de"; "delaware"; "fl";
      "florida"; "ga"; "georgia";
      "hi"; "hawaii"; "id"; "idaho"; "il"; "illinois"; "in"; "indiana";
      "ia"; "iowa";
      "ks"; "kansas"; "ky"; "kentucky"; "la"; "louisiana"; "me"; "maine";
      "md"; "maryland";
      "ma"; "massachusetts"; "mi"; "michigan"; "mn"; "minnesota"; "ms";
      "mississippi";
      "mo"; "missouri"; "mt"; "montana"; "ne"; "nebraska"; "nv"; "nevada";
      "nh"; "new hampshire";
      "nj"; "new jersey"; "nm"; "new mexico"; "ny"; "new york"; "nc";
      "north carolina";
      "nd"; "north dakota"; "oh"; "ohio"; "ok"; "oklahoma"; "or"; "oregon";
      "pa"; "pennsylvania";
      "ri"; "rhode island"; "sc"; "south carolina"; "sd"; "south dakota";
      "tn"; "tennessee";
      "tx"; "texas"; "ut"; "utah"; "vt"; "vermont"; "va"; "virginia"; "wa";
      "washington";
      "wv"; "west virginia"; "wi"; "wisconsin"; "wy"; "wyoming";
      "city"; "town"; "village"; "downtown"; "metro"; "area"; "region";
      "county";
      "houston"; "dallas"; "austin"; "san antonio"; "fort worth"; "el paso";
      "arlington";
      "corpus christi"; "plano"; "laredo"; "lubbock"; "garland"; "irving";
      "amarillo";
      "grand prairie"; "brownsville"; "pasadena"; "mesquite"; "mckinney";
      "killeen";
      "frisco"; "carrollton"; "denton"; "midland"; "abilene"; "beaumont";
      "round rock";
      "richardson"; "odessa"; "waco"; "lewisville"; "tyler";
      "college station"; "pearland";
      "sugar land"; "baytown"; "conroe"; "longview"; "bryan"; "pharr";
      "missouri city";
      "temple"; "flower mound"; "league city"; "cedar park"; "harlingen";
      "north richland hills";
      "victoria"; "san marcos"; "new braunfels"; "georgetown"; "sherman";
      "rowlett";
      "texarkana"; "huntsville"; "galveston"; "cedar hill"; "wylie";
      "desoto"; "burleson";
      "mansfield"; "allen"; "the woodlands"; "pflugerville"; "big spring";
      "mission";
      "port arthur"; "euless"; "grapevine"; "bedford"; "hurst"; "keller";
      "coppell";
      "duncanville"; "haltom city"; "farmers branch"; "southlake";
      "lancaster"; "carrollton";
      "lorena"; "hewitt"; "robinson"; "woodway"; "bellmead";
      "lacy lakeview"; "beverly hills" ].

Definition removeLocationTerms (name : jsstring) : jsstring :=
  let words := split " "%char (toLowerCase name) in
  let filteredWords :=
    filter (fun word => negb (array_includes locationTerms word)) words in
  join (lit " ") filteredWords.

End Location.
Export Location.

(** ** String similarity *)

Module Similarity.

(** [Math.min] of three distances. *)
Definition min3 (a b c : nat) : nat := Nat.min a (Nat.min b c).

(** The matrix of distances, an array of rows. *)
Definition matrix := list (list nat).

(** [matrix[i][j]]. *)
Definition cell (m : matrix) (i j : nat) : nat := nth j (nth i m []) 0.

(** [row[j] = v] for [j] up to the length of the row, which is all the code
    does: the element is replaced, or appended when [j] is the length. *)
Definition row_set (row : list nat) (j v : nat) : list nat :=
  firstn j row ++ v :: skipn (S j) row.

(** [matrix[i][j] = v] on an existing row [i]. *)
Definition matrix_set (m : matrix) (i j v : nat) : matrix :=
  firstn i m ++ row_set (nth i m []) j v :: skipn (S i) m.

Definition charAt (s : jsstring) (i : nat) : ascii := nth i s zero.

(** The two initialisation loops: [matrix[i] = [i]] for [i <= len2], then
    [matrix[0][j] = j] for [j <= len1]. *)
Definition init_matrix (len1 len2 : nat) : matrix :=
  let rows := map (fun i => [i]) (seq 0 (S len2)) in
  fold_left (fun m j => matrix_set m 0 j j) (seq 0 (S len1)) rows.

(** The body of the inner loop, at row [i] and column [j]. *)
Definition fill_cell (str1 str2 : jsstring) (i : nat) (m : matrix) (j : nat)
  : matrix :=
  if Ascii.eqb (charAt str2 (i - 1)) (charAt str1 (j - 1))
  then matrix_set m i j (cell m (i - 1) (j - 1))
  else matrix_set m i j
         (min3 (cell m (i - 1) (j - 1) + 1)
               (cell m i (j - 1) + 1)
               (cell m (i - 1) j + 1)).

(** The inner loop over [j = 1 .. len1]. *)
Definition fill_row (str1 str2 : jsstring) (m : matrix) (i : nat) : matrix :=
  fold_left (fill_cell str1 str2 i) (seq 1 (length str1)) m.

(** The outer loop over [i = 1 .. len2]. *)
Definition fill_matrix (str1 str2 : jsstring) (m : matrix) : matrix :=
  fold_left (fill_row str1 str2) (seq 1 (length str2)) m.

(** [matrix[len2][len1]] once the matrix is filled. *)
Definition matrix_distance (str1 str2 : jsstring) : nat :=
  cell (fill_matrix str1 str2 (init_matrix (length str1) (length str2)))
       (length str2) (length str1).

Definition calculateStringSimilarity (str1 str2 : jsstring) : Q :=
  let len1 := length str1 in
  let len2 := length str2 in
  if len1 =? 0 then (if len2 =? 0 then 1%Q else 0%Q)
  else if len2 =? 0 then 0%Q
  else
    let maxLength := Nat.max len1 len2 in
    (1 - inject_Z (Z.of_nat (matrix_distance str1 str2))
         / inject_Z (Z.of_nat maxLength))%Q.

End Similarity.
Export Similarity.

(** ** The name-match validator *)

Module NameMatch.

(** [searchQuery.trim().split(',')[0].trim().toLowerCase()]. *)
Definition searchBusinessName (searchQuery : jsstring) : jsstring :=
  toLowerCase (trim (hd [] (split ","%char (trim searchQuery)))).

Definition cleanSearchName (searchQuery : jsstring) : jsstring :=
  cleanBusinessName (searchBusinessName searchQuery).

Definition cleanFoundName (foundBusinessName : jsstring) : jsstring :=
  cleanBusinessName (toLowerCase foundBusinessName).

Definition searchWithoutLocation (searchQuery : jsstring) : jsstring :=
  removeLocationTerms (cleanSearchName searchQuery).

Definition foundWithoutLocation (foundBusinessName : jsstring) : jsstring :=
  removeLocationTerms (cleanFoundName foundBusinessName).

(** [a || b] on strings: the empty string is the only falsy one. *)
Definition or_else (a b : jsstring) : jsstring :=
  match a with [] => b | _ :: _ => a end.

(** [(withoutLocation.trim() || clean).split(' ').filter(word => word.length > 2)]. *)
Definition keywords (withoutLocation clean : jsstring) : list jsstring :=
  filter (fun word => 2 <? length word)
    (split " "%char (or_else (trim withoutLocation) clean)).

Definition searchWords (searchQuery : jsstring) : list jsstring :=
  keywords (searchWithoutLocation searchQuery) (cleanSearchName searchQuery).

Definition foundWords (foundBusinessName : jsstring) : list jsstring :=
  keywords (foundWithoutLocation foundBusinessName)
    (cleanFoundName foundBusinessName).

(** What the inner loop over [foundWords] does for one [searchWord]: it
    stops ([break]) at the first found word that is equal, or that is a
    partial match. *)
Inductive hit := ExactHit | PartialHit | NoHit.

Definition partial_match (searchWord foundWord : jsstring) : bool :=
  (4 <? length searchWord) && (4 <? length foundWord) &&
  (includes foundWord searchWord || includes searchWord foundWord) &&
  Qle_bool 0.8 (calculateStringSimilarity searchWord foundWord).

Fixpoint find_hit (searchWord : jsstring) (foundWords : list jsstring) : hit :=
  match foundWords with
  | [] => NoHit
  | foundWord :: rest =>
      if str_eqb searchWord foundWord then ExactHit
      else if partial_match searchWord foundWord then PartialHit
      else find_hit searchWord rest
  end.

Record counters := mkCounters { keywordMatches : nat; exactMatches : nat }.

Definition count_word (foundWords : list jsstring) (c : counters)
  (searchWord : jsstring) : counters :=
  match find_hit searchWord foundWords with
  | ExactHit => mkCounters (keywordMatches c + 1) (exactMatches c + 1)
  | PartialHit => mkCounters (keywordMatches c + 1) (exactMatches c)
  | NoHit => c
  end.

(** The outer loop over [searchWords]. *)
Definition count_matches (searchWords foundWords : list jsstring) : counters :=
  fold_left (count_word foundWords) searchWords (mkCounters 0 0).

Definition totalKeywords (searchQuery : jsstring) : nat :=
  Nat.max (length (searchWords searchQuery)) 1.

Definition exactHits (searchQuery foundBusinessName : jsstring) : nat :=
  exactMatches
    (count_matches (searchWords searchQuery) (foundWords foundBusinessName)).

Definition searchTypeWords : list jsstring :=
  map lit ["restaurant"; "cafe"; "bistro"; "grill"; "grille"; "bar"; "pub";
           "diner"; "pizzeria"; "bakery"].

Definition isTypeWord (word : jsstring) : bool :=
  array_includes searchTypeWords word.

Definition hasType (words : list jsstring) : bool := existsb isTypeWord words.

Definition typesAgree (sType fType : jsstring) : bool :=
  str_eqb sType fType ||
  (str_eqb sType (lit "grill") && str_eqb fType (lit "grille")) ||
  (str_eqb sType (lit "grille") && str_eqb fType (lit "grill")).

Definition hasTypeMatch (searchWords foundWords : list jsstring) : bool :=
  let searchTypes := filter isTypeWord searchWords in
  let foundTypes := filter isTypeWord foundWords in
  existsb (fun sType => existsb (fun fType => typesAgree sType fType) foundTypes)
    searchTypes.

(** The condition of the [return false] for different business types. *)
Definition differentBusinessTypes (searchWords foundWords : list jsstring)
  : bool :=
  hasType searchWords && hasType foundWords &&
  negb (hasTypeMatch searchWords foundWords).

Definition hasLocationTerms (searchQuery : jsstring) : bool :=
  length (searchWithoutLocation searchQuery) <? length (cleanSearchName searchQuery).

Definition requiredMatchRatio (searchQuery : jsstring) : Q :=
  if hasLocationTerms searchQuery then 0.6%Q else 0.75%Q.

(** [Math.ceil(totalKeywords * requiredMatchRatio)]. *)
Definition requiredMatches (searchQuery : jsstring) : Z :=
  Qceiling (inject_Z (Z.of_nat (totalKeywords searchQuery))
            * requiredMatchRatio searchQuery).

(** The two equality tests at the head of the function. *)
Definition exactMatchLocationFiltered (searchQuery foundBusinessName : jsstring)
  : bool :=
  str_eqb (foundWithoutLocation foundBusinessName)
          (searchWithoutLocation searchQuery) &&
  negb (str_eqb (trim (searchWithoutLocation searchQuery)) []).

Definition exactMatchFullName (searchQuery foundBusinessName : jsstring) : bool :=
  str_eqb (cleanFoundName foundBusinessName) (cleanSearchName searchQuery).

(** The keyword criteria: [Some verdict] when the function returns there,
    [None] when control falls through to the similarity test. *)
Definition keywordVerdict (searchQuery foundBusinessName : jsstring)
  : option bool :=
  let sWords := searchWords searchQuery in
  let fWords := foundWords foundBusinessName in
  if totalKeywords searchQuery =? 1 then
    if exactHits searchQuery foundBusinessName =? 1 then Some true else None
  else if differentBusinessTypes sWords fWords then Some false
  else if (requiredMatches searchQuery
           <=? Z.of_nat (exactHits searchQuery foundBusinessName))%Z
       then Some true
       else None.

(** The similarity of the last resort, between the fully-cleaned names. *)
Definition fallbackSimilarity (searchQuery foundBusinessName : jsstring) : Q :=
  calculateStringSimilarity (cleanSearchName searchQuery)
    (cleanFoundName foundBusinessName).

Definition isBusinessNameMatch (searchQuery foundBusinessName : jsstring) : bool :=
  if exactMatchLocationFiltered searchQuery foundBusinessName then true
  else if exactMatchFullName searchQuery foundBusinessName then true
  else
    match keywordVerdict searchQuery foundBusinessName with
    | Some verdict => verdict
    | None =>
        Qle_bool 0.95 (fallbackSimilarity searchQuery foundBusinessName)
    end.

End NameMatch.
Export NameMatch.

(** ** Numbers and exceptions *)

Module Js.

(** [Math.round]: to the nearest integer, halves upwards. *)
Definition Math_round (x : Q) : Z := Qfloor (x + (1 # 2))%Q.

Definition Math_ceil (x : Q) : Z := Qceiling x.

(** [xs.reduce((sum, x) => sum + x, 0)]. *)
Definition sum (xs : list Q) : Q := fold_left Qplus xs 0%Q.

(** [Math.min(x, ...xs)] and [Math.max(x, ...xs)] on at least one number. *)
Definition Math_min (x : Q) (xs : list Q) : Q := fold_left Qmin xs x.
Definition Math_max (x : Q) (xs : list Q) : Q := fold_left Qmax xs x.

(** [a > b], [a < b] and [a >= b] on numbers. *)
Definition gtb (a b : Q) : bool := negb (Qle_bool a b).
Definition ltb (a b : Q) : bool := negb (Qle_bool b a).
Definition geb (a b : Q) : bool := Qle_bool b a.

Inductive error :=
| TypeError (message : jsstring)
| Error (message : jsstring).

Inductive result (A : Type) :=
| Ok (value : A)
| Throw (e : error).
Arguments Ok {A} value.
Arguments Throw {A} e.

Definition bind {A B : Type} (r : result A) (k : A -> result B) : result B :=
  match r with
  | Ok a => k a
  | Throw e => Throw e
  end.

(** [try { body } catch (error) { handler }]. *)
Definition try_catch {A : Type} (body : result A) (handler : error -> A) : A :=
  match body with
  | Ok a => a
  | Throw e => handler e
  end.

(** A value produced by [JSON.parse]. *)
Inductive json :=
| JNull
| JBool (b : bool)
| JNumber (q : Q)
| JString (s : jsstring)
| JArray (items : list json)
| JObject (fields : list (jsstring * json)).

Fixpoint lookup (key : jsstring) (fields : list (jsstring * json)) : option json :=
  match fields with
  | [] => None
  | (k, v) :: rest => if str_eqb key k then Some v else lookup key rest
  end.

(** [value.key] for a key that is no built-in property: [undefined]
    ([None]) on a primitive, an array or an object without the key, a
    [TypeError] on [null]. *)
Definition get (value : json) (key : jsstring) : result (option json) :=
  match value with
  | JNull => Throw (TypeError (lit "Cannot read properties of null"))
  | JObject fields => Ok (lookup key fields)
  | _ => Ok None
  end.

End Js.

Notation "x <- r ;; k" := (Js.bind r (fun x => k))
  (at level 61, r at next level, right associativity).

(** ** Lead scoring *)

Module Scoring.
Import Js.

Inductive Score := A | B | C.
Inductive Urgency := High | Medium | Low.

(** [Competitor] and [Lead] of the shared schema. *)
Record Competitor := mkCompetitor {
  comp_id : jsstring;
  comp_leadId : jsstring;
  comp_name : jsstring;
  comp_rating : Q;
  comp_reviewCount : Q;
  comp_distance : Q;
  comp_placeId : jsstring
}.

Record Lead := mkLead {
  lead_id : jsstring;
  lead_name : jsstring;
  lead_address : jsstring;
  lead_placeId : option jsstring;
  lead_rating : Q;
  lead_reviewCount : Q;
  lead_score : Score;
  lead_gapAnalysis : jsstring;
  lead_lat : option Q;
  lead_lng : option Q
}.

Record MarketingInsights := mkInsights {
  score : Score;
  gapAnalysis : jsstring;
  marketingOpportunity : jsstring;
  actionableRecommendations : list jsstring;
  competitivePosition : jsstring;
  urgencyLevel : Urgency;
  intelligentInsights : option jsstring;
  industrySpecificAdvice : option jsstring;
  aiRecommendations : option (list json)
}.

Record MarketStats := mkMarketStats {
  averageRating : Q;
  averageReviews : Q;
  totalCompetitors : nat;
  highPerformers : nat;
  reviewRange_min : Q;
  reviewRange_max : Q
}.

(** The [thresholds] field of the service; [scoreLead] compares with the
    same numbers written as literals. *)
Record ScoringThresholds := mkThresholds {
  A_rating : Q;
  A_reviewGap : Q;
  B_rating : Q;
  B_reviewGap : Q;
  C_rating : Q
}.

Definition thresholds : ScoringThresholds := mkThresholds 4.0 50 4.0 100 4.0.

Definition calculateMarketStats (competitors : list Competitor) : MarketStats :=
  match competitors with
  | [] => mkMarketStats 0 0 0 0 0 0
  | first :: others =>
      let ratings := map comp_rating competitors in
      let reviewCounts := map comp_reviewCount competitors in
      let averageRating :=
        (sum ratings / inject_Z (Z.of_nat (length ratings)))%Q in
      let averageReviews :=
        (sum reviewCounts / inject_Z (Z.of_nat (length reviewCounts)))%Q in
      let highPerformers :=
        length (filter (fun c => geb (comp_rating c) 4.5
                                 && geb (comp_reviewCount c) 100)
                       competitors) in
      mkMarketStats
        (inject_Z (Math_round (averageRating * 10)) / 10)%Q
        (inject_Z (Math_round averageReviews))
        (length competitors)
        highPerformers
        (Math_min (comp_reviewCount first) (map comp_reviewCount others))
        (Math_max (comp_reviewCount first) (map comp_reviewCount others))
  end.

Section Text.

(** The text of a number in a template literal ([String(x)]). *)
Variable numberToString : Q -> jsstring.

Definition natToString (n : nat) : jsstring :=
  numberToString (inject_Z (Z.of_nat n)).

Definition generateMarketOpportunity (rating reviewCount : Q)
  (marketStats : MarketStats) : jsstring :=
  if totalCompetitors marketStats =? 0 then
    lit "Market analysis shows this business has a " ++ numberToString rating
    ++ lit "/5.0 rating with " ++ numberToString reviewCount
    ++ lit " reviews. To establish strong market presence and attract more customers, implementing a systematic review acquisition strategy would significantly improve visibility and credibility in search results."
  else
    let competitiveGap := (reviewCount - averageReviews marketStats)%Q in
    let ratingPosition :=
      if geb rating (averageRating marketStats) then lit "above"
      else lit "below" in
    let opportunity :=
      lit "Local market analysis reveals "
      ++ natToString (totalCompetitors marketStats)
      ++ lit " active competitors with an average rating of "
      ++ numberToString (averageRating marketStats)
      ++ lit "/5.0 and " ++ numberToString (averageReviews marketStats)
      ++ lit " reviews. " in
    if ltb competitiveGap (-50) then
      opportunity
      ++ lit "Your business currently has "
      ++ numberToString (Qabs competitiveGap)
      ++ lit " fewer reviews than the market average, representing a significant opportunity to gain competitive advantage. "
      ++ lit "By increasing review velocity to reach market parity, you can expect improved search rankings and increased customer trust. "
      ++ lit "The review gap indicates strong potential for rapid market share growth through strategic reputation management."
    else if ltb competitiveGap 0 then
      opportunity
      ++ lit "With " ++ numberToString (Qabs competitiveGap)
      ++ lit " fewer reviews than competitors, there's clear opportunity to strengthen market position. "
      ++ lit "Closing this review gap would improve local search visibility and customer confidence, directly impacting lead generation."
    else
      opportunity
      ++ lit "Your review count " ++ ratingPosition
      ++ lit " market average indicates "
      ++ (if gtb competitiveGap 0 then lit "strong" else lit "stable")
      ++ lit " market positioning. "
      ++ lit "Focus on maintaining review momentum while competitors work to catch up to your established market presence.".

Definition scoreLead (rating reviewCount : Q) (competitors : list Competitor)
  : MarketingInsights :=
  let marketStats := calculateMarketStats competitors in
  let marketingOpportunity :=
    generateMarketOpportunity rating reviewCount marketStats in
  let '(score, urgencyLevel, competitivePosition, actionableRecommendations) :=
    if ltb rating 4.0 then
      (C, High,
       lit "Service quality issues with " ++ numberToString rating
       ++ lit "/5.0 rating",
       [ lit "Focus on improving service quality before review acquisition";
         lit "Address customer satisfaction issues";
         lit "Not ready for aggressive review campaigns" ])
    else if geb reviewCount 100 then
      (C, Low,
       lit "Well-established with " ++ numberToString reviewCount
       ++ lit " reviews - limited growth opportunity",
       [ lit "Focus on review quality maintenance";
         lit "Consider other marketing services";
         lit "Limited need for review acquisition" ])
    else if geb rating 4.0 && ltb reviewCount 50 then
      (A, High,
       lit "Perfect target: " ++ numberToString rating
       ++ lit "/5.0 rating with only " ++ numberToString reviewCount
       ++ lit " reviews",
       [ lit "Implement aggressive review acquisition campaign";
         lit "Target 50-100 reviews within 6 months";
         lit "Leverage existing customer satisfaction for rapid growth" ])
    else
      (B, Medium,
       lit "Solid target: " ++ numberToString rating
       ++ lit "/5.0 rating with " ++ numberToString reviewCount
       ++ lit " reviews",
       [ lit "Boost review count to reach 100+ threshold";
         lit "Maintain rating quality during growth";
         lit "Focus on review velocity improvement" ]) in
  let gapAnalysis :=
    lit "Lead Quality Assessment: " ++ numberToString rating
    ++ lit "/5.0 rating, " ++ numberToString reviewCount ++ lit " reviews. "
    ++ (if 0 <? length competitors then
          let avgCompetitorReviews :=
            (sum (map comp_reviewCount competitors)
             / inject_Z (Z.of_nat (length competitors)))%Q in
          let reviewGap := (reviewCount - avgCompetitorReviews)%Q in
          lit "Competitor average: "
          ++ numberToString (inject_Z (Math_round avgCompetitorReviews))
          ++ lit " reviews ("
          ++ (if gtb reviewGap 0 then lit "+" else lit "")
          ++ numberToString (inject_Z (Math_round reviewGap))
          ++ lit " gap)."
        else lit "No competitor data for comparison.") in
  mkInsights score gapAnalysis marketingOpportunity actionableRecommendations
    competitivePosition urgencyLevel None None None.

(** *** The AI-augmented path *)

(** [JSON.parse]: [None] when it throws a [SyntaxError]. *)
Variable JSON_parse : jsstring -> option json.

(** What the chat-completion request does: it fails (the request rejects,
    or the response has no first choice), or it yields
    [response.choices[0].message.content], a string or [null]. *)
Inductive completion :=
| RequestFails
| Content (content : option jsstring).

Definition defaultAIInsights : json :=
  JObject
    [ (lit "intelligentInsights",
       JString (lit "Standard competitive analysis available"));
      (lit "industrySpecificAdvice",
       JString (lit "Focus on customer service excellence"));
      (lit "personalizedRecommendations",
       JArray [ JString (lit "Increase review generation");
                JString (lit "Improve online presence");
                JString (lit "Monitor competitors") ]);
      (lit "marketOpportunity",
       JString (lit "Growth potential in local market"));
      (lit "competitivePositioning",
       JString (lit "Positioned for market expansion")) ].

(** [generateAIInsights]: its own [catch] turns every failure, of the
    request or of [JSON.parse], into the default insights. *)
Definition generateAIInsights (lead : Lead) (competitors : list Competitor)
  (score : Score) (outcome : completion) : json :=
  try_catch
    (match outcome with
     | RequestFails => Throw (Error (lit "request failed"))
     | Content content =>
         let text :=
           match content with
           | Some (c :: cs) => c :: cs
           | _ => lit "{}"
           end in
         match JSON_parse text with
         | Some value => Ok value
         | None => Throw (Error (lit "SyntaxError"))
         end
     end)
    (fun _ => defaultAIInsights).

(** [typeof v === 'string' ? v : fallback]. *)
Definition string_or (v : option json) (fallback : jsstring) : jsstring :=
  match v with
  | Some (JString s) => s
  | _ => fallback
  end.

(** [Array.isArray(v) ? v : fallback]. *)
Definition array_or (v : option json) (fallback : list json) : list json :=
  match v with
  | Some (JArray items) => items
  | _ => fallback
  end.

Definition scoreLeadWithAI (lead : Lead) (competitors : list Competitor)
  (outcome : completion) : MarketingInsights :=
  let basicInsights :=
    scoreLead (lead_rating lead) (lead_reviewCount lead) competitors in
  try_catch
    (let aiInsights :=
       generateAIInsights lead competitors (score basicInsights) outcome in
     intelligent <- get aiInsights (lit "intelligentInsights") ;;
     industry <- get aiInsights (lit "industrySpecificAdvice") ;;
     personalized <- get aiInsights (lit "personalizedRecommendations") ;;
     opportunity <- get aiInsights (lit "marketOpportunity") ;;
     positioning <- get aiInsights (lit "competitivePositioning") ;;
     Ok (mkInsights
           (score basicInsights)
           (gapAnalysis basicInsights)
           (string_or opportunity (marketingOpportunity basicInsights))
           (actionableRecommendations basicInsights)
           (string_or positioning (competitivePosition basicInsights))
           (urgencyLevel basicInsights)
           (Some (string_or intelligent (lit "AI analysis results available")))
           (Some (string_or industry
                    (lit "Industry-specific recommendations available")))
           (Some (array_or personalized
                    [JString (lit "AI-powered recommendations available")]))))
    (fun _ => basicInsights).

End Text.

End Scoring.

(** ** Ten-pack market statistics *)

Module TenPack.
Import Js.

(** A number computed by the statistics: on an empty cohort JavaScript
    produces NaN and the infinities where a finite number is expected. *)
Inductive number :=
| Fin (q : Q)
| NaN
| PosInfinity
| NegInfinity.

(** [total / xs.length]. *)
Definition divide_by_length (total : Q) (len : nat) : number :=
  if len =? 0 then
    if Qeq_bool total 0 then NaN
    else if Qle_bool 0 total then PosInfinity else NegInfinity
  else Fin (total / inject_Z (Z.of_nat len)).

(** [Math.min(...xs)] and [Math.max(...xs)]. *)
Definition spread_min (xs : list Q) : number :=
  match xs with
  | [] => PosInfinity
  | x :: others => Fin (Math_min x others)
  end.

Definition spread_max (xs : list Q) : number :=
  match xs with
  | [] => NegInfinity
  | x :: others => Fin (Math_max x others)
  end.

(** [Math.max(a, b)] for a finite [a]. *)
Definition max_with (a : Q) (b : number) : number :=
  match b with
  | Fin q => Fin (Qmax a q)
  | NaN => NaN
  | PosInfinity => PosInfinity
  | NegInfinity => Fin a
  end.

(** [x * k] for a positive constant [k], and [Math.ceil]. *)
Definition times (x : number) (k : Q) : number :=
  match x with
  | Fin q => Fin (q * k)
  | other => other
  end.

Definition ceil (x : number) : number :=
  match x with
  | Fin q => Fin (inject_Z (Math_ceil q))
  | other => other
  end.

(** [xs[i]]: [undefined] outside the array. *)
Definition at_index (xs : list Q) (i : Z) : option Q :=
  if (i <? 0)%Z then None else nth_error xs (Z.to_nat i).

(** [(a + b) / 2] where either operand may be [undefined]. *)
Definition average_of (a b : option Q) : number :=
  match a, b with
  | Some x, Some y => Fin ((x + y) / 2)
  | _, _ => NaN
  end.

(** One entry of [data.results], with the fields the analysis reads. *)
Record Place := mkPlace {
  place_name : jsstring;
  place_rating : option Q;
  place_user_ratings_total : option Q;
  place_place_id : jsstring;
  place_formatted_address : option jsstring;
  place_vicinity : option jsstring
}.

(** The body of the text-search response. *)
Record SearchResponse := mkResponse {
  status : jsstring;
  results : option (list Place)
}.

Record TenPackBusiness := mkBusiness {
  name : jsstring;
  rating : Q;
  reviewCount : Q;
  placeId : jsstring;
  address : jsstring
}.

Record TenPackAnalysis := mkAnalysis {
  businesses : list TenPackBusiness;
  averageRating : number;
  averageReviews : number;
  medianReviews : number;
  reviewRange_min : number;
  reviewRange_max : number;
  ratingRange_min : number;
  ratingRange_max : number;
  topPerformer : TenPackBusiness;
  entryThreshold_reviewsNeeded : number;
  entryThreshold_ratingNeeded : number
}.

(** [a || b] on optional strings. *)
Definition string_or_else (a : option jsstring) (b : jsstring) : jsstring :=
  match a with
  | Some (c :: cs) => c :: cs
  | _ => b
  end.

(** The [filter] and the [map] of one place: it is kept when
    [place.rating && place.user_ratings_total] is truthy, both present and
    not zero. *)
Definition toBusiness (place : Place) : list TenPackBusiness :=
  match place_rating place, place_user_ratings_total place with
  | Some r, Some total =>
      if negb (Qeq_bool r 0) && negb (Qeq_bool total 0)
      then [ mkBusiness (place_name place) r total (place_place_id place)
               (string_or_else (place_formatted_address place)
                  (string_or_else (place_vicinity place) [])) ]
      else []
  | _, _ => []
  end.

(** [data.results.slice(0, 10).filter(...).map(...)]: the provider's order
    is kept. *)
Definition cohort (places : list Place) : list TenPackBusiness :=
  flat_map toBusiness (firstn 10 places).

(** [[...xs].sort((a, b) => a - b)]: ascending numeric order. *)
Fixpoint insert_sorted (x : Q) (sorted : list Q) : list Q :=
  match sorted with
  | [] => [x]
  | y :: rest =>
      if Qle_bool x y then x :: sorted else y :: insert_sorted x rest
  end.

Definition sort_ascending (xs : list Q) : list Q :=
  fold_right insert_sorted [] xs.

Definition median (reviewCounts : list Q) : number :=
  let sortedReviews := sort_ascending reviewCounts in
  let len := Z.of_nat (length sortedReviews) in
  if (len mod 2 =? 0)%Z
  then average_of (at_index sortedReviews (len / 2 - 1))
                  (at_index sortedReviews (len / 2))
  else match at_index sortedReviews (len / 2) with
       | Some x => Fin x
       | None => NaN
       end.

(** The callback of [businesses.reduce] that keeps the top performer. *)
Definition better (top current : TenPackBusiness) : TenPackBusiness :=
  if gtb (rating current) (rating top) then current
  else if Qeq_bool (rating current) (rating top)
          && gtb (reviewCount current) (reviewCount top)
       then current
       else top.

(** [xs.reduce(callback)] without an initial value. *)
Definition reduce {T : Type} (callback : T -> T -> T) (xs : list T) : result T :=
  match xs with
  | [] => Throw (TypeError (lit "Reduce of empty array with no initial value"))
  | first :: others => Ok (fold_left callback others first)
  end.

(** [businesses[businesses.length - 1]]: [undefined] on the empty array. *)
Definition lastBusiness (businesses : list TenPackBusiness)
  : option TenPackBusiness :=
  match rev businesses with
  | [] => None
  | b :: _ => Some b
  end.

(** The statistics block of [analyzeTenPack], from [// Calculate statistics]
    to the [return]. *)
Definition statistics (businesses : list TenPackBusiness)
  : result TenPackAnalysis :=
  let ratings := map rating businesses in
  let reviewCounts := map reviewCount businesses in
  let averageRating := divide_by_length (sum ratings) (length ratings) in
  let averageReviews :=
    divide_by_length (sum reviewCounts) (length reviewCounts) in
  let medianReviews := median reviewCounts in
  let reviewRange_min := spread_min reviewCounts in
  let reviewRange_max := spread_max reviewCounts in
  let ratingRange_min := spread_min ratings in
  let ratingRange_max := spread_max ratings in
  topPerformer <- reduce better businesses ;;
  let tenthPosition := lastBusiness businesses in
  let reviewsNeeded :=
    match tenthPosition with
    | Some tenth => Fin (reviewCount tenth + 1)
    | None => ceil (times averageReviews 0.7)
    end in
  let ratingNeeded := max_with 4.0 ratingRange_min in
  Ok (mkAnalysis businesses averageRating averageReviews medianReviews
        reviewRange_min reviewRange_max ratingRange_min ratingRange_max
        topPerformer reviewsNeeded ratingNeeded).

(** [analyzeTenPack] from the parsed response [data] on. *)
Definition analyzeTenPack (businessCategory city state : jsstring)
  (data : SearchResponse) : result TenPackAnalysis :=
  let searchQuery :=
    businessCategory ++ lit " " ++ city ++ lit " " ++ state in
  let noResults :=
    Throw (Error (lit "No results found for " ++ searchQuery
                  ++ lit " 10-pack analysis")) in
  if negb (str_eqb (status data) (lit "OK")) then noResults
  else
    match results data with
    | None => noResults
    | Some [] => noResults
    | Some places => statistics (cohort places)
    end.

End TenPack.

(** ** Reference definitions *)

Module Reference.

(** The Levenshtein distance between the first [i] characters of [a] and
    the first [j] characters of [b], by its textbook recurrence: deleting,
    inserting or substituting one character costs one. *)
Fixpoint lev (a b : jsstring) (i : nat) : nat -> nat :=
  match i with
  | O => fun j => j
  | S i' =>
      fix lev_row (j : nat) : nat :=
        match j with
        | O => S i'
        | S j' =>
            min3 (lev a b i' (S j') + 1)
                 (lev_row j' + 1)
                 (lev a b i' j'
                  + (if Ascii.eqb (nth i' a zero) (nth j' b zero)
                     then 0 else 1))
        end
  end.

Definition levenshtein (a b : jsstring) : nat :=
  lev a b (length a) (length b).

(** One minus the distance over the longer length; two empty strings are
    identical. *)
Definition similarity (a b : jsstring) : Q :=
  match a, b with
  | [], [] => 1%Q
  | _, _ =>
      (1 - inject_Z (Z.of_nat (levenshtein a b))
           / inject_Z (Z.of_nat (Nat.max (length a) (length b))))%Q
  end.

(** Row [r] of the matrix of [str1] and [str2] when the rows before [i] are
    complete and row [i] is filled up to column [j]. *)
Definition row_at (str1 str2 : jsstring) (i j r : nat) : list nat :=
  if r <? i then map (lev str2 str1 r) (seq 0 (S (length str1)))
  else if r =? i then map (lev str2 str1 i) (seq 0 (S j))
  else [r].

Definition filled (str1 str2 : jsstring) (m : matrix) (i j : nat) : Prop :=
  length m = S (length str2) /\
  forall r, r <= length str2 -> nth r m [] = row_at str1 str2 i j r.

(** The matrix while its first row is being written, up to column [k]. *)
Definition initialised (len2 : nat) (m : matrix) (k : nat) : Prop :=
  length m = S len2 /\
  forall r, r <= len2 -> nth r m [] = if r =? 0 then seq 0 (S k) else [r].

(** How many numbers of a list satisfy a test. *)
Definition count (p : Q -> bool) (l : list Q) : nat := length (filter p l).

End Reference.

(** ** Sample inputs *)

Module Samples.

Definition tonys_pizza : jsstring := lit "Tony's Pizza".
Definition tonys_bistro : jsstring := lit "Tony's Bistro".
Definition tonys_italian_bistro : jsstring := lit "Tony's Italian Bistro".
Definition tonys_italian_grille : jsstring := lit "Tony's Italian Grille".
Definition ace_plumbing : jsstring := lit "Ace Plumbing".
Definition ace_electric : jsstring := lit "Ace Electric".
Definition llc : jsstring := lit "LLC".
Definition inc : jsstring := lit "Inc.".
Definition starbucks : jsstring := lit "Starbucks".
Definition starbucks_coffee : jsstring := lit "Starbucks Coffee".
Definition hospitals : jsstring := lit "Northside Veterinary Hospitals".
Definition hospital : jsstring := lit "Northside Veterinary Hospital".
Definition orthodontics_austin : jsstring :=
  lit "Westbrook Orthodontics Austin".
Definition orthodontic_austin : jsstring :=
  lit "Westbrook Orthodontic Austin".
Definition golden_gate_bakery : jsstring := lit "Golden Gate Bakery".
Definition golden_gate_grille : jsstring := lit "Golden Gate Grille".
Definition long_bakery : jsstring :=
  lit "Golden Gate Artisan Sourdough Bread Pastry Cake Cookie Croissant Baguette Muffin Donut Pie Tart Sandwich and Coffee House Bakery".
Definition long_grille : jsstring :=
  lit "Golden Gate Artisan Sourdough Bread Pastry Cake Cookie Croissant Baguette Muffin Donut Pie Tart Sandwich and Coffee House Grille".

Definition business (r n : Q) : TenPack.TenPackBusiness :=
  TenPack.mkBusiness (lit "b") r n (lit "p") (lit "a").

(** A cohort in provider order: the last member has neither the fewest nor
    the most reviews. *)
Definition ranked_cohort : list TenPack.TenPackBusiness :=
  [business 4.8 5; business 3.5 100; business 4.2 42].

End Samples.

(** ** Search variants *)

Module Variations.

(** The double-quote character. *)
Definition dquote : ascii := ascii_of_nat 34.

(** [s.split(/\s+/)]: every run of white space separates two pieces, so a
    string that begins or ends with white space has an empty first or last
    piece; [in_run] tells that the previous character was white space. *)
Fixpoint split_spaces (in_run : bool) (s : jsstring) : list jsstring :=
  match s with
  | [] => [[]]
  | c :: rest =>
      if is_space c
      then if in_run then split_spaces true rest
           else [] :: split_spaces true rest
      else match split_spaces false rest with
           | w :: ws => (c :: w) :: ws
           | [] => [[c]]
           end
  end.

(** [xs.slice(0, -n)] and [xs.slice(-n)]. *)
Definition slice_until_last {T : Type} (n : nat) (xs : list T) : list T :=
  firstn (length xs - n) xs.
Definition slice_last {T : Type} (n : nat) (xs : list T) : list T :=
  skipn (length xs - n) xs.

(** [Array.from(new Set(xs))]: a set keeps its elements in the order of
    their first insertion. *)
Definition set_add (set : list jsstring) (x : jsstring) : list jsstring :=
  if array_includes set x then set else set ++ [x].

Definition unique (xs : list jsstring) : list jsstring :=
  fold_left set_add xs [].

Definition generateSearchVariations (input : jsstring) : list jsstring :=
  let variations := [input] in
  let cleaned := trim input in
  let variations :=
    if negb (startsWith [dquote] cleaned)
    then variations ++ [[dquote] ++ cleaned ++ [dquote]]
    else variations in
  let variations :=
    if negb (includes cleaned (lit ","))
       && (3 <=? length (split_spaces false cleaned))
    then
      let parts := split_spaces false cleaned in
      let businessPart := join (lit " ") (slice_until_last 2 parts) in
      let locationPart := join (lit " ") (slice_last 2 parts) in
      variations ++ [businessPart ++ lit ", " ++ locationPart]
    else variations in
  let variations :=
    if includes cleaned (lit ",") then
      let parts := map trim (split ","%char cleaned) in
      let businessName := toLowerCase (hd [] parts) in
      let location := join (lit " ") (skipn 1 parts) in
      let variations :=
        if includes businessName (lit "pest control")
           || includes businessName (lit "exterminator")
        then variations ++ [ lit "pest control " ++ location;
                             lit "pest control service " ++ location;
                             lit "exterminator " ++ location ]
        else variations in
      let variations :=
        if includes businessName (lit "plumb")
        then variations ++ [ lit "plumber " ++ location;
                             lit "plumbing service " ++ location ]
        else variations in
      if includes businessName (lit "electric")
      then variations ++ [ lit "electrician " ++ location;
                           lit "electrical service " ++ location ]
      else variations
    else variations in
  unique variations.

End Variations.

(** ** The category match of pest-control searches *)

Module TypeMatch.
Import Variations.

Definition commonWords : list jsstring :=
  map lit ["pest"; "control"; "service"; "services"; "company"; "llc"; "inc";
           "corp"; "ltd"; "management"; "solutions"; "professional"; "the";
           "and"; "of"; "for"].

(** The class [[a-z]]. *)
Definition is_lower_letter (c : ascii) : bool :=
  (97 <=? code c) && (code c <=? 122).

Definition extractBusinessWords (businessName : jsstring) : list jsstring :=
  let words :=
    map (fun word => filter is_lower_letter word)
      (filter (fun word => (2 <? length word)
                           && negb (array_includes commonWords word))
         (split_spaces false (toLowerCase businessName))) in
  filter (fun word => 0 <? length word) words.

Definition pestControlKeywords : list jsstring :=
  map lit ["pest control"; "pest management"; "exterminator"; "fumigation";
           "termite"; "rodent control"].

(** The test of the inner loop of [isBusinessTypeMatch]. *)
Definition words_overlap (searchWord foundWord : jsstring) : bool :=
  str_eqb searchWord foundWord
  || ((4 <? length searchWord) && includes foundWord searchWord)
  || ((4 <? length foundWord) && includes searchWord foundWord).

(** The two loops: a search word counts once, at the first found word it
    overlaps with ([break]). *)
Definition wordMatches (searchWords foundWords : list jsstring) : nat :=
  fold_left
    (fun count searchWord =>
       if existsb (words_overlap searchWord) foundWords
       then count + 1 else count)
    searchWords 0.

Definition isBusinessTypeMatch
  (searchedBusinessName foundBusinessName expectedCategory : jsstring) : bool :=
  let searchLower := toLowerCase searchedBusinessName in
  let foundLower := toLowerCase foundBusinessName in
  if str_eqb expectedCategory (lit "pest control") then
    let searchHasPestControl :=
      existsb (fun keyword => includes searchLower keyword)
        pestControlKeywords in
    let foundHasPestControl :=
      existsb (fun keyword => includes foundLower keyword)
        pestControlKeywords in
    if searchHasPestControl && foundHasPestControl then
      let searchWords := extractBusinessWords searchLower in
      let foundWords := extractBusinessWords foundLower in
      if (0 <? wordMatches searchWords foundWords)
         && (0 <? length searchWords)
      then true else false
    else false
  else false.

End TypeMatch.

(** ** The business type of a place *)

Module BusinessType.

Definition priorityTypes : list jsstring :=
  map lit
    [ "restaurant"; "food"; "meal_takeaway"; "meal_delivery"; "cafe"; "bar";
      "doctor"; "dentist"; "hospital"; "pharmacy"; "veterinary_care";
      "lawyer"; "accounting"; "real_estate_agency"; "insurance_agency";
      "beauty_salon"; "hair_care"; "spa"; "gym"; "fitness_center";
      "plumber"; "electrician"; "locksmith"; "moving_company"; "contractor";
      "car_repair"; "car_dealer"; "gas_station";
      "store"; "clothing_store"; "electronics_store"; "shopping_mall";
      "lodging"; "tourist_attraction"; "establishment" ].

Definition genericTypes : list jsstring :=
  map lit ["point_of_interest"; "establishment"; "premise"].

(** [types] is [None] when the place has no [types] field. *)
Definition getBusinessType (types : option (list jsstring)) : jsstring :=
  match types with
  | None => lit "establishment"
  | Some types =>
      match find (fun businessType => array_includes types businessType)
                 priorityTypes with
      | Some businessType => businessType
      | None =>
          match find (fun type => negb (array_includes genericTypes type))
                     types with
          | Some type => type
          | None => lit "establishment"
          end
      end
  end.

End BusinessType.

(** ** The in-memory store *)

Module Storage.
Import Js.

(** A [Map]: the entries in the order of insertion, each key once. *)
Definition jsmap (V : Type) := list (jsstring * V).

Fixpoint map_get {V : Type} (m : jsmap V) (key : jsstring) : option V :=
  match m with
  | [] => None
  | (k, v) :: rest => if str_eqb k key then Some v else map_get rest key
  end.

(** [m.set(key, value)]: the value of an existing key is replaced in place,
    a new key goes last. *)
Fixpoint map_set {V : Type} (m : jsmap V) (key : jsstring) (value : V)
  : jsmap V :=
  match m with
  | [] => [(key, value)]
  | (k, v) :: rest =>
      if str_eqb k key then (k, value) :: rest
      else (k, v) :: map_set rest key value
  end.

(** [m.delete(key)]: the map without the key, and whether it was there. *)
Fixpoint map_delete {V : Type} (m : jsmap V) (key : jsstring)
  : jsmap V * bool :=
  match m with
  | [] => ([], false)
  | (k, v) :: rest =>
      if str_eqb k key then (rest, true)
      else let '(rest', found) := map_delete rest key in ((k, v) :: rest', found)
  end.

(** [Array.from(m.values())]. *)
Definition values {V : Type} (m : jsmap V) : list V := map snd m.

Record InsertLead := mkInsertLead {
  il_name : jsstring;
  il_address : jsstring;
  il_placeId : option jsstring;
  il_rating : Q;
  il_reviewCount : Q;
  il_score : Scoring.Score;
  il_gapAnalysis : jsstring;
  il_lat : option Q;
  il_lng : option Q
}.

Record InsertCompetitor := mkInsertCompetitor {
  ic_leadId : jsstring;
  ic_name : jsstring;
  ic_rating : Q;
  ic_reviewCount : Q;
  ic_distance : Q;
  ic_placeId : jsstring
}.

(** An API key; a date is its time value. *)
Record ApiKey := mkApiKey {
  key_id : jsstring;
  keyType : jsstring;
  keyValue : jsstring;
  isActive : jsstring;
  createdAt : Z;
  updatedAt : Z
}.

Record InsertApiKey := mkInsertApiKey {
  ik_keyType : jsstring;
  ik_keyValue : jsstring;
  ik_isActive : option jsstring
}.

(** [Partial<InsertApiKey>]. *)
Record ApiKeyUpdates := mkApiKeyUpdates {
  up_keyType : option jsstring;
  up_keyValue : option jsstring;
  up_isActive : option jsstring
}.

(** The fields of a [MemStorage]. *)
Record MemStorage := mkMemStorage {
  leads : jsmap Scoring.Lead;
  competitors : jsmap Scoring.Competitor;
  apiKeys : jsmap ApiKey;
  currentId : nat
}.

(** The constructor. *)
Definition empty : MemStorage := mkMemStorage [] [] [] 1.

(** [n.toString()] on a counter. *)
Definition toString (n : nat) : jsstring :=
  list_ascii_of_string (NilEmpty.string_of_uint (Nat.to_uint n)).

(** [(this.currentId++).toString()]. *)
Definition generateId (s : MemStorage) : jsstring * MemStorage :=
  (toString (currentId s),
   mkMemStorage (leads s) (competitors s) (apiKeys s) (currentId s + 1)).

Definition createLead (insertLead : InsertLead) (s : MemStorage)
  : Scoring.Lead * MemStorage :=
  let '(id, s) := generateId s in
  let lead :=
    Scoring.mkLead id (il_name insertLead) (il_address insertLead)
      (il_placeId insertLead) (il_rating insertLead)
      (il_reviewCount insertLead) (il_score insertLead)
      (il_gapAnalysis insertLead) (il_lat insertLead) (il_lng insertLead) in
  (lead,
   mkMemStorage (map_set (leads s) id lead) (competitors s) (apiKeys s)
     (currentId s)).

Definition getLead (id : jsstring) (s : MemStorage) : option Scoring.Lead :=
  map_get (leads s) id.

Definition getLeads (s : MemStorage) : list Scoring.Lead := values (leads s).

Definition clearLeads (s : MemStorage) : MemStorage :=
  mkMemStorage [] (competitors s) (apiKeys s) (currentId s).

Definition createCompetitor (insertCompetitor : InsertCompetitor)
  (s : MemStorage) : Scoring.Competitor * MemStorage :=
  let '(id, s) := generateId s in
  let competitor :=
    Scoring.mkCompetitor id (ic_leadId insertCompetitor)
      (ic_name insertCompetitor) (ic_rating insertCompetitor)
      (ic_reviewCount insertCompetitor) (ic_distance insertCompetitor)
      (ic_placeId insertCompetitor) in
  (competitor,
   mkMemStorage (leads s) (map_set (competitors s) id competitor) (apiKeys s)
     (currentId s)).

Definition getCompetitorsByLeadId (leadId : jsstring) (s : MemStorage)
  : list Scoring.Competitor :=
  filter (fun c => str_eqb (Scoring.comp_leadId c) leadId)
    (values (competitors s)).

Definition clearCompetitors (s : MemStorage) : MemStorage :=
  mkMemStorage (leads s) [] (apiKeys s) (currentId s).

(** [now] is the value of [new Date()]. *)
Definition createApiKey (insertApiKey : InsertApiKey) (now : Z)
  (s : MemStorage) : ApiKey * MemStorage :=
  let '(id, s) := generateId s in
  let apiKey :=
    mkApiKey id (ik_keyType insertApiKey) (ik_keyValue insertApiKey)
      (lit "true") now now in
  (apiKey,
   mkMemStorage (leads s) (competitors s) (map_set (apiKeys s) id apiKey)
     (currentId s)).

Definition getApiKeyByType (type : jsstring) (s : MemStorage) : option ApiKey :=
  find (fun key => str_eqb (keyType key) type
                   && str_eqb (isActive key) (lit "true"))
    (values (apiKeys s)).

Definition getAllApiKeys (s : MemStorage) : list ApiKey :=
  filter (fun key => str_eqb (isActive key) (lit "true")) (values (apiKeys s)).

(** [{ ...existing, ...updates, updatedAt: new Date() }]. *)
Definition updateApiKey (id : jsstring) (updates : ApiKeyUpdates) (now : Z)
  (s : MemStorage) : option ApiKey * MemStorage :=
  match map_get (apiKeys s) id with
  | None => (None, s)
  | Some existing =>
      let pick (update : option jsstring) (old : jsstring) :=
        match update with Some v => v | None => old end in
      let updated :=
        mkApiKey (key_id existing)
          (pick (up_keyType updates) (keyType existing))
          (pick (up_keyValue updates) (keyValue existing))
          (pick (up_isActive updates) (isActive existing))
          (createdAt existing) now in
      (Some updated,
       mkMemStorage (leads s) (competitors s)
         (map_set (apiKeys s) id updated) (currentId s))
  end.

Definition deleteApiKey (id : jsstring) (s : MemStorage) : bool * MemStorage :=
  let '(apiKeys', deleted) := map_delete (apiKeys s) id in
  (deleted, mkMemStorage (leads s) (competitors s) apiKeys' (currentId s)).

End Storage.

(** ** The Places provider *)

Module Places.
Import Js Variations TypeMatch BusinessType.

(** One place of a provider response, with the fields the service reads;
    [name] is always sent, every other field may be missing. *)
Record Candidate := mkCandidate {
  cand_place_id : option jsstring;
  cand_name : jsstring;
  cand_formatted_address : option jsstring;
  cand_rating : option Q;
  cand_user_ratings_total : option Q;
  cand_geometry : option (Q * Q);
  cand_types : option (list jsstring)
}.

Record PlaceDetails := mkPlaceDetails {
  place_id : option jsstring;
  name : jsstring;
  formatted_address : option jsstring;
  rating : option Q;
  user_ratings_total : option Q;
  geometry : option (Q * Q);
  types : option (list jsstring);
  hasIncompleteData : option bool
}.

(** The bodies of the Find Place, Text Search, Place Details and Nearby
    Search responses. *)
Record FindPlaceData := mkFindPlaceData {
  fp_status : jsstring;
  fp_candidates : option (list Candidate)
}.

Record TextSearchData := mkTextSearchData {
  ts_status : jsstring;
  ts_results : option (list Candidate)
}.

Record DetailsData := mkDetailsData {
  pd_status : jsstring;
  pd_result : option Candidate
}.

Record NearbyData := mkNearbyData {
  nb_status : jsstring;
  nb_results : option (list Candidate)
}.

(** [!x] on an optional number. *)
Definition falsy_number (x : option Q) : bool :=
  match x with
  | Some q => Qeq_bool q 0
  | None => true
  end.

(** [x === 0] on an optional number. *)
Definition is_zero (x : option Q) : bool :=
  match x with
  | Some q => Qeq_bool q 0
  | None => false
  end.

(** [getApiKey]: the environment variable first, then the stored key of
    type [google_places]; [apiKeyRecord] is the outcome of
    [storage.getApiKeyByType('google_places')], [Throw] when the store
    fails. *)
Definition getApiKey (envKey : option jsstring)
  (apiKeyRecord : result (option Storage.ApiKey)) : result jsstring :=
  let fromStorage :=
    match apiKeyRecord with
    | Ok (Some record) =>
        match Storage.keyValue record with
        | c :: cs => Some (c :: cs)
        | [] => None
        end
    | _ => None
    end in
  let afterEnvironment :=
    match fromStorage with
    | Some key => Ok key
    | None =>
        Throw (Error (lit "Google Places API key not found. Please add GOOGLE_API_KEY in Replit Secrets."))
    end in
  match envKey with
  | Some (c :: cs) =>
      match trim (c :: cs) with
      | [] => afterEnvironment
      | trimmed => Ok trimmed
      end
  | _ => afterEnvironment
  end.

(** [getBusinessTypeFromPlaceDetails]. *)
Definition getBusinessTypeFromPlaceDetails (place : PlaceDetails) : jsstring :=
  getBusinessType (types place).

(** A place as the service returns it from the Place Details response. *)
Definition fromDetails (c : Candidate) : PlaceDetails :=
  mkPlaceDetails (cand_place_id c) (cand_name c) (cand_formatted_address c)
    (cand_rating c) (cand_user_ratings_total c) (cand_geometry c)
    (cand_types c) None.

Section Provider.

(** The outcome of [getApiKey], and of each request with the body it
    parses to: [Throw] when [fetch] or [json()] rejects.  A request is
    identified by what the service puts into its URL, the variant, the
    place id or the type; during one call of the service the provider
    answers the same request in the same way. *)
Variable apiKey : result jsstring.
Variable fetchFindPlace : jsstring -> result FindPlaceData.
Variable fetchTextSearch : jsstring -> result TextSearchData.
Variable fetchDetails : jsstring -> result DetailsData.
Variable fetchNearby : jsstring -> result NearbyData.

Definition getPlaceDetails (placeId : jsstring) : option PlaceDetails :=
  try_catch
    (_ <- apiKey ;;
     data <- fetchDetails placeId ;;
     if str_eqb (pd_status data) (lit "OK")
     then Ok (option_map fromDetails (pd_result data))
     else Ok None)
    (fun _ => None).

(** The validation of a candidate name: the name match, then the category
    match when the variant names pest control. *)
Definition validated (searchText variation candidateName : jsstring) : bool :=
  let isMatch := isBusinessNameMatch searchText candidateName in
  if negb isMatch
     && (includes variation (lit "pest control")
         || includes variation (lit "exterminator"))
  then isBusinessTypeMatch searchText candidateName (lit "pest control")
  else isMatch.

Definition incomplete (c : Candidate) : bool :=
  falsy_number (cand_rating c) || is_zero (cand_rating c)
  || falsy_number (cand_user_ratings_total c)
  || is_zero (cand_user_ratings_total c).

(** The object literal both branches return. *)
Definition fromCandidate (c : Candidate) : PlaceDetails :=
  mkPlaceDetails (cand_place_id c) (cand_name c) (cand_formatted_address c)
    (cand_rating c) (cand_user_ratings_total c) (cand_geometry c)
    (cand_types c) (Some (incomplete c)).

(** What one turn of the loop over the variants does. *)
Inductive turn :=
| Return (place : option PlaceDetails)
| Continue.

Definition tryVariation (searchText variation : jsstring) : result turn :=
  _ <- apiKey ;;
  findPlaceData <- fetchFindPlace variation ;;
  match (if str_eqb (fp_status findPlaceData) (lit "OK")
         then fp_candidates findPlaceData else None) with
  | Some (candidate :: _) =>
      if negb (validated searchText variation (cand_name candidate))
      then Ok Continue
      else
        let fullDetails :=
          match cand_place_id candidate with
          | Some (c :: cs) =>
              if falsy_number (cand_rating candidate)
                 || falsy_number (cand_user_ratings_total candidate)
              then getPlaceDetails (c :: cs)
              else None
          | _ => None
          end in
        match fullDetails with
        | Some details => Ok (Return (Some details))
        | None => Ok (Return (Some (fromCandidate candidate)))
        end
  | _ =>
      textSearchData <- fetchTextSearch variation ;;
      match (if str_eqb (ts_status textSearchData) (lit "OK")
             then ts_results textSearchData else None) with
      | Some (result :: _) =>
          if negb (validated searchText variation (cand_name result))
          then Ok Continue
          else Ok (Return (Some (fromCandidate result)))
      | _ => Ok Continue
      end
  end.

(** The loop, and the [return null] after it. *)
Fixpoint tryVariations (searchText : jsstring) (variations : list jsstring)
  : result (option PlaceDetails) :=
  match variations with
  | [] => Ok None
  | variation :: rest =>
      t <- tryVariation searchText variation ;;
      match t with
      | Return place => Ok place
      | Continue => tryVariations searchText rest
      end
  end.

Definition searchByText (searchText : jsstring) : option PlaceDetails :=
  try_catch
    (tryVariations searchText (generateSearchVariations searchText))
    (fun _ => None).




End Provider.

End Places.

(** ** The agency name of the e-mail templates *)

Module Agency.

Definition testNames : list jsstring :=
  map lit ["coupa cafe"; "colonnade"; "test"; "demo"; "example"; "sample";
           "placeholder"; "lorem ipsum"].

Definition getSanitizedAgencyName (agencyName : option jsstring) : jsstring :=
  match agencyName with
  | Some (c :: cs) =>
      let lowerName := toLowerCase (c :: cs) in
      let isTestName :=
        existsb (fun testName => includes lowerName testName) testNames in
      if isTestName then lit "Review Rocket" else c :: cs
  | _ => lit "Review Rocket"
  end.

End Agency.

(** ** A sample provider *)

Module SampleProvider.
Import Js Places.

Definition bugzapper : Candidate :=
  mkCandidate (Some (lit "place-1")) (lit "Bugzapper Pest Control")
    (Some (lit "1 Main St, Springfield, IL 62701, USA"))
    (Some 4.6%Q) (Some 37%Q) None None.

Definition bugzapper_place : PlaceDetails := fromCandidate bugzapper.

Definition key : result jsstring := Ok (lit "key").

(** A provider that knows one business, and one that cannot be reached. *)
Definition findPlace (variation : jsstring) : result FindPlaceData :=
  Ok (mkFindPlaceData (lit "OK") (Some [bugzapper])).

Definition textSearch (variation : jsstring) : result TextSearchData :=
  Ok (mkTextSearchData (lit "ZERO_RESULTS") None).

Definition details (placeId : jsstring) : result DetailsData :=
  Ok (mkDetailsData (lit "NOT_FOUND") None).

Definition unreachable (variation : jsstring) : result FindPlaceData :=
  Throw (Error (lit "fetch failed")).

End SampleProvider.

(** ** A sample market *)

Module SampleMarket.
Import TenPack.

Definition listed (n : string) (r total : Q) : Place :=
  mkPlace (lit n) (Some r) (Some total) (lit "p") (Some (lit "a")) None.

(** A response of three places, the second without reviews. *)
Definition response : SearchResponse :=
  mkResponse (lit "OK")
    (Some [ listed "Ace Plumbing" 4.8 120;
            mkPlace (lit "New Plumbing") None None (lit "p") None None;
            listed "Best Plumbing" 4.8 310 ]).

Definition analysis : TenPackAnalysis :=
  match analyzeTenPack (lit "plumbers") (lit "Springfield") (lit "IL") response
  with
  | Js.Ok a => a
  | Js.Throw _ =>
      mkAnalysis [] NaN NaN NaN NaN NaN NaN NaN
        (mkBusiness [] 0 0 [] []) NaN NaN
  end.

End SampleMarket.

(** ** Notions the properties are stated with *)

Module Notions.

Definition isLocationTerm (word : jsstring) : bool :=
  array_includes locationTerms word.

(** The length of the words of a list, counting one separator after each. *)
Definition total_length (ws : list jsstring) : nat :=
  fold_right (fun w n => length w + 1 + n) 0 ws.

(** Words separated by single spaces: every character is a word character
    or a space, and no space follows a space; [after_space] tells that a
    space may not come first. *)
Fixpoint spaced (after_space : bool) (s : jsstring) : bool :=
  match s with
  | [] => true
  | c :: rest =>
      if Ascii.eqb c " "%char then negb after_space && spaced true rest
      else is_word c && spaced false rest
  end.

(** A call that changes a [MemStorage], and the store after a history of
    calls on a new one. *)
Inductive call :=
| CreateLead (insertLead : Storage.InsertLead)
| ClearLeads
| CreateCompetitor (insertCompetitor : Storage.InsertCompetitor)
| ClearCompetitors
| CreateApiKey (insertApiKey : Storage.InsertApiKey) (now : Z)
| UpdateApiKey (id : jsstring) (updates : Storage.ApiKeyUpdates) (now : Z)
| DeleteApiKey (id : jsstring).

Definition perform (s : Storage.MemStorage) (c : call) : Storage.MemStorage :=
  match c with
  | CreateLead insertLead => snd (Storage.createLead insertLead s)
  | ClearLeads => Storage.clearLeads s
  | CreateCompetitor insertCompetitor =>
      snd (Storage.createCompetitor insertCompetitor s)
  | ClearCompetitors => Storage.clearCompetitors s
  | CreateApiKey insertApiKey now =>
      snd (Storage.createApiKey insertApiKey now s)
  | UpdateApiKey id updates now => snd (Storage.updateApiKey id updates now s)
  | DeleteApiKey id => snd (Storage.deleteApiKey id s)
  end.

Definition after (calls : list call) : Storage.MemStorage :=
  fold_left perform calls Storage.empty.

(** The keys of a map are distinct and were all handed out by the
    counter. *)
Definition keys_below {V : Type} (m : Storage.jsmap V) (n : nat) : Prop :=
  NoDup (map fst m) /\
  forall key, In key (map fst m) -> exists k, k < n /\ key = Storage.toString k.



(** A business that does not rank above another: a lower rating, or the
    same rating with no more reviews. *)
Definition outranked_by (b top : TenPack.TenPackBusiness) : Prop :=
  (TenPack.rating b < TenPack.rating top)%Q \/
  ((TenPack.rating b == TenPack.rating top)%Q /\
   (TenPack.reviewCount b <= TenPack.reviewCount top)%Q).

Definition well_formed (s : Storage.MemStorage) : Prop :=
  keys_below (Storage.leads s) (Storage.currentId s) /\
  keys_below (Storage.competitors s) (Storage.currentId s) /\
  keys_below (Storage.apiKeys s) (Storage.currentId s).

End Notions.

(** * Properties *)

(** ** Strings *)

Lemma str_eqb_eq (a b : jsstring) : str_eqb a b = true <-> a = b.
Proof.
  revert b; induction a as [|x a IH]; intros [|y b]; simpl;
    try (split; [discriminate | discriminate]); try tauto.
  rewrite andb_true_iff, Ascii.eqb_eq, IH.
  split; [intros [-> ->]; reflexivity | intros H; inversion H; auto].
Qed.

Lemma str_eqb_refl (a : jsstring) : str_eqb a a = true.
Proof. apply str_eqb_eq; reflexivity. Qed.

(** ** The matrix computes the Levenshtein distance *)

Section Levenshtein.

Import Reference.

Variables a b : jsstring.

Lemma lev_S_S (i j : nat) :
  lev a b (S i) (S j) =
  min3 (lev a b i (S j) + 1) (lev a b (S i) j + 1)
       (lev a b i j + (if Ascii.eqb (nth i a zero) (nth j b zero) then 0 else 1)).
Proof. reflexivity. Qed.

Lemma lev_i_0 (i : nat) : lev a b i 0 = i.
Proof. destruct i; reflexivity. Qed.

Lemma lev_right_upper (i j : nat) : lev a b i (S j) <= lev a b i j + 1.
Proof.
  destruct i as [|i]; [simpl; lia|].
  rewrite lev_S_S; unfold min3; lia.
Qed.

Lemma lev_down_upper (i j : nat) : lev a b (S i) j <= lev a b i j + 1.
Proof.
  destruct j as [|j]; [rewrite !lev_i_0; lia|].
  rewrite lev_S_S; unfold min3; lia.
Qed.

Lemma lev_right_lower (i : nat) : forall j, lev a b i j <= lev a b i (S j) + 1.
Proof.
  induction i as [|i IH]; intros j; [simpl; lia|].
  rewrite (lev_S_S i j); unfold min3.
  pose proof (lev_down_upper i j). pose proof (IH j).
  destruct (Ascii.eqb (nth i a zero) (nth j b zero)); lia.
Qed.

Lemma lev_down_lower (i j : nat) : lev a b i j <= lev a b (S i) j + 1.
Proof.
  induction j as [|j IH]; [rewrite !lev_i_0; lia|].
  rewrite (lev_S_S i j); unfold min3.
  pose proof (lev_right_upper i j).
  destruct (Ascii.eqb (nth i a zero) (nth j b zero)); lia.
Qed.

(** The cell the code writes is the cell of the recurrence: on equal
    characters the diagonal alone is the minimum. *)
Lemma cell_is_lev (i j : nat) :
  (if Ascii.eqb (nth i a zero) (nth j b zero) then lev a b i j
   else min3 (lev a b i j + 1) (lev a b (S i) j + 1) (lev a b i (S j) + 1))
  = lev a b (S i) (S j).
Proof.
  rewrite lev_S_S; unfold min3.
  pose proof (lev_right_lower i j). pose proof (lev_down_lower i j).
  destruct (Ascii.eqb (nth i a zero) (nth j b zero)); lia.
Qed.

End Levenshtein.

(** *** Arrays updated by index *)

Lemma nth_update {A : Type} (l : list A) (i k : nat) (x d : A) :
  i < length l ->
  nth k (firstn i l ++ x :: skipn (S i) l) d = if k =? i then x else nth k l d.
Proof.
  intros Hi.
  assert (Hlen : length (firstn i l) = i) by (rewrite length_firstn; lia).
  destruct (Nat.eqb_spec k i) as [->|Hne].
  - rewrite app_nth2 by lia. rewrite Hlen, Nat.sub_diag. reflexivity.
  - destruct (Nat.lt_ge_cases k i) as [Hlt|Hge].
    + rewrite app_nth1 by lia. rewrite nth_firstn.
      destruct (Nat.ltb_spec k i); [reflexivity|lia].
    + rewrite app_nth2 by lia. rewrite Hlen.
      destruct (k - i) as [|n] eqn:E; [lia|]. cbn [nth].
      rewrite nth_skipn. f_equal. lia.
Qed.

Lemma length_update {A : Type} (l : list A) (i : nat) (x : A) :
  i < length l -> length (firstn i l ++ x :: skipn (S i) l) = length l.
Proof.
  intros Hi. rewrite length_app, length_firstn. cbn [length].
  rewrite length_skipn. lia.
Qed.

Lemma nth_map_seq {A : Type} (f : nat -> A) (n r : nat) (d : A) :
  r < n -> nth r (map f (seq 0 n)) d = f r.
Proof.
  intros Hr.
  rewrite (nth_indep _ d (f 0)) by (rewrite length_map, length_seq; exact Hr).
  rewrite map_nth, seq_nth by exact Hr. reflexivity.
Qed.

Lemma row_set_push (row : list nat) (v : nat) :
  row_set row (length row) v = row ++ [v].
Proof.
  unfold row_set. rewrite firstn_all, skipn_all2 by lia. reflexivity.
Qed.

(** *** The loops fill the matrix with the distances of the prefixes *)

Section Fill.

Import Reference.

Variables str1 str2 : jsstring.

Lemma filled_cell_above (m : matrix) (i j k : nat) :
  filled str1 str2 m (S i) j -> i <= length str2 -> k <= length str1 ->
  cell m i k = lev str2 str1 i k.
Proof.
  intros [_ H] Hi Hk. unfold cell. rewrite (H i) by lia.
  unfold row_at. destruct (Nat.ltb_spec i (S i)); [|lia].
  apply nth_map_seq. lia.
Qed.

Lemma filled_cell_current (m : matrix) (i j k : nat) :
  filled str1 str2 m i j -> i <= length str2 -> k <= j ->
  cell m i k = lev str2 str1 i k.
Proof.
  intros [_ H] Hi Hk. unfold cell. rewrite (H i) by lia.
  unfold row_at. destruct (Nat.ltb_spec i i); [lia|].
  rewrite Nat.eqb_refl. apply nth_map_seq. lia.
Qed.

Lemma filled_set (m : matrix) (i j : nat) :
  filled str1 str2 m i j -> i <= length str2 ->
  filled str1 str2 (matrix_set m i (S j) (lev str2 str1 i (S j))) i (S j).
Proof.
  intros [Hlen H] Hi. split.
  - unfold matrix_set. rewrite length_update; lia.
  - intros r Hr. unfold matrix_set. rewrite nth_update by lia.
    destruct (Nat.eqb_spec r i) as [->|Hne].
    + rewrite (H i) by lia. unfold row_at.
      destruct (Nat.ltb_spec i i); [lia|]. rewrite Nat.eqb_refl.
      replace (S j) with (length (map (lev str2 str1 i) (seq 0 (S j)))) at 2
        by (rewrite length_map, length_seq; reflexivity).
      rewrite row_set_push. rewrite (seq_S (S j)), map_app. reflexivity.
    + rewrite (H r) by lia. unfold row_at.
      destruct (r <? i); [reflexivity|].
      destruct (Nat.eqb_spec r i); [contradiction|reflexivity].
Qed.

Lemma fill_cell_filled (m : matrix) (i j : nat) :
  filled str1 str2 m (S i) j -> S i <= length str2 -> j < length str1 ->
  filled str1 str2 (fill_cell str1 str2 (S i) m (S j)) (S i) (S j).
Proof.
  intros Hf Hi Hj. unfold fill_cell.
  cbn [Nat.sub]. rewrite !Nat.sub_0_r.
  rewrite (filled_cell_above m i j j Hf) by lia.
  rewrite (filled_cell_above m i j (S j) Hf) by lia.
  rewrite (filled_cell_current m (S i) j j Hf) by lia.
  pose proof (cell_is_lev str2 str1 i j) as Hc.
  unfold charAt.
  destruct (Ascii.eqb (nth i str2 zero) (nth j str1 zero));
    rewrite Hc; apply filled_set; assumption.
Qed.

Lemma fill_cells_filled (i k : nat) :
  forall m, filled str1 str2 m (S i) 0 -> S i <= length str2 ->
            k <= length str1 ->
  filled str1 str2 (fold_left (fill_cell str1 str2 (S i)) (seq 1 k) m) (S i) k.
Proof.
  induction k as [|k IH]; intros m Hf Hi Hk; [exact Hf|].
  rewrite seq_S, fold_left_app. cbn [Nat.add fold_left].
  apply fill_cell_filled; [apply IH; [assumption|assumption|lia]|assumption|lia].
Qed.

Lemma filled_next_row (m : matrix) (i : nat) :
  filled str1 str2 m i (length str1) -> filled str1 str2 m (S i) 0.
Proof.
  intros [Hlen H]. split; [exact Hlen|].
  intros r Hr. rewrite (H r Hr). unfold row_at.
  destruct (Nat.ltb_spec r i), (Nat.ltb_spec r (S i)); try lia; try reflexivity.
  - destruct (Nat.eqb_spec r i); [subst; reflexivity|lia].
  - destruct (Nat.eqb_spec r i); [lia|].
    destruct (Nat.eqb_spec r (S i)); [|reflexivity].
    subst r. cbn [seq map]. rewrite lev_i_0. reflexivity.
Qed.

Lemma fill_rows_filled (k : nat) :
  forall m, filled str1 str2 m 1 0 -> k <= length str2 ->
  filled str1 str2 (fold_left (fill_row str1 str2) (seq 1 k) m) (S k) 0.
Proof.
  induction k as [|k IH]; intros m Hf Hk; [exact Hf|].
  rewrite seq_S, fold_left_app. cbn [Nat.add fold_left].
  apply filled_next_row. unfold fill_row.
  apply fill_cells_filled; [apply IH; [assumption|lia]|lia|lia].
Qed.

Lemma initialised_rows :
  initialised (length str2) (map (fun i => [i]) (seq 0 (S (length str2)))) 0.
Proof.
  split; [rewrite length_map, length_seq; reflexivity|].
  intros r Hr. rewrite nth_map_seq by lia.
  destruct r; reflexivity.
Qed.

Lemma initialised_first (m : matrix) :
  initialised (length str2) m 0 ->
  initialised (length str2) (matrix_set m 0 0 0) 0.
Proof.
  intros [Hlen H]. split.
  - unfold matrix_set. rewrite length_update; lia.
  - intros r Hr. unfold matrix_set. rewrite nth_update by lia.
    destruct (Nat.eqb_spec r 0) as [->|Hne].
    + rewrite (H 0) by lia. reflexivity.
    + rewrite (H r Hr).
      destruct (Nat.eqb_spec r 0); [contradiction|reflexivity].
Qed.

Lemma initialised_step (m : matrix) (k : nat) :
  initialised (length str2) m k ->
  initialised (length str2) (matrix_set m 0 (S k) (S k)) (S k).
Proof.
  intros [Hlen H]. split.
  - unfold matrix_set. rewrite length_update; lia.
  - intros r Hr. unfold matrix_set. rewrite nth_update by lia.
    destruct (Nat.eqb_spec r 0) as [->|Hne].
    + rewrite (H 0) by lia. cbn [Nat.eqb].
      replace (S k) with (length (seq 0 (S k))) at 2 by apply length_seq.
      rewrite row_set_push. rewrite (seq_S (S k)). reflexivity.
    + rewrite (H r Hr).
      destruct (Nat.eqb_spec r 0); [contradiction|reflexivity].
Qed.

Lemma initialised_fold (k : nat) :
  forall m, initialised (length str2) m 0 ->
  initialised (length str2)
    (fold_left (fun m j => matrix_set m 0 j j) (seq 1 k) m) k.
Proof.
  induction k as [|k IH]; intros m Hm; [exact Hm|].
  rewrite seq_S, fold_left_app. cbn [Nat.add fold_left].
  apply initialised_step, IH, Hm.
Qed.

Lemma init_filled :
  filled str1 str2 (init_matrix (length str1) (length str2)) 1 0.
Proof.
  unfold init_matrix.
  change (seq 0 (S (length str1))) with (0 :: seq 1 (length str1)).
  cbn [fold_left].
  pose proof (initialised_fold (length str1) _
                (initialised_first _ initialised_rows)) as [Hlen H].
  split; [exact Hlen|].
  intros r Hr. rewrite (H r Hr). unfold row_at.
  destruct r as [|[|r]]; cbn [Nat.ltb Nat.leb Nat.eqb].
  - symmetry. apply map_id.
  - reflexivity.
  - reflexivity.
Qed.

(** [matrix[len2][len1]] is the Levenshtein distance of the two strings. *)
Lemma matrix_distance_levenshtein :
  matrix_distance str1 str2 = levenshtein str2 str1.
Proof.
  unfold matrix_distance, fill_matrix, levenshtein.
  pose proof (fill_rows_filled (length str2) _ init_filled (Nat.le_refl _))
    as Hf.
  apply (filled_cell_above _ (length str2) 0 (length str1) Hf); lia.
Qed.

End Fill.

Lemma lev_sym (a b : jsstring) (i : nat) :
  forall j, Reference.lev a b i j = Reference.lev b a j i.
Proof.
  induction i as [|i IHi]; intros j.
  - rewrite lev_i_0; reflexivity.
  - induction j as [|j IHj]; [rewrite lev_i_0; reflexivity|].
    rewrite !lev_S_S, IHj, !IHi, (Ascii.eqb_sym (nth i a zero)).
    unfold min3; lia.
Qed.

Lemma lev_diag (s : jsstring) (i : nat) : Reference.lev s s i i = 0.
Proof.
  induction i as [|i IH]; [reflexivity|].
  rewrite lev_S_S, IH, Ascii.eqb_refl. unfold min3; lia.
Qed.

Lemma matrix_distance_same (s : jsstring) : matrix_distance s s = 0.
Proof. rewrite matrix_distance_levenshtein. apply lev_diag. Qed.

Lemma one_minus_whole (n : nat) :
  1 - inject_Z (Z.of_nat (S n)) / inject_Z (Z.of_nat (S n)) == 0.
Proof.
  assert (H : ~ inject_Z (Z.of_nat (S n)) == 0) by (unfold Qeq; simpl; lia).
  field. exact H.
Qed.

(** The similarity the code returns is one minus the Levenshtein distance
    over the longer length. *)
Lemma calculateStringSimilarity_reference (str1 str2 : jsstring) :
  calculateStringSimilarity str1 str2 == Reference.similarity str1 str2.
Proof.
  unfold calculateStringSimilarity, Reference.similarity.
  rewrite matrix_distance_levenshtein.
  unfold Reference.levenshtein. rewrite (lev_sym str2 str1).
  destruct str1 as [|c1 str1], str2 as [|c2 str2]; try reflexivity.
  - (* only the first string is empty: the distance is the other length *)
    cbn [length Nat.eqb Nat.max Reference.lev].
    symmetry; apply one_minus_whole.
  - cbn [length Nat.eqb Nat.max]. rewrite lev_i_0.
    symmetry; apply one_minus_whole.
Qed.

Lemma calculateStringSimilarity_same (s : jsstring) :
  calculateStringSimilarity s s == 1.
Proof.
  unfold calculateStringSimilarity. rewrite matrix_distance_same.
  destruct s as [|c s]; [reflexivity|].
  cbn [length Nat.eqb]. unfold Qdiv. simpl inject_Z at 1. ring.
Qed.

(** ** The validator, step by step *)

Lemma exactMatchFullName_iff (q f : jsstring) :
  exactMatchFullName q f = true <-> cleanFoundName f = cleanSearchName q.
Proof. apply str_eqb_eq. Qed.

Lemma exactMatchLocationFiltered_iff (q f : jsstring) :
  exactMatchLocationFiltered q f = true <->
  foundWithoutLocation f = searchWithoutLocation q /\
  trim (searchWithoutLocation q) <> [].
Proof.
  unfold exactMatchLocationFiltered.
  rewrite andb_true_iff, str_eqb_eq, negb_true_iff.
  split; intros [H1 H2]; split; auto.
  - intros E. rewrite E in H2. discriminate.
  - destruct (str_eqb _ []) eqn:E; [|reflexivity].
    apply str_eqb_eq in E. contradiction.
Qed.

Lemma exact_location_same_words (q f : jsstring) :
  exactMatchLocationFiltered q f = true -> foundWords f = searchWords q.
Proof.
  rewrite exactMatchLocationFiltered_iff. intros [H Hne].
  unfold foundWords, searchWords, keywords. rewrite H.
  destruct (trim (searchWithoutLocation q)); [contradiction|reflexivity].
Qed.

Lemma exact_full_same_words (q f : jsstring) :
  exactMatchFullName q f = true -> foundWords f = searchWords q.
Proof.
  rewrite exactMatchFullName_iff. intros H.
  unfold foundWords, searchWords, foundWithoutLocation, searchWithoutLocation.
  rewrite H. reflexivity.
Qed.

Lemma typesAgree_refl (w : jsstring) : typesAgree w w = true.
Proof. unfold typesAgree. rewrite str_eqb_refl. reflexivity. Qed.

Lemma hasTypeMatch_same (words : list jsstring) :
  hasType words = true -> hasTypeMatch words words = true.
Proof.
  unfold hasType, hasTypeMatch. rewrite !existsb_exists.
  intros [w [Hin Ht]]. exists w. split.
  - apply filter_In; auto.
  - apply existsb_exists. exists w. split.
    + apply filter_In; auto.
    + apply typesAgree_refl.
Qed.

Lemma differentBusinessTypes_same (words : list jsstring) :
  differentBusinessTypes words words = false.
Proof.
  unfold differentBusinessTypes.
  destruct (hasType words) eqn:H; [|reflexivity].
  rewrite (hasTypeMatch_same words H). reflexivity.
Qed.

Lemma totalKeywords_multi (q : jsstring) :
  1 < length (searchWords q) ->
  totalKeywords q = length (searchWords q) /\ (totalKeywords q =? 1) = false.
Proof.
  unfold totalKeywords. intros H. split; [lia|].
  apply Nat.eqb_neq. lia.
Qed.

Lemma totalKeywords_single (q : jsstring) :
  length (searchWords q) <= 1 -> totalKeywords q = 1.
Proof. unfold totalKeywords. lia. Qed.

Lemma isBusinessNameMatch_steps (q f : jsstring) :
  isBusinessNameMatch q f =
  exactMatchLocationFiltered q f || exactMatchFullName q f ||
  match keywordVerdict q f with
  | Some verdict => verdict
  | None => Qle_bool 0.95 (fallbackSimilarity q f)
  end.
Proof.
  unfold isBusinessNameMatch.
  destruct (exactMatchLocationFiltered q f), (exactMatchFullName q f);
    reflexivity.
Qed.

(** The inner loop reports an exact hit exactly when the search word occurs
    among the found words and no earlier found word stopped the loop. *)
Lemma find_hit_exact (w : jsstring) (fWords : list jsstring) :
  find_hit w fWords = ExactHit <->
  exists before after,
    fWords = before ++ w :: after /\
    ~ In w before /\
    forallb (fun x => negb (partial_match w x)) before = true.
Proof.
  induction fWords as [|x rest IH]; simpl.
  - split; [discriminate|]. intros [[|? ?] [? [H _]]]; discriminate.
  - destruct (str_eqb w x) eqn:E.
    + apply str_eqb_eq in E; subst x. split; [|reflexivity]. intros _.
      exists [], rest. repeat split; auto.
    + assert (Hne : w <> x)
        by (intros ->; rewrite str_eqb_refl in E; discriminate).
      destruct (partial_match w x) eqn:Ep.
      * split; [discriminate|].
        intros [[|y before] [after [H [Hnin Hall]]]]; simpl in *.
        -- inversion H; subst; contradiction.
        -- inversion H; subst y. rewrite Ep in Hall. discriminate.
      * rewrite IH. split.
        -- intros [before [after [H [Hnin Hall]]]].
           exists (x :: before), after. subst rest. repeat split.
           ++ simpl. intros [?|?]; [congruence|contradiction].
           ++ simpl. rewrite Ep. exact Hall.
        -- intros [[|y before] [after [H [Hnin Hall]]]]; simpl in *.
           ++ inversion H; subst; contradiction.
           ++ inversion H; subst y rest. exists before, after.
              rewrite Ep in Hall. repeat split; tauto.
Qed.

Lemma find_hit_exact_In (w : jsstring) (fWords : list jsstring) :
  find_hit w fWords = ExactHit -> In w fWords.
Proof.
  rewrite find_hit_exact. intros [before [after [-> _]]].
  apply in_or_app. right. left. reflexivity.
Qed.

Lemma exactHits_single (q f w : jsstring) :
  searchWords q = [w] ->
  (exactHits q f = 1 <-> find_hit w (foundWords f) = ExactHit).
Proof.
  intros Hw. unfold exactHits, count_matches. rewrite Hw.
  cbn [fold_left]. unfold count_word.
  destruct (find_hit w (foundWords f)); cbn [exactMatches keywordMatches Nat.add];
    split; intros H; try reflexivity; discriminate.
Qed.

(** When the keyword criteria decide nothing and control reaches the
    similarity test. *)
Lemma keywordVerdict_None_iff (q f : jsstring) :
  keywordVerdict q f = None <->
  (length (searchWords q) <= 1 /\ exactHits q f <> 1) \/
  (1 < length (searchWords q) /\
   differentBusinessTypes (searchWords q) (foundWords f) = false /\
   (Z.of_nat (exactHits q f) < requiredMatches q)%Z).
Proof.
  unfold keywordVerdict.
  destruct (Nat.le_gt_cases (length (searchWords q)) 1) as [Hle|Hgt].
  - rewrite (totalKeywords_single q Hle). cbn [Nat.eqb].
    destruct (exactHits q f =? 1) eqn:E.
    + apply Nat.eqb_eq in E. split; [discriminate|].
      intros [[_ H]|[H _]]; [contradiction|lia].
    + apply Nat.eqb_neq in E. split; [auto|reflexivity].
  - destruct (totalKeywords_multi q Hgt) as [_ ->].
    destruct (differentBusinessTypes _ _).
    + split; [discriminate|]. intros [[H _]|[_ [H _]]]; [lia|discriminate].
    + destruct (Z.leb_spec (requiredMatches q) (Z.of_nat (exactHits q f))).
      * split; [discriminate|]. intros [[H' _]|[_ [_ H']]]; lia.
      * split; [|reflexivity]. intros _. right. auto.
Qed.

(** Equal fully-cleaned names are accepted by the second equality test. *)
Lemma full_name_equality_accepts (q f : jsstring) :
  cleanFoundName f = cleanSearchName q -> isBusinessNameMatch q f = true.
Proof.
  intros H. rewrite isBusinessNameMatch_steps.
  apply exactMatchFullName_iff in H. rewrite H.
  rewrite orb_true_r. reflexivity.
Qed.

(** Equal fully-cleaned names have similarity 1, above the threshold of the
    last resort. *)
Lemma full_name_equality_similarity (q f : jsstring) :
  cleanFoundName f = cleanSearchName q ->
  (0.95 <= fallbackSimilarity q f)%Q.
Proof.
  intros H. unfold fallbackSimilarity. rewrite H.
  rewrite calculateStringSimilarity_same. unfold Qle; simpl; lia.
Qed.

(** ** Equal cleaned names *)

(** C10. Whenever the fully-cleaned query and candidate names are equal the
    validator accepts, also when both are empty: ["LLC"] and ["Inc."] both
    clean to the empty string, the location-filtered test (which asks for a
    non-empty string) does not fire, and the full-name test accepts. *)
Theorem equal_clean_names_accepted :
  (forall q f : jsstring,
      cleanFoundName f = cleanSearchName q -> isBusinessNameMatch q f = true) /\
  cleanSearchName Samples.llc = [] /\
  cleanFoundName Samples.inc = [] /\
  exactMatchLocationFiltered Samples.llc Samples.inc = false /\
  exactMatchFullName Samples.llc Samples.inc = true /\
  isBusinessNameMatch Samples.llc Samples.inc = true.
Proof.
  split; [|repeat split; vm_compute; reflexivity].
  exact full_name_equality_accepts.
Qed.

(** A pair with equal cleaned names, both non-empty. *)
Lemma equal_clean_names_accepted_witness :
  cleanFoundName (lit "Joe's Diner, LLC") = cleanSearchName (lit "JOES") /\
  isBusinessNameMatch (lit "JOES") (lit "Joe's Diner, LLC") = true.
Proof.
  split.
  - vm_compute; reflexivity.
  - apply (proj1 equal_clean_names_accepted (lit "JOES") (lit "Joe's Diner, LLC")).
    vm_compute; reflexivity.
Defined.

(** ** Establishment types *)

(** C5. A query of several tokens whose tokens and the candidate's tokens
    both carry a word of the establishment-type list, without any pair of
    agreeing types (equal, or grill with grille), is rejected; and
    ["Tony's Pizza"] against ["Tony's Bistro"] is rejected. *)
Theorem incompatible_types_rejected :
  (forall q f : jsstring,
      1 < length (searchWords q) ->
      hasType (searchWords q) = true ->
      hasType (foundWords f) = true ->
      hasTypeMatch (searchWords q) (foundWords f) = false ->
      isBusinessNameMatch q f = false) /\
  searchTypeWords =
    map lit ["restaurant"; "cafe"; "bistro"; "grill"; "grille"; "bar"; "pub";
             "diner"; "pizzeria"; "bakery"] /\
  typesAgree (lit "grill") (lit "grille") = true /\
  typesAgree (lit "grille") (lit "grill") = true /\
  isBusinessNameMatch Samples.tonys_pizza Samples.tonys_bistro = false.
Proof.
  split; [|repeat split; vm_compute; reflexivity].
  intros q f Hmulti Hs Hf Hno.
  assert (Hdiff : differentBusinessTypes (searchWords q) (foundWords f) = true)
    by (unfold differentBusinessTypes; rewrite Hs, Hf, Hno; reflexivity).
  rewrite isBusinessNameMatch_steps.
  destruct (exactMatchLocationFiltered q f) eqn:E1.
  { rewrite (exact_location_same_words q f E1) in Hdiff.
    rewrite differentBusinessTypes_same in Hdiff. discriminate. }
  destruct (exactMatchFullName q f) eqn:E2.
  { rewrite (exact_full_same_words q f E2) in Hdiff.
    rewrite differentBusinessTypes_same in Hdiff. discriminate. }
  unfold keywordVerdict.
  destruct (totalKeywords_multi q Hmulti) as [_ ->].
  rewrite Hdiff. reflexivity.
Qed.

(** A bakery against a grille of the same name. *)
Lemma incompatible_types_rejected_witness :
  isBusinessNameMatch Samples.golden_gate_bakery Samples.golden_gate_grille
  = false.
Proof.
  apply (proj1 incompatible_types_rejected).
  - vm_compute. lia.
  - vm_compute; reflexivity.
  - vm_compute; reflexivity.
  - vm_compute; reflexivity.
Defined.

(** The tokens of ["Tony's Pizza"] carry no establishment-type word and
    cleaning strips ["bistro"] from the candidate: that pair is rejected for
    want of exact hits and of similarity, not by the type test. *)
Lemma tonys_pizza_rejected_without_type_test :
  hasType (searchWords Samples.tonys_pizza) = false /\
  foundWords Samples.tonys_bistro = [lit "tonys"] /\
  keywordVerdict Samples.tonys_pizza Samples.tonys_bistro = None /\
  Qle_bool 0.95 (fallbackSimilarity Samples.tonys_pizza Samples.tonys_bistro)
  = false.
Proof. repeat split; vm_compute; reflexivity. Qed.

(** Cleaning strips [restaurant], [cafe], [bistro], [diner], [grill], [bar]
    and [pub] before the tokens are taken, so the type test sees such a word
    only when punctuation hid it from the cleaning: a bistro and a grille of
    the same name have compatible tokens and are accepted. *)
Lemma stripped_type_words_are_not_tokens :
  searchWords Samples.tonys_italian_bistro = [lit "tonys"; lit "italian"] /\
  hasType (searchWords Samples.tonys_italian_bistro) = false /\
  hasType (foundWords Samples.tonys_italian_grille) = true /\
  isBusinessNameMatch Samples.tonys_italian_bistro Samples.tonys_italian_grille
  = true.
Proof. repeat split; vm_compute; reflexivity. Qed.

(** ** Single-token queries *)

(** C3, as stated, fails: the one-token query ["Starbucks"] accepts the
    candidate ["Starbucks Coffee"], whose cleaned name differs from the
    cleaned query. *)
Lemma single_token_accepts_unequal_name :
  length (searchWords Samples.starbucks) = 1 /\
  isBusinessNameMatch Samples.starbucks Samples.starbucks_coffee = true /\
  cleanFoundName Samples.starbucks_coffee <> cleanSearchName Samples.starbucks.
Proof.
  split; [vm_compute; reflexivity|].
  split; [vm_compute; reflexivity|].
  vm_compute. discriminate.
Qed.

(** C3, amended. For a query with the single token [w], equal cleaned names
    are accepted, and the validator accepts exactly when the keyword loop
    records an exact hit for [w] (it occurs among the candidate's tokens and
    no earlier candidate token stopped the loop), or the similarity of the
    fully-cleaned names is at least 0.95, as it is for equal cleaned
    names. *)
Theorem single_token_acceptance (q f w : jsstring) :
  searchWords q = [w] ->
  (cleanFoundName f = cleanSearchName q -> isBusinessNameMatch q f = true) /\
  (isBusinessNameMatch q f = true <->
     exactHits q f = 1 \/ (0.95 <= fallbackSimilarity q f)%Q) /\
  (exactHits q f = 1 <->
     exists before after,
       foundWords f = before ++ w :: after /\
       ~ In w before /\
       forallb (fun x => negb (partial_match w x)) before = true).
Proof.
  intros Hw.
  assert (Hsingle : totalKeywords q = 1)
    by (apply totalKeywords_single; rewrite Hw; simpl; lia).
  split; [apply full_name_equality_accepts|].
  split.
  - pose proof (full_name_equality_similarity q f) as Hsim.
    assert (Hloc : exactMatchLocationFiltered q f = true -> exactHits q f = 1).
    { intros H. apply (exactHits_single q f w Hw).
      rewrite (exact_location_same_words q f H), Hw.
      cbn [find_hit]. rewrite str_eqb_refl. reflexivity. }
    rewrite isBusinessNameMatch_steps, !orb_true_iff.
    rewrite exactMatchFullName_iff.
    unfold keywordVerdict. rewrite Hsingle. cbn [Nat.eqb].
    destruct (exactHits q f =? 1) eqn:E.
    + apply Nat.eqb_eq in E. tauto.
    + apply Nat.eqb_neq in E. rewrite Qle_bool_iff. tauto.
  - rewrite (exactHits_single q f w Hw). apply find_hit_exact.
Qed.

(** The one-token query is accepted on its exact hit. *)
Lemma single_token_acceptance_witness :
  searchWords Samples.starbucks = [lit "starbucks"] /\
  isBusinessNameMatch Samples.starbucks Samples.starbucks_coffee = true.
Proof.
  assert (Hw : searchWords Samples.starbucks = [lit "starbucks"])
    by (vm_compute; reflexivity).
  split; [exact Hw|].
  apply (proj1 (proj2 (single_token_acceptance Samples.starbucks
                         Samples.starbucks_coffee (lit "starbucks") Hw))).
  left. vm_compute; reflexivity.
Defined.

(** ** Multi-token queries *)

(** C2, as stated, fails: a three-token query without location terms is
    accepted on two exact hits where [ceil(3 * 0.75) = 3] are asked for,
    and a two-token query with a location term is accepted on one exact hit
    where [ceil(2 * 0.6) = 2] are asked for; both pass by the similarity
    of the last resort. *)
Lemma multi_token_accepted_below_required :
  (1 < length (searchWords Samples.hospitals) /\
   hasLocationTerms Samples.hospitals = false /\
   isBusinessNameMatch Samples.hospitals Samples.hospital = true /\
   (Z.of_nat (exactHits Samples.hospitals Samples.hospital)
    < Qceiling (inject_Z (Z.of_nat (length (searchWords Samples.hospitals)))
                * 0.75))%Z) /\
  (1 < length (searchWords Samples.orthodontics_austin) /\
   hasLocationTerms Samples.orthodontics_austin = true /\
   isBusinessNameMatch Samples.orthodontics_austin Samples.orthodontic_austin
   = true /\
   (Z.of_nat (exactHits Samples.orthodontics_austin Samples.orthodontic_austin)
    < Qceiling (inject_Z (Z.of_nat
                            (length (searchWords Samples.orthodontics_austin)))
                * 0.6))%Z).
Proof.
  repeat split; try (vm_compute; reflexivity); vm_compute; lia.
Qed.

(** C2, amended. For a query of [n > 1] tokens the validator accepts
    exactly when the location-filtered names are equal and not empty, or,
    the establishment types not being incompatible, the exact hits reach
    [ceil(n * 0.75)] ([ceil(n * 0.6)] when location filtering shortened the
    cleaned query) or the similarity of the fully-cleaned names is at least
    0.95. *)
Theorem multi_token_acceptance (q f : jsstring) :
  1 < length (searchWords q) ->
  (isBusinessNameMatch q f = true <->
     (foundWithoutLocation f = searchWithoutLocation q /\
      trim (searchWithoutLocation q) <> []) \/
     (differentBusinessTypes (searchWords q) (foundWords f) = false /\
      ((Qceiling
          (inject_Z (Z.of_nat (length (searchWords q)))
           * (if (length (searchWithoutLocation q)
                  <? length (cleanSearchName q))%nat
              then 0.6%Q else 0.75%Q))
        <= Z.of_nat (exactHits q f))%Z \/
       (0.95 <= fallbackSimilarity q f)%Q))).
Proof.
  intros Hmulti.
  destruct (totalKeywords_multi q Hmulti) as [Htotal Hneq].
  assert (Hreq :
    Qceiling
      (inject_Z (Z.of_nat (length (searchWords q)))
       * (if (length (searchWithoutLocation q)
              <? length (cleanSearchName q))%nat
          then 0.6%Q else 0.75%Q)) = requiredMatches q).
  { unfold requiredMatches, requiredMatchRatio, hasLocationTerms.
    rewrite Htotal. reflexivity. }
  rewrite Hreq.
  assert (Hfull : exactMatchFullName q f = true ->
                  differentBusinessTypes (searchWords q) (foundWords f) = false
                  /\ (0.95 <= fallbackSimilarity q f)%Q).
  { intros H. split.
    - rewrite (exact_full_same_words q f H).
      apply differentBusinessTypes_same.
    - apply full_name_equality_similarity, exactMatchFullName_iff, H. }
  rewrite isBusinessNameMatch_steps, !orb_true_iff.
  rewrite exactMatchLocationFiltered_iff.
  unfold keywordVerdict. rewrite Hneq.
  destruct (differentBusinessTypes (searchWords q) (foundWords f)).
  - split.
    + intros [[H|H]|H]; [tauto| |discriminate].
      destruct (Hfull H) as [H' _]. discriminate.
    + intros [H|[H _]]; [tauto|discriminate].
  - destruct (Z.leb_spec (requiredMatches q) (Z.of_nat (exactHits q f))).
    + tauto.
    + rewrite Qle_bool_iff. split.
      * intros [[H'|H']|H']; [tauto| |tauto].
        right. split; [reflexivity|]. right. apply (Hfull H').
      * intros [H'|[_ [H'|H']]]; [tauto|lia|tauto].
Qed.

(** A three-token query accepted by similarity alone. *)
Lemma multi_token_acceptance_witness :
  1 < length (searchWords Samples.hospitals) /\
  isBusinessNameMatch Samples.hospitals Samples.hospital = true.
Proof.
  assert (Hmulti : 1 < length (searchWords Samples.hospitals))
    by (vm_compute; lia).
  split; [exact Hmulti|].
  apply (proj2 (multi_token_acceptance Samples.hospitals Samples.hospital Hmulti)).
  right. split; [vm_compute; reflexivity|].
  right. vm_compute. discriminate.
Defined.

(** ** The similarity of the last resort *)

(** C4, as stated, fails: for this pair both equality tests fail and the
    keyword criteria do not accept, the similarity of the fully-cleaned
    names is at least 0.95, and yet the candidate is rejected: the test for
    different business types returns before the similarity is consulted. *)
Lemma similar_names_rejected_on_type :
  exactMatchLocationFiltered Samples.long_bakery Samples.long_grille = false /\
  exactMatchFullName Samples.long_bakery Samples.long_grille = false /\
  keywordVerdict Samples.long_bakery Samples.long_grille = Some false /\
  (0.95 <= fallbackSimilarity Samples.long_bakery Samples.long_grille)%Q /\
  isBusinessNameMatch Samples.long_bakery Samples.long_grille = false.
Proof.
  repeat split; try (vm_compute; reflexivity).
  vm_compute. discriminate.
Qed.

(** C4, amended. When both equality tests fail and the keyword criteria
    fall through (they neither accept nor reject for different business
    types), the validator accepts exactly when the similarity of the
    fully-cleaned names is at least 0.95; the similarity is one minus the
    Levenshtein distance over the longer length, it is 1 for a string and
    itself, and for ["Ace Plumbing"] and ["Ace Electric"] it is below 0.95
    and the candidate is rejected. *)
Theorem fallback_similarity_threshold :
  (forall q f : jsstring,
      exactMatchLocationFiltered q f = false ->
      exactMatchFullName q f = false ->
      (length (searchWords q) <= 1 /\ exactHits q f <> 1) \/
      (1 < length (searchWords q) /\
       differentBusinessTypes (searchWords q) (foundWords f) = false /\
       (Z.of_nat (exactHits q f) < requiredMatches q)%Z) ->
      (isBusinessNameMatch q f = true <->
       (0.95 <= fallbackSimilarity q f)%Q)) /\
  (forall str1 str2 : jsstring,
      calculateStringSimilarity str1 str2 == Reference.similarity str1 str2) /\
  (forall s : jsstring, calculateStringSimilarity s s == 1) /\
  (calculateStringSimilarity Samples.ace_plumbing Samples.ace_electric < 0.95)%Q /\
  (fallbackSimilarity Samples.ace_plumbing Samples.ace_electric < 0.95)%Q /\
  isBusinessNameMatch Samples.ace_plumbing Samples.ace_electric = false.
Proof.
  split.
  { intros q f H1 H2 H3. apply keywordVerdict_None_iff in H3.
    rewrite isBusinessNameMatch_steps, H1, H2, H3. cbn [orb].
    apply Qle_bool_iff. }
  split; [exact calculateStringSimilarity_reference|].
  split; [exact calculateStringSimilarity_same|].
  repeat split; vm_compute; reflexivity.
Qed.

(** A pair that reaches the similarity test and passes it. *)
Lemma fallback_similarity_threshold_witness :
  exactMatchFullName Samples.hospitals Samples.hospital = false /\
  isBusinessNameMatch Samples.hospitals Samples.hospital = true.
Proof.
  split; [vm_compute; reflexivity|].
  apply (proj1 fallback_similarity_threshold Samples.hospitals Samples.hospital).
  - vm_compute; reflexivity.
  - vm_compute; reflexivity.
  - right. split; [vm_compute; lia|].
    split; [vm_compute; reflexivity|vm_compute; reflexivity].
  - vm_compute. discriminate.
Defined.

(** ** Lead scoring *)

Lemma ltb_iff (x y : Q) : Js.ltb x y = true <-> (x < y)%Q.
Proof.
  unfold Js.ltb. rewrite negb_true_iff.
  destruct (Qle_bool y x) eqn:E.
  - apply Qle_bool_iff in E. split; [discriminate|].
    intros H. exfalso. apply (Qlt_not_le _ _ H E).
  - split; [|reflexivity]. intros _. apply Qnot_le_lt.
    intros H. apply Qle_bool_iff in H. congruence.
Qed.

Lemma geb_iff (x y : Q) : Js.geb x y = true <-> (y <= x)%Q.
Proof. apply Qle_bool_iff. Qed.

Section ScoringProperties.

Import Js Scoring.

Variable numberToString : Q -> jsstring.

(** The score and the urgency depend on the two numbers alone. *)
Lemma scoreLead_decision (rating reviewCount : Q)
  (competitors : list Competitor) :
  (score (scoreLead numberToString rating reviewCount competitors),
   urgencyLevel (scoreLead numberToString rating reviewCount competitors))
  = if ltb rating 4.0 then (C, High)
    else if geb reviewCount 100 then (C, Low)
    else if geb rating 4.0 && ltb reviewCount 50 then (A, High)
    else (B, Medium).
Proof.
  unfold scoreLead.
  destruct (ltb rating 4.0); [reflexivity|].
  destruct (geb reviewCount 100); [reflexivity|].
  destruct (geb rating 4.0 && ltb reviewCount 50); reflexivity.
Qed.

Lemma scoreLead_cases (rating reviewCount : Q) (competitors : list Competitor)
  (s : Score) (u : Urgency) :
  (if ltb rating 4.0 then (C, High)
   else if geb reviewCount 100 then (C, Low)
   else if geb rating 4.0 && ltb reviewCount 50 then (A, High)
   else (B, Medium)) = (s, u) ->
  score (scoreLead numberToString rating reviewCount competitors) = s /\
  urgencyLevel (scoreLead numberToString rating reviewCount competitors) = u.
Proof.
  intros H. pose proof (scoreLead_decision rating reviewCount competitors) as Hd.
  rewrite H in Hd. inversion Hd. split; reflexivity.
Qed.

(** C1. [scoreLead] applies its rules in order, the first that matches
    deciding: rating below 4.0 gives C and High; otherwise at least 100
    reviews give C and Low; otherwise rating at least 4.0 with fewer than
    50 reviews gives A and High; otherwise B and Medium.  For every cohort
    (3.9, 10) gives C, (4.5, 30) gives A, (4.5, 150) gives C and (4.2, 70)
    gives B. *)
Theorem scoreLead_rules (rating reviewCount : Q)
  (competitors : list Competitor) :
  ((rating < 4.0)%Q ->
   score (scoreLead numberToString rating reviewCount competitors) = C /\
   urgencyLevel (scoreLead numberToString rating reviewCount competitors)
   = High) /\
  (~ (rating < 4.0)%Q -> (100 <= reviewCount)%Q ->
   score (scoreLead numberToString rating reviewCount competitors) = C /\
   urgencyLevel (scoreLead numberToString rating reviewCount competitors)
   = Low) /\
  (~ (rating < 4.0)%Q -> ~ (100 <= reviewCount)%Q ->
   (4.0 <= rating)%Q /\ (reviewCount < 50)%Q ->
   score (scoreLead numberToString rating reviewCount competitors) = A /\
   urgencyLevel (scoreLead numberToString rating reviewCount competitors)
   = High) /\
  (~ (rating < 4.0)%Q -> ~ (100 <= reviewCount)%Q ->
   ~ ((4.0 <= rating)%Q /\ (reviewCount < 50)%Q) ->
   score (scoreLead numberToString rating reviewCount competitors) = B /\
   urgencyLevel (scoreLead numberToString rating reviewCount competitors)
   = Medium) /\
  score (scoreLead numberToString 3.9 10 competitors) = C /\
  score (scoreLead numberToString 4.5 30 competitors) = A /\
  score (scoreLead numberToString 4.5 150 competitors) = C /\
  score (scoreLead numberToString 4.2 70 competitors) = B.
Proof.
  split; [|split; [|split; [|split]]].
  - intros H1. apply scoreLead_cases.
    apply ltb_iff in H1. rewrite H1. reflexivity.
  - intros N1 H2. apply scoreLead_cases.
    destruct (ltb rating 4.0) eqn:E1; [apply ltb_iff in E1; contradiction|].
    apply geb_iff in H2. rewrite H2. reflexivity.
  - intros N1 N2 [H3 H4]. apply scoreLead_cases.
    destruct (ltb rating 4.0) eqn:E1; [apply ltb_iff in E1; contradiction|].
    destruct (geb reviewCount 100) eqn:E2; [apply geb_iff in E2; contradiction|].
    apply geb_iff in H3. apply ltb_iff in H4. rewrite H3, H4. reflexivity.
  - intros N1 N2 N3. apply scoreLead_cases.
    destruct (ltb rating 4.0) eqn:E1; [apply ltb_iff in E1; contradiction|].
    destruct (geb reviewCount 100) eqn:E2;
      [apply geb_iff in E2; contradiction|].
    destruct (geb rating 4.0 && ltb reviewCount 50) eqn:E3; [|reflexivity].
    apply andb_true_iff in E3. destruct E3 as [E3 E4].
    apply geb_iff in E3. apply ltb_iff in E4. tauto.
  - split; [|split; [|split]].
    + exact (f_equal fst (scoreLead_decision 3.9 10 competitors)).
    + exact (f_equal fst (scoreLead_decision 4.5 30 competitors)).
    + exact (f_equal fst (scoreLead_decision 4.5 150 competitors)).
    + exact (f_equal fst (scoreLead_decision 4.2 70 competitors)).
Qed.

Variable JSON_parse : jsstring -> option json.

(** Whatever [generateAIInsights] resolves to, the object literal of
    [scoreLeadWithAI] spreads [basicInsights] and never overrides [score];
    when reading a property throws, [basicInsights] itself is returned. *)
Lemma scoreLeadWithAI_score (lead : Lead) (competitors : list Competitor)
  (outcome : completion) :
  score (scoreLeadWithAI numberToString JSON_parse lead competitors outcome)
  = score (scoreLead numberToString (lead_rating lead) (lead_reviewCount lead)
             competitors).
Proof.
  unfold scoreLeadWithAI.
  destruct (generateAIInsights JSON_parse lead competitors _ outcome);
    reflexivity.
Qed.

(** C9. The score returned by the AI-augmented path is the score of the
    plain rules on the same rating, review count and cohort, whatever the
    text-generation call does (it fails, or yields no content, content that
    does not parse, or any parsed value), and two runs on the same inputs
    give the same score even when the calls end differently. *)
Theorem ai_path_preserves_score (lead : Lead) (competitors : list Competitor)
  (outcome outcome' : completion) :
  score (scoreLeadWithAI numberToString JSON_parse lead competitors outcome)
  = score (scoreLead numberToString (lead_rating lead) (lead_reviewCount lead)
             competitors) /\
  score (scoreLeadWithAI numberToString JSON_parse lead competitors outcome)
  = score (scoreLeadWithAI numberToString JSON_parse lead competitors outcome') /\
  urgencyLevel
    (scoreLeadWithAI numberToString JSON_parse lead competitors outcome)
  = urgencyLevel
      (scoreLead numberToString (lead_rating lead) (lead_reviewCount lead)
         competitors).
Proof.
  split; [apply scoreLeadWithAI_score|].
  split; [rewrite !scoreLeadWithAI_score; reflexivity|].
  unfold scoreLeadWithAI.
  destruct (generateAIInsights JSON_parse lead competitors _ outcome);
    reflexivity.
Qed.

End ScoringProperties.

(** The four sample pairs, through the rules. *)
Lemma scoreLead_rules_witness :
  Scoring.score (Scoring.scoreLead (fun _ => lit "n") 4.5%Q 30%Q []) = Scoring.A /\
  Scoring.score (Scoring.scoreLead (fun _ => lit "n") 3.9%Q 10%Q []) = Scoring.C /\
  Scoring.score (Scoring.scoreLead (fun _ => lit "n") 4.5%Q 150%Q []) = Scoring.C /\
  Scoring.score (Scoring.scoreLead (fun _ => lit "n") 4.2%Q 70%Q []) = Scoring.B.
Proof.
  split; [|split; [|split]].
  - apply (proj1 (proj2 (proj2 (scoreLead_rules (fun _ => lit "n") 4.5%Q 30%Q [])))).
    + unfold Qlt; simpl; lia.
    + unfold Qle; simpl; lia.
    + split; [unfold Qle; simpl; lia | unfold Qlt; simpl; lia].
  - apply (proj1 (scoreLead_rules (fun _ => lit "n") 3.9%Q 10%Q [])).
    unfold Qlt; simpl; lia.
  - apply (proj1 (proj2 (scoreLead_rules (fun _ => lit "n") 4.5%Q 150%Q []))).
    + unfold Qlt; simpl; lia.
    + unfold Qle; simpl; lia.
  - apply (proj1 (proj2 (proj2 (proj2
             (scoreLead_rules (fun _ => lit "n") 4.2%Q 70%Q []))))).
    + unfold Qlt; simpl; lia.
    + unfold Qle; simpl; lia.
    + intros [_ H]. revert H. unfold Qlt; simpl; lia.
Defined.

(** ** Ten-pack statistics *)

Section TenPackProperties.

Import Js TenPack Reference.

Lemma Qmin_cases (x y : Q) : Qmin x y = x \/ Qmin x y = y.
Proof.
  unfold Qmin, GenericMinMax.gmin. destruct (x ?= y)%Q; auto.
Qed.

(** [Math.min(x, ...xs)] is a member of its arguments below all of them. *)
Lemma Math_min_spec (xs : list Q) :
  forall x,
    In (Math_min x xs) (x :: xs) /\
    (forall y, In y (x :: xs) -> (Math_min x xs <= y)%Q).
Proof.
  unfold Math_min.
  induction xs as [|z xs IH]; intros x; simpl.
  - split; [auto|]. intros y [<-|[]]. apply Qle_refl.
  - destruct (IH (Qmin x z)) as [Hin Hle]. split.
    + destruct Hin as [Hin|Hin]; [|auto].
      rewrite <- Hin. destruct (Qmin_cases x z) as [->| ->]; auto.
    + intros y [<-|[<-|Hy]].
      * eapply Qle_trans; [apply Hle; left; reflexivity|apply Q.le_min_l].
      * eapply Qle_trans; [apply Hle; left; reflexivity|apply Q.le_min_r].
      * apply Hle. right. exact Hy.
Qed.

Lemma lastBusiness_app (init : list TenPackBusiness) (tenth : TenPackBusiness) :
  lastBusiness (init ++ [tenth]) = Some tenth.
Proof. unfold lastBusiness. rewrite rev_app_distr. reflexivity. Qed.

Lemma nonempty_has_last (businesses : list TenPackBusiness) :
  businesses <> [] -> exists init tenth, businesses = init ++ [tenth].
Proof.
  intros H. destruct (exists_last H) as [init [tenth ->]].
  exists init, tenth. reflexivity.
Qed.

(** On a cohort with a first member the statistics are returned, each
    component a finite number. *)
Lemma statistics_nonempty (first : TenPackBusiness)
  (others : list TenPackBusiness) :
  statistics (first :: others) =
  Ok (mkAnalysis (first :: others)
        (Fin (sum (map rating (first :: others))
              / inject_Z (Z.of_nat (length (map rating (first :: others))))))
        (Fin (sum (map reviewCount (first :: others))
              / inject_Z (Z.of_nat
                            (length (map reviewCount (first :: others))))))
        (median (map reviewCount (first :: others)))
        (Fin (Math_min (reviewCount first) (map reviewCount others)))
        (Fin (Math_max (reviewCount first) (map reviewCount others)))
        (Fin (Math_min (rating first) (map rating others)))
        (Fin (Math_max (rating first) (map rating others)))
        (fold_left better others first)
        (match lastBusiness (first :: others) with
         | Some tenth => Fin (reviewCount tenth + 1)
         | None =>
             ceil (times
                     (Fin (sum (map reviewCount (first :: others))
                           / inject_Z
                               (Z.of_nat
                                  (length (map reviewCount (first :: others))))))
                     0.7)
         end)
        (Fin (Qmax 4.0 (Math_min (rating first) (map rating others))))).
Proof. reflexivity. Qed.

(** *** Sorting and the median *)

Lemma insert_sorted_perm (x : Q) (l : list Q) :
  Permutation (x :: l) (insert_sorted x l).
Proof.
  induction l as [|y l IH]; simpl; [reflexivity|].
  destruct (Qle_bool x y); [reflexivity|].
  rewrite perm_swap. apply perm_skip. exact IH.
Qed.

Lemma sort_ascending_perm (l : list Q) : Permutation l (sort_ascending l).
Proof.
  induction l as [|x l IH]; simpl; [reflexivity|].
  rewrite <- insert_sorted_perm. apply perm_skip. exact IH.
Qed.

Lemma insert_sorted_sorted (x : Q) (l : list Q) :
  Sorted Qle l -> Sorted Qle (insert_sorted x l).
Proof.
  induction l as [|y l IH]; simpl; intros Hs.
  - repeat constructor.
  - destruct (Qle_bool x y) eqn:E.
    + apply Qle_bool_iff in E. constructor; [exact Hs|constructor; exact E].
    + assert (Hyx : (y <= x)%Q).
      { apply Qlt_le_weak. apply Qnot_le_lt. intros H.
        apply Qle_bool_iff in H. congruence. }
      inversion Hs as [|? ? Hs' Hhd]; subst.
      constructor; [apply IH; exact Hs'|].
      destruct l as [|z l]; simpl.
      * constructor; exact Hyx.
      * inversion Hhd; subst.
        destruct (Qle_bool x z); constructor; assumption.
Qed.

Lemma sort_ascending_sorted (l : list Q) : Sorted Qle (sort_ascending l).
Proof.
  induction l as [|x l IH]; simpl; [constructor|].
  apply insert_sorted_sorted. exact IH.
Qed.

(** The number of elements that satisfy a test does not depend on their
    order. *)
Lemma count_perm (p : Q -> bool) (l l' : list Q) :
  Permutation l l' -> count p l = count p l'.
Proof.
  unfold count. intros H. induction H; simpl.
  - reflexivity.
  - destruct (p x); simpl; congruence.
  - destruct (p x), (p y); reflexivity.
  - congruence.
Qed.

Lemma count_mono (p p' : Q -> bool) (l : list Q) :
  (forall x, p x = true -> p' x = true) -> count p l <= count p' l.
Proof.
  unfold count. intros H. induction l as [|x l IH]; simpl; [lia|].
  destruct (p x) eqn:E.
  - rewrite (H x E). simpl. lia.
  - destruct (p' x); simpl; lia.
Qed.

Lemma StronglySorted_Qle (l : list Q) : Sorted Qle l -> StronglySorted Qle l.
Proof.
  apply Sorted_StronglySorted. intros x y z. apply Qle_trans.
Qed.

(** In a sorted list at least [k + 1] elements are at most the one at index
    [k], and at most [k] elements are below it. *)
Lemma count_le_nth (l : list Q) :
  StronglySorted Qle l ->
  forall k, k < length l ->
    k + 1 <= count (fun x => Qle_bool x (nth k l 0%Q)) l.
Proof.
  unfold count. induction 1 as [|x l Hs IH Hall]; intros k Hk; simpl in *;
    [lia|].
  destruct k as [|k].
  - assert (E : Qle_bool x x = true) by (apply Qle_bool_iff, Qle_refl).
    rewrite E. simpl. lia.
  - assert (Hk' : k < length l) by lia.
    assert (E : Qle_bool x (nth k l 0%Q) = true).
    { apply Qle_bool_iff. rewrite Forall_forall in Hall.
      apply Hall. apply nth_In. exact Hk'. }
    rewrite E. simpl. specialize (IH k Hk'). lia.
Qed.

Lemma count_lt_nth (l : list Q) :
  StronglySorted Qle l ->
  forall k, k < length l ->
    count (fun x => negb (Qle_bool (nth k l 0%Q) x)) l <= k.
Proof.
  unfold count. induction 1 as [|x l Hs IH Hall]; intros k Hk; simpl in *;
    [lia|].
  destruct k as [|k].
  - assert (E : Qle_bool x x = true) by (apply Qle_bool_iff, Qle_refl).
    rewrite E. simpl.
    assert (Hnone : filter (fun y => negb (Qle_bool x y)) l = []).
    { clear -Hall. induction Hall as [|y l Hy _ IH']; simpl; [reflexivity|].
      apply Qle_bool_iff in Hy. rewrite Hy. simpl. exact IH'. }
    rewrite Hnone. simpl. lia.
  - assert (Hk' : k < length l) by lia.
    specialize (IH k Hk').
    destruct (negb (Qle_bool (nth k l 0%Q) x)); simpl; lia.
Qed.

(** Two sorted arrangements of the same numbers agree position by
    position. *)
Lemma sorted_perm_nth (l l' : list Q) (k : nat) :
  Permutation l l' -> Sorted Qle l -> Sorted Qle l' -> k < length l ->
  nth k l 0%Q == nth k l' 0%Q.
Proof.
  intros Hp Hs Hs' Hk.
  assert (Hk' : k < length l') by (rewrite <- (Permutation_length Hp); exact Hk).
  apply StronglySorted_Qle in Hs. apply StronglySorted_Qle in Hs'.
  assert (Half : forall a a' : list Q,
             Permutation a a' -> StronglySorted Qle a -> StronglySorted Qle a' ->
             k < length a -> k < length a' ->
             (nth k a 0%Q <= nth k a' 0%Q)%Q).
  { intros a a' Hpa Ha Ha' Hka Hka'.
    apply Qnot_lt_le. intros Hlt.
    pose proof (count_le_nth a' Ha' k Hka') as H1.
    pose proof (count_lt_nth a Ha k Hka) as H2.
    rewrite (count_perm _ a a' Hpa) in H2.
    assert (H3 : count (fun x => Qle_bool x (nth k a' 0%Q)) a'
                 <= count (fun x => negb (Qle_bool (nth k a 0%Q) x)) a').
    { apply count_mono. intros x Hx. apply Qle_bool_iff in Hx.
      apply negb_true_iff. destruct (Qle_bool (nth k a 0%Q) x) eqn:E;
        [|reflexivity].
      apply Qle_bool_iff in E. exfalso.
      apply (Qlt_not_le _ _ Hlt). eapply Qle_trans; eassumption. }
    lia. }
  apply Qle_antisym.
  - apply Half; assumption.
  - apply Half; try assumption. symmetry; exact Hp.
Qed.

Lemma at_index_nth (l : list Q) (k : nat) :
  k < length l -> at_index l (Z.of_nat k) = Some (nth k l 0%Q).
Proof.
  intros Hk. unfold at_index.
  destruct (Z.ltb_spec (Z.of_nat k) 0); [lia|].
  rewrite Nat2Z.id. apply nth_error_nth'. exact Hk.
Qed.

Lemma sort_ascending_length (l : list Q) :
  length (sort_ascending l) = length l.
Proof. symmetry. apply Permutation_length, sort_ascending_perm. Qed.

Lemma median_odd (counts : list Q) (k : nat) :
  length counts = 2 * k + 1 ->
  median counts = Fin (nth k (sort_ascending counts) 0%Q).
Proof.
  intros Hlen. unfold median. rewrite sort_ascending_length, Hlen.
  assert (Hmod : (Z.of_nat (2 * k + 1) mod 2 = 1)%Z)
    by (Z.div_mod_to_equations; lia).
  assert (Hdiv : (Z.of_nat (2 * k + 1) / 2 = Z.of_nat k)%Z)
    by (Z.div_mod_to_equations; lia).
  rewrite Hmod, Hdiv. cbn [Z.eqb].
  rewrite at_index_nth by (rewrite sort_ascending_length; lia).
  reflexivity.
Qed.

Lemma median_even (counts : list Q) (k : nat) :
  length counts = 2 * k -> 0 < k ->
  median counts =
  Fin ((nth (k - 1)%nat (sort_ascending counts) 0
        + nth k (sort_ascending counts) 0) / 2)%Q.
Proof.
  intros Hlen Hk. unfold median. rewrite sort_ascending_length, Hlen.
  assert (Hmod : (Z.of_nat (2 * k) mod 2 = 0)%Z)
    by (Z.div_mod_to_equations; lia).
  assert (Hdiv : (Z.of_nat (2 * k) / 2 = Z.of_nat k)%Z)
    by (Z.div_mod_to_equations; lia).
  rewrite Hmod, Hdiv. cbn [Z.eqb].
  replace (Z.of_nat k - 1)%Z with (Z.of_nat (k - 1)) by lia.
  rewrite !at_index_nth by (rewrite sort_ascending_length; lia).
  reflexivity.
Qed.

(** The top performer is a member of the cohort. *)
Lemma fold_better_In (others : list TenPackBusiness) :
  forall first, In (fold_left better others first) (first :: others).
Proof.
  induction others as [|b others IH]; intros first; simpl; [auto|].
  destruct (IH (better first b)) as [H|H]; [|auto].
  rewrite <- H. unfold better.
  destruct (gtb (rating b) (rating first)); [auto|].
  destruct (Qeq_bool (rating b) (rating first)
            && gtb (reviewCount b) (reviewCount first)); auto.
Qed.

Lemma median_finite (counts : list Q) :
  counts <> [] -> exists m, median counts = Fin m.
Proof.
  intros Hne.
  assert (Hlen : 0 < length counts)
    by (destruct counts; [contradiction|simpl; lia]).
  destruct (Nat.Even_or_Odd (length counts)) as [[k Hk]|[k Hk]].
  - eexists. apply (median_even counts k Hk). lia.
  - eexists. apply (median_odd counts k Hk).
Qed.

(** The missed case of [analyzeTenPack]: a cohort left empty by the filter
    reaches [reduce] without an initial value, which throws a [TypeError];
    the fallback on the average further down is never reached. *)
Lemma empty_cohort_reduce_raises :
  statistics [] =
    Throw (TypeError (lit "Reduce of empty array with no initial value")) /\
  analyzeTenPack (lit "pizza") (lit "Waco") (lit "TX")
    (mkResponse (lit "OK")
       (Some [mkPlace (lit "New Pizzeria") None None (lit "p1")
                (Some (lit "1 Main St")) None])) =
    Throw (TypeError (lit "Reduce of empty array with no initial value")).
Proof. split; reflexivity. Qed.

(** C6, as stated, fails: on an answer of the provider without results, so
    on an empty cohort, the ten-pack analysis raises its own [Error]. *)
Lemma no_results_raise :
  analyzeTenPack (lit "pizza") (lit "Waco") (lit "TX")
    (mkResponse (lit "OK") (Some [])) =
  Throw (Error (lit "No results found for pizza Waco TX 10-pack analysis")).
Proof. reflexivity. Qed.

(** C6, amended. The aggregation of the scoring path,
    [calculateMarketStats], returns its zeroed value on the empty cohort;
    the ten-pack analysis raises an [Error] when the provider answers
    without results, and on every non-empty cohort it returns statistics
    whose components are all finite numbers. *)
Theorem statistics_on_empty_cohort :
  Scoring.calculateMarketStats [] = Scoring.mkMarketStats 0 0 0 0 0 0 /\
  (forall businessCategory city state : jsstring,
      analyzeTenPack businessCategory city state
        (mkResponse (lit "OK") (Some [])) =
      Throw (Error (lit "No results found for "
                    ++ (businessCategory ++ lit " " ++ city ++ lit " " ++ state)
                    ++ lit " 10-pack analysis")) /\
      analyzeTenPack businessCategory city state (mkResponse (lit "OK") None) =
      Throw (Error (lit "No results found for "
                    ++ (businessCategory ++ lit " " ++ city ++ lit " " ++ state)
                    ++ lit " 10-pack analysis"))) /\
  (forall businesses : list TenPackBusiness,
      businesses <> [] ->
      exists analysis avgRating avgReviews med minRev maxRev minRat maxRat
             needRev needRat,
        statistics businesses = Ok analysis /\
        averageRating analysis = Fin avgRating /\
        averageReviews analysis = Fin avgReviews /\
        medianReviews analysis = Fin med /\
        reviewRange_min analysis = Fin minRev /\
        reviewRange_max analysis = Fin maxRev /\
        ratingRange_min analysis = Fin minRat /\
        ratingRange_max analysis = Fin maxRat /\
        In (topPerformer analysis) businesses /\
        entryThreshold_reviewsNeeded analysis = Fin needRev /\
        entryThreshold_ratingNeeded analysis = Fin needRat).
Proof.
  split; [reflexivity|]. split; [intros; split; reflexivity|].
  intros businesses Hne.
  destruct (nonempty_has_last businesses Hne) as [init [tenth Hlast]].
  destruct businesses as [|first others]; [contradiction|].
  destruct (median_finite (map reviewCount (first :: others)))
    as [med Hmed]; [discriminate|].
  rewrite statistics_nonempty, Hmed, Hlast, lastBusiness_app, <- Hlast.
  do 10 eexists.
  split; [reflexivity|].
  cbn [averageRating averageReviews medianReviews reviewRange_min
       reviewRange_max ratingRange_min ratingRange_max topPerformer
       entryThreshold_reviewsNeeded entryThreshold_ratingNeeded].
  repeat (split; [reflexivity|]).
  split; [|split; reflexivity].
  apply fold_better_In.
Qed.

(** The statistics of a cohort of three. *)
Lemma statistics_on_empty_cohort_witness :
  exists analysis,
    statistics Samples.ranked_cohort = Ok analysis /\
    In (topPerformer analysis) Samples.ranked_cohort.
Proof.
  destruct (proj2 (proj2 statistics_on_empty_cohort) Samples.ranked_cohort
              ltac:(discriminate))
    as [analysis [? [? [? [? [? [? [? [? [? [Hstat H]]]]]]]]]]].
  exists analysis. split; [exact Hstat|].
  apply H.
Defined.

(** C7. On a non-empty cohort, taken in the order it was given, the
    statistics are returned with [reviewsNeeded] one more than the review
    count of the last member (the fallback on the average is not taken) and
    [ratingNeeded] the larger of 4.0 and the least rating of the cohort; a
    last member with 42 reviews gives 43. *)
Theorem entry_threshold (businesses : list TenPackBusiness) :
  businesses <> [] ->
  exists analysis init tenth m,
    statistics businesses = Ok analysis /\
    TenPack.businesses analysis = businesses /\
    businesses = init ++ [tenth] /\
    entryThreshold_reviewsNeeded analysis = Fin (reviewCount tenth + 1) /\
    (reviewCount tenth == 42 ->
     exists needed,
       entryThreshold_reviewsNeeded analysis = Fin needed /\ needed == 43) /\
    In m (map rating businesses) /\
    (forall r, In r (map rating businesses) -> (m <= r)%Q) /\
    entryThreshold_ratingNeeded analysis = Fin (Qmax 4.0 m).
Proof.
  intros Hne.
  destruct (nonempty_has_last businesses Hne) as [init [tenth Hlast]].
  destruct businesses as [|first others]; [contradiction|].
  rewrite statistics_nonempty.
  eexists. exists init, tenth, (Math_min (rating first) (map rating others)).
  split; [reflexivity|].
  cbn [TenPack.businesses entryThreshold_reviewsNeeded
       entryThreshold_ratingNeeded].
  split; [reflexivity|]. split; [exact Hlast|].
  rewrite Hlast, lastBusiness_app, <- Hlast.
  split; [reflexivity|].
  split; [intros H; eexists; split; [reflexivity|rewrite H; reflexivity]|].
  destruct (Math_min_spec (map rating others) (rating first)) as [Hin Hle].
  split; [exact Hin|]. split; [exact Hle|reflexivity].
Qed.

(** A ranked cohort whose last member has 42 reviews. *)
Lemma entry_threshold_witness :
  Samples.ranked_cohort <> [] /\
  exists analysis needed,
    statistics Samples.ranked_cohort = Ok analysis /\
    entryThreshold_reviewsNeeded analysis = Fin needed /\ needed == 43.
Proof.
  assert (Hne : Samples.ranked_cohort <> []) by discriminate.
  split; [exact Hne|].
  destruct (entry_threshold Samples.ranked_cohort Hne)
    as [analysis [init [tenth [m [Hstat [_ [Hlast [_ [H42 _]]]]]]]]].
  assert (Htenth : tenth = Samples.business 4.2 42).
  { apply (f_equal lastBusiness) in Hlast.
    rewrite lastBusiness_app in Hlast. vm_compute in Hlast.
    inversion Hlast. reflexivity. }
  destruct H42 as [needed [Hneeded H43]].
  - rewrite Htenth. reflexivity.
  - exists analysis, needed. split; [exact Hstat|]. split; assumption.
Defined.

(** C8. On a non-empty cohort [medianReviews] is the median of the review
    counts: against any ascending arrangement of the counts it is the
    middle value when their number is odd and the mean of the two middle
    values when it is even; [10, 20, 30, 40] gives 25 and [10, 20, 30]
    gives 20. *)
Theorem median_of_reviews :
  (forall businesses : list TenPackBusiness,
      businesses <> [] ->
      exists analysis,
        statistics businesses = Ok analysis /\
        medianReviews analysis = median (map reviewCount businesses)) /\
  (forall (counts sorted : list Q) (k : nat),
      Permutation counts sorted -> Sorted Qle sorted ->
      (length counts = 2 * k + 1 ->
       exists m, median counts = Fin m /\ m == nth k sorted 0%Q) /\
      (length counts = 2 * k -> 0 < k ->
       exists m,
         median counts = Fin m /\
         m == ((nth (k - 1)%nat sorted 0 + nth k sorted 0) / 2)%Q)) /\
  (exists m, median [10; 20; 30; 40]%Q = Fin m /\ m == 25) /\
  (exists m, median [10; 20; 30]%Q = Fin m /\ m == 20).
Proof.
  split; [|split; [|split]].
  - intros [|first others] Hne; [contradiction|].
    rewrite statistics_nonempty. eexists. split; reflexivity.
  - intros counts sorted k Hperm Hsorted.
    assert (Hp : Permutation (sort_ascending counts) sorted)
      by (rewrite <- Hperm; symmetry; apply sort_ascending_perm).
    pose proof (sort_ascending_sorted counts) as Hs.
    split.
    + intros Hlen. eexists. split; [exact (median_odd counts k Hlen)|].
      apply sorted_perm_nth; try assumption.
      rewrite sort_ascending_length; lia.
    + intros Hlen Hk. eexists. split; [exact (median_even counts k Hlen Hk)|].
      rewrite (sorted_perm_nth _ _ (k - 1) Hp Hs Hsorted)
        by (rewrite sort_ascending_length; lia).
      rewrite (sorted_perm_nth _ _ k Hp Hs Hsorted)
        by (rewrite sort_ascending_length; lia).
      reflexivity.
  - eexists. split; [vm_compute; reflexivity|reflexivity].
  - eexists. split; [vm_compute; reflexivity|reflexivity].
Qed.

(** The cohort of three, and three counts out of order whose middle value
    is 20. *)
Lemma median_of_reviews_witness :
  (exists analysis,
      statistics Samples.ranked_cohort = Ok analysis /\
      medianReviews analysis =
      median (map reviewCount Samples.ranked_cohort)) /\
  (exists m, median [30; 10; 20]%Q = Fin m /\ m == nth 1 [10; 20; 30]%Q 0%Q).
Proof.
  split.
  - apply (proj1 median_of_reviews Samples.ranked_cohort). discriminate.
  - apply (proj1 (proj1 (proj2 median_of_reviews) [30; 10; 20]%Q
                           [10; 20; 30]%Q 1
                    ltac:(apply perm_trans with [10; 30; 20]%Q;
                          [apply perm_swap | apply perm_skip, perm_swap])
                    ltac:(repeat constructor; unfold Qle; simpl; lia))).
    reflexivity.
Defined.

End TenPackProperties.

(** * Further properties of the code *)

Import Notions.

(** ** The similarity as a measure *)

Section LevenshteinBounds.

Import Reference.

Variables a b : jsstring.

Lemma lev_0_j (j : nat) : lev a b 0 j = j.
Proof. reflexivity. Qed.

Lemma lev_le_max (i : nat) : forall j, lev a b i j <= Nat.max i j.
Proof.
  induction i as [|i IHi]; intros j; [rewrite lev_0_j; lia|].
  induction j as [|j IHj]; [rewrite lev_i_0; lia|].
  rewrite lev_S_S. specialize (IHi j).
  unfold min3. destruct (Ascii.eqb _ _); lia.
Qed.

Lemma lev_ge_diff (i : nat) :
  forall j, i - j <= lev a b i j /\ j - i <= lev a b i j.
Proof.
  induction i as [|i IHi]; intros j; [rewrite lev_0_j; lia|].
  induction j as [|j IHj]; [rewrite lev_i_0; lia|].
  rewrite lev_S_S.
  pose proof (IHi j) as H1. pose proof (IHi (S j)) as H2.
  unfold min3. destruct (Ascii.eqb _ _); lia.
Qed.

Lemma lev_zero (i : nat) :
  forall j, lev a b i j = 0 ->
            i = j /\ forall k, k < i -> nth k a zero = nth k b zero.
Proof.
  induction i as [|i IHi]; intros j H.
  - rewrite lev_0_j in H. subst j. split; [reflexivity|intros k Hk; lia].
  - destruct j as [|j]; [rewrite lev_i_0 in H; discriminate|].
    rewrite lev_S_S in H. unfold min3 in H.
    destruct (Ascii.eqb (nth i a zero) (nth j b zero)) eqn:E; [|lia].
    assert (H0 : lev a b i j = 0) by lia.
    destruct (IHi j H0) as [-> Hk].
    apply Ascii.eqb_eq in E.
    split; [reflexivity|].
    intros k Hlt. destruct (Nat.eq_dec k j) as [->|Hne]; [exact E|].
    apply Hk; lia.
Qed.

End LevenshteinBounds.

Lemma levenshtein_zero (a b : jsstring) :
  Reference.levenshtein a b = 0 -> a = b.
Proof.
  unfold Reference.levenshtein. intros H.
  destruct (lev_zero a b _ _ H) as [Hlen Hk].
  apply (nth_ext a b zero zero Hlen). exact Hk.
Qed.

Lemma matrix_distance_sym (str1 str2 : jsstring) :
  matrix_distance str1 str2 = matrix_distance str2 str1.
Proof.
  rewrite !matrix_distance_levenshtein. unfold Reference.levenshtein.
  apply lev_sym.
Qed.

Lemma matrix_distance_le_max (str1 str2 : jsstring) :
  matrix_distance str1 str2 <= Nat.max (length str1) (length str2).
Proof.
  rewrite matrix_distance_levenshtein. unfold Reference.levenshtein.
  rewrite Nat.max_comm. apply lev_le_max.
Qed.

Lemma matrix_distance_ge_diff (str1 str2 : jsstring) :
  Nat.max (length str1) (length str2) - Nat.min (length str1) (length str2)
  <= matrix_distance str1 str2.
Proof.
  rewrite matrix_distance_levenshtein. unfold Reference.levenshtein.
  pose proof (lev_ge_diff str2 str1 (length str2) (length str1)). lia.
Qed.

(** One minus [d] over [m], for [d] at most [m], in terms of [m - d]. *)
Lemma one_minus_ratio (d m : nat) :
  0 < m -> d <= m ->
  1 - inject_Z (Z.of_nat d) / inject_Z (Z.of_nat m)
  == inject_Z (Z.of_nat (m - d)) / inject_Z (Z.of_nat m).
Proof.
  intros Hm Hd.
  assert (H : ~ inject_Z (Z.of_nat m) == 0) by (unfold Qeq; simpl; lia).
  rewrite Nat2Z.inj_sub by exact Hd. unfold Z.sub.
  rewrite inject_Z_plus, inject_Z_opp.
  field. exact H.
Qed.

Lemma ratio_bounds (n m : nat) :
  0 < m -> n <= m ->
  (0 <= inject_Z (Z.of_nat n) / inject_Z (Z.of_nat m) <= 1)%Q.
Proof.
  intros Hm Hn.
  assert (Hpos : (0 < inject_Z (Z.of_nat m))%Q)
    by (unfold Qlt; simpl; lia).
  split.
  - apply Qle_shift_div_l; [exact Hpos|].
    rewrite Qmult_0_l. unfold Qle; simpl; lia.
  - apply Qle_shift_div_r; [exact Hpos|].
    rewrite Qmult_1_l. unfold Qle; simpl; lia.
Qed.

(** The similarity in terms of the characters the two strings keep in
    common: the longer length minus the distance, over the longer length. *)
Lemma calculateStringSimilarity_ratio (str1 str2 : jsstring) :
  0 < Nat.max (length str1) (length str2) ->
  calculateStringSimilarity str1 str2
  == inject_Z (Z.of_nat (Nat.max (length str1) (length str2)
                         - matrix_distance str1 str2))
     / inject_Z (Z.of_nat (Nat.max (length str1) (length str2))).
Proof.
  intros Hmax. unfold calculateStringSimilarity.
  pose proof (matrix_distance_le_max str1 str2) as Hle.
  pose proof (matrix_distance_ge_diff str1 str2) as Hge.
  destruct (length str1 =? 0) eqn:E1.
  - apply Nat.eqb_eq in E1. rewrite E1 in *.
    destruct (length str2 =? 0) eqn:E2.
    + apply Nat.eqb_eq in E2. rewrite E2 in Hmax. simpl in Hmax. lia.
    + apply Nat.eqb_neq in E2.
      replace (Nat.max 0 (length str2) - matrix_distance str1 str2) with 0
        by lia.
      unfold Qdiv. simpl inject_Z at 1. ring.
  - apply Nat.eqb_neq in E1.
    destruct (length str2 =? 0) eqn:E2.
    + apply Nat.eqb_eq in E2. rewrite E2 in *.
      replace (Nat.max (length str1) 0 - matrix_distance str1 str2) with 0
        by lia.
      unfold Qdiv. simpl inject_Z at 1. ring.
    + apply one_minus_ratio; lia.
Qed.

Lemma similarity_range (str1 str2 : jsstring) :
  (0 <= calculateStringSimilarity str1 str2 <= 1)%Q.
Proof.
  destruct (Nat.eq_dec (Nat.max (length str1) (length str2)) 0) as [E|E].
  - unfold calculateStringSimilarity.
    replace (length str1) with 0 by lia.
    replace (length str2) with 0 by lia.
    simpl. split; unfold Qle; simpl; lia.
  - rewrite calculateStringSimilarity_ratio by lia.
    apply ratio_bounds; lia.
Qed.

Lemma similarity_sym (str1 str2 : jsstring) :
  calculateStringSimilarity str1 str2 = calculateStringSimilarity str2 str1.
Proof.
  unfold calculateStringSimilarity.
  rewrite (matrix_distance_sym str1 str2),
    (Nat.max_comm (length str1) (length str2)).
  destruct (length str1 =? 0), (length str2 =? 0); reflexivity.
Qed.

Lemma similarity_one (str1 str2 : jsstring) :
  calculateStringSimilarity str1 str2 == 1 -> str1 = str2.
Proof.
  intros H.
  destruct (Nat.eq_dec (Nat.max (length str1) (length str2)) 0) as [E|E].
  - destruct str1, str2; simpl in E; try lia; reflexivity.
  - rewrite calculateStringSimilarity_ratio in H by lia.
    pose proof (matrix_distance_le_max str1 str2) as Hle.
    assert (Hpos : ~ inject_Z (Z.of_nat (Nat.max (length str1) (length str2)))
                     == 0) by (unfold Qeq; simpl; lia).
    set (n := Nat.max (length str1) (length str2)
              - matrix_distance str1 str2) in *.
    set (m := Nat.max (length str1) (length str2)) in *.
    assert (H' : inject_Z (Z.of_nat n) == inject_Z (Z.of_nat m)).
    { setoid_replace (inject_Z (Z.of_nat n))
        with (inject_Z (Z.of_nat n) / inject_Z (Z.of_nat m)
              * inject_Z (Z.of_nat m))%Q by (field; exact Hpos).
      rewrite H. ring. }
    assert (Hd : matrix_distance str1 str2 = 0).
    { unfold Qeq in H'. simpl in H'. subst n m. lia. }
    rewrite matrix_distance_levenshtein in Hd.
    symmetry. apply levenshtein_zero. exact Hd.
Qed.

(** X1. The similarity of two strings is a number between 0 and 1, it does
    not depend on the order of the two strings, and it is 1 for equal
    strings and for no others. *)
Theorem similarity_measure (str1 str2 : jsstring) :
  (0 <= calculateStringSimilarity str1 str2 <= 1)%Q /\
  calculateStringSimilarity str1 str2 = calculateStringSimilarity str2 str1 /\
  (calculateStringSimilarity str1 str2 == 1 <-> str1 = str2).
Proof.
  split; [apply similarity_range|]. split; [apply similarity_sym|].
  split; [apply similarity_one|].
  intros ->. apply calculateStringSimilarity_same.
Qed.



(** ** Characters, [split] and [join] *)

(** A statement about every character, settled on the 256 of them. *)
Ltac each_char c :=
  destruct c as [[] [] [] [] [] [] [] []]; vm_compute;
  try reflexivity; try discriminate; auto.

Lemma lower_char_idem (c : ascii) : lower_char (lower_char c) = lower_char c.
Proof. each_char c. Qed.

Lemma lower_char_space (c : ascii) : is_space (lower_char c) = is_space c.
Proof. each_char c. Qed.

Lemma lower_char_comma (c : ascii) :
  Ascii.eqb (lower_char c) ","%char = Ascii.eqb c ","%char.
Proof. each_char c. Qed.

Lemma toLowerCase_idem (s : jsstring) :
  toLowerCase (toLowerCase s) = toLowerCase s.
Proof.
  unfold toLowerCase. rewrite map_map. apply map_ext.
  intros c. apply lower_char_idem.
Qed.

Lemma toLowerCase_fixed (s : jsstring) :
  Forall (fun c => lower_char c = c) s -> toLowerCase s = s.
Proof.
  unfold toLowerCase. induction 1 as [|c s Hc _ IH]; [reflexivity|].
  cbn [map]. rewrite Hc, IH. reflexivity.
Qed.

Lemma split_not_nil (sep : ascii) (s : jsstring) : split sep s <> [].
Proof.
  destruct s as [|c s]; cbn [split]; [discriminate|].
  destruct (Ascii.eqb c sep); [discriminate|].
  destruct (split sep s); discriminate.
Qed.

Lemma join_cons (sep w : jsstring) (ws : list jsstring) :
  ws <> [] -> join sep (w :: ws) = w ++ sep ++ join sep ws.
Proof. destruct ws; [congruence|reflexivity]. Qed.

Lemma join_split (sep : ascii) (s : jsstring) : join [sep] (split sep s) = s.
Proof.
  induction s as [|c s IH]; [reflexivity|].
  cbn [split]. destruct (Ascii.eqb c sep) eqn:E.
  - apply Ascii.eqb_eq in E. subst c.
    rewrite join_cons by apply split_not_nil. rewrite IH. reflexivity.
  - pose proof (split_not_nil sep s) as Hne.
    destruct (split sep s) as [|w ws]; [congruence|].
    destruct ws as [|w' ws].
    + cbn [join] in *. rewrite IH. reflexivity.
    + rewrite join_cons in IH by discriminate.
      rewrite join_cons by discriminate.
      rewrite <- IH. reflexivity.
Qed.

Lemma split_words_no_sep (sep : ascii) (s : jsstring) :
  Forall (fun w => ~ In sep w) (split sep s).
Proof.
  induction s as [|c s IH]; cbn [split].
  - constructor; [intros []|constructor].
  - destruct (Ascii.eqb c sep) eqn:E.
    + constructor; [intros []|exact IH].
    + apply Ascii.eqb_neq in E.
      destruct (split sep s) as [|w ws].
      * constructor; [|constructor]. intros [H|[]]. congruence.
      * inversion IH as [|? ? Hw Hws]; subst.
        constructor; [|exact Hws].
        intros [H|H]; [congruence|contradiction].
Qed.

Lemma split_app_sep (sep : ascii) (w t : jsstring) :
  ~ In sep w -> split sep (w ++ sep :: t) = w :: split sep t.
Proof.
  induction w as [|c w IH]; intros Hw.
  - cbn [app split]. rewrite Ascii.eqb_refl. reflexivity.
  - cbn [app split].
    destruct (Ascii.eqb c sep) eqn:E.
    + apply Ascii.eqb_eq in E. subst c. exfalso. apply Hw. left; reflexivity.
    + rewrite IH by (intros H; apply Hw; right; exact H). reflexivity.
Qed.

Lemma split_no_sep (sep : ascii) (w : jsstring) :
  ~ In sep w -> split sep w = [w].
Proof.
  induction w as [|c w IH]; intros Hw; [reflexivity|].
  cbn [split].
  destruct (Ascii.eqb c sep) eqn:E.
  - apply Ascii.eqb_eq in E. subst c. exfalso. apply Hw. left; reflexivity.
  - rewrite IH by (intros H; apply Hw; right; exact H). reflexivity.
Qed.

Lemma split_join (sep : ascii) (ws : list jsstring) :
  ws <> [] -> Forall (fun w => ~ In sep w) ws ->
  split sep (join [sep] ws) = ws.
Proof.
  induction ws as [|w ws IH]; intros Hne Hall; [congruence|].
  inversion Hall as [|? ? Hw Hws]; subst.
  destruct ws as [|w' ws].
  - cbn [join]. apply split_no_sep, Hw.
  - rewrite join_cons by discriminate. cbn [app].
    rewrite split_app_sep by exact Hw.
    rewrite IH by (discriminate || exact Hws). reflexivity.
Qed.

(** The characters of a joined string are those of the words and of the
    separator. *)
Lemma In_join (sep : jsstring) (ws : list jsstring) (c : ascii) :
  In c (join sep ws) -> In c sep \/ exists w, In w ws /\ In c w.
Proof.
  induction ws as [|w ws IH]; [intros []|].
  destruct ws as [|w' ws].
  - cbn [join]. intros H. right. exists w. split; [left; reflexivity|exact H].
  - rewrite join_cons by discriminate. rewrite !in_app_iff.
    intros [H|[H|H]].
    + right. exists w. split; [left; reflexivity|exact H].
    + left; exact H.
    + destruct (IH H) as [Hs|[x [Hx Hc]]]; [left; exact Hs|].
      right. exists x. split; [right; exact Hx|exact Hc].
Qed.

Lemma In_split (sep : ascii) (s w : jsstring) (c : ascii) :
  In w (split sep s) -> In c w -> In c s.
Proof.
  revert w. induction s as [|x s IH]; intros w; cbn [split].
  - intros [<-|[]] [].
  - destruct (Ascii.eqb x sep).
    + intros [<-|H] Hc; [destruct Hc|]. right. eapply IH; eauto.
    + pose proof (IH) as IH'.
      destruct (split sep s) as [|w0 ws].
      * intros [<-|[]] [->|[]]. left; reflexivity.
      * intros [<-|H] Hc.
        -- destruct Hc as [->|Hc]; [left; reflexivity|].
           right. apply (IH' w0); [left; reflexivity|exact Hc].
        -- right. apply (IH' w); [right; exact H|exact Hc].
Qed.

(** The length of a joined string: one separator after every word but the
    last. *)

Lemma total_length_cons (w : jsstring) (ws : list jsstring) :
  total_length (w :: ws) = length w + 1 + total_length ws.
Proof. reflexivity. Qed.

Lemma length_join (ws : list jsstring) :
  length (join (lit " ") ws) = total_length ws - 1.
Proof.
  induction ws as [|w ws IH]; [reflexivity|].
  destruct ws as [|w' ws].
  - cbn [join]. rewrite total_length_cons. cbn [total_length fold_right]. lia.
  - rewrite join_cons by discriminate.
    rewrite !length_app, IH.
    change (length (lit " ")) with 1.
    rewrite !total_length_cons. lia.
Qed.

Lemma total_length_filter (p : jsstring -> bool) (ws : list jsstring) :
  total_length (filter p ws) <= total_length ws.
Proof.
  induction ws as [|w ws IH]; [apply Nat.le_refl|].
  cbn [filter]. destruct (p w); rewrite ?total_length_cons; lia.
Qed.

Lemma total_length_filter_lt (p : jsstring -> bool) (ws : list jsstring) :
  existsb (fun w => negb (p w)) ws = true ->
  total_length (filter p ws) < total_length ws.
Proof.
  induction ws as [|w ws IH]; [discriminate|].
  cbn [existsb filter]. pose proof (total_length_filter p ws) as Hle.
  destruct (p w); cbn [negb orb]; rewrite ?total_length_cons.
  - intros H. specialize (IH H). lia.
  - intros _. lia.
Qed.

Lemma filter_all (p : jsstring -> bool) (ws : list jsstring) :
  existsb (fun w => negb (p w)) ws = false -> filter p ws = ws.
Proof.
  induction ws as [|w ws IH]; [reflexivity|].
  cbn [existsb filter]. destruct (p w); cbn [negb orb]; [|discriminate].
  intros H. rewrite IH by exact H. reflexivity.
Qed.

Lemma existsb_pointwise {A : Type} (f g : A -> bool) (l : list A) :
  (forall x, f x = g x) -> existsb f l = existsb g l.
Proof.
  intros H. induction l as [|x l IH]; [reflexivity|].
  cbn [existsb]. rewrite H, IH. reflexivity.
Qed.

Lemma filter_idem {A : Type} (p : A -> bool) (l : list A) :
  filter p (filter p l) = filter p l.
Proof.
  induction l as [|x l IH]; [reflexivity|].
  cbn [filter]. destruct (p x) eqn:E; [|exact IH].
  cbn [filter]. rewrite E, IH. reflexivity.
Qed.

(** ** Location terms *)

Lemma removeLocationTerms_unfold (name : jsstring) :
  removeLocationTerms name
  = join (lit " ")
      (filter (fun word => negb (isLocationTerm word))
         (split " "%char (toLowerCase name))).
Proof. reflexivity. Qed.

Lemma empty_not_location : isLocationTerm [] = false.
Proof. vm_compute. reflexivity. Qed.

Lemma removeLocationTerms_empty : removeLocationTerms [] = [].
Proof. vm_compute. reflexivity. Qed.

Lemma removeLocationTerms_lower (name : jsstring) :
  toLowerCase (removeLocationTerms name) = removeLocationTerms name.
Proof.
  apply toLowerCase_fixed, Forall_forall. intros c Hc.
  rewrite removeLocationTerms_unfold in Hc.
  apply In_join in Hc. destruct Hc as [[<-|[]]|[w [Hw Hc]]].
  - reflexivity.
  - apply filter_In in Hw. destruct Hw as [Hw _].
    pose proof (In_split _ _ _ _ Hw Hc) as Hin.
    unfold toLowerCase in Hin. apply in_map_iff in Hin.
    destruct Hin as [x [<- _]]. apply lower_char_idem.
Qed.

(** The words of a name that went through [removeLocationTerms]. *)
Lemma removeLocationTerms_words (name : jsstring) :
  split " "%char (removeLocationTerms name)
  = match filter (fun word => negb (isLocationTerm word))
            (split " "%char (toLowerCase name)) with
    | [] => [[]]
    | words => words
    end.
Proof.
  rewrite removeLocationTerms_unfold.
  destruct (filter _ _) as [|w ws] eqn:E; [reflexivity|].
  change (lit " ") with [" "%char].
  apply split_join; [discriminate|].
  rewrite <- E. apply Forall_forall. intros x Hx.
  apply filter_In in Hx. destruct Hx as [Hx _].
  pose proof (split_words_no_sep " "%char (toLowerCase name)) as H.
  rewrite Forall_forall in H. apply H, Hx.
Qed.

(** X3. Filtering the location terms twice is the same as filtering them
    once, and no word of the result is a location term. *)
Theorem removeLocationTerms_idempotent (name : jsstring) :
  removeLocationTerms (removeLocationTerms name) = removeLocationTerms name /\
  forall word, In word (split " "%char (removeLocationTerms name)) ->
               array_includes locationTerms word = false.
Proof.
  split.
  - rewrite (removeLocationTerms_unfold (removeLocationTerms name)).
    rewrite removeLocationTerms_lower, removeLocationTerms_words.
    rewrite (removeLocationTerms_unfold name).
    destruct (filter _ (split " "%char (toLowerCase name))) as [|w ws] eqn:E.
    + cbn [filter]. rewrite empty_not_location. reflexivity.
    + rewrite <- E, filter_idem. reflexivity.
  - intros word. rewrite removeLocationTerms_words.
    destruct (filter _ (split " "%char (toLowerCase name))) as [|w ws] eqn:E.
    + intros [<-|[]]. apply empty_not_location.
    + rewrite <- E. intros H. apply filter_In in H.
      destruct H as [_ H]. apply negb_true_iff in H. exact H.
Qed.

Lemma length_toLowerCase (s : jsstring) : length (toLowerCase s) = length s.
Proof. apply length_map. Qed.

Lemma total_length_split (s : jsstring) :
  total_length (split " "%char s) = length s + 1.
Proof.
  pose proof (length_join (split " "%char s)) as H.
  change (lit " ") with [" "%char] in H. rewrite join_split in H.
  pose proof (split_not_nil " "%char s) as Hne.
  destruct (split " "%char s) as [|w ws]; [congruence|].
  rewrite total_length_cons in *. lia.
Qed.

(** Whether [removeLocationTerms] shortened the name. *)
Lemma removeLocationTerms_shorter (name : jsstring) :
  (length (removeLocationTerms name) <? length name)
  = existsb (array_includes locationTerms)
      (split " "%char (toLowerCase name)).
Proof.
  rewrite removeLocationTerms_unfold, length_join.
  pose proof (total_length_split (toLowerCase name)) as Ht.
  rewrite length_toLowerCase in Ht.
  set (ws := split " "%char (toLowerCase name)) in *.
  pose proof (total_length_filter (fun w => negb (isLocationTerm w)) ws) as Hle.
  destruct (existsb (array_includes locationTerms) ws) eqn:E.
  - apply Nat.ltb_lt.
    assert (E' : existsb (fun w => negb (negb (isLocationTerm w))) ws = true).
    { rewrite <- E. apply existsb_pointwise. intros w. apply negb_involutive. }
    pose proof (total_length_filter_lt _ _ E') as Hlt.
    (* when every word goes, one of them was a non-empty location term *)
    destruct (filter (fun w => negb (isLocationTerm w)) ws) as [|w0 ws0] eqn:Ef.
    + apply existsb_exists in E. destruct E as [w [Hw Hl]].
      assert (Hlen : 0 < length w).
      { destruct w; [|cbn [length]; lia].
        change (array_includes locationTerms []) with (isLocationTerm []) in Hl.
        rewrite empty_not_location in Hl. discriminate. }
      assert (Hin : length w + 1 <= total_length ws).
      { clear - Hw. induction ws as [|x ws IH]; [destruct Hw|].
        rewrite total_length_cons. destruct Hw as [->|Hw].
        - lia.
        - specialize (IH Hw). lia. }
      change (total_length []) with 0 in *. lia.
    + rewrite total_length_cons in *. lia.
  - apply Nat.ltb_ge.
    rewrite filter_all; [lia|].
    rewrite <- E. apply existsb_pointwise. intros w. apply negb_involutive.
Qed.

(** X4. The result of [removeLocationTerms] is never longer than the name,
    and it is shorter exactly when a word of the lower-cased name is a
    location term. *)
Theorem removeLocationTerms_shortens (name : jsstring) :
  length (removeLocationTerms name) <= length name /\
  (length (removeLocationTerms name) <? length name)
  = existsb (array_includes locationTerms)
      (split " "%char (toLowerCase name)).
Proof.
  split; [|apply removeLocationTerms_shorter].
  rewrite removeLocationTerms_unfold, length_join.
  pose proof (total_length_split (toLowerCase name)) as Ht.
  rewrite length_toLowerCase in Ht.
  pose proof (total_length_filter (fun w => negb (isLocationTerm w))
                (split " "%char (toLowerCase name))) as Hle.
  lia.
Qed.

(** ** The shape of a cleaned name *)

Lemma word_not_space (c : ascii) : is_word c = true -> is_space c = false.
Proof. each_char c. Qed.

Lemma space_char_is_space : is_space " "%char = true.
Proof. reflexivity. Qed.

Lemma In_dropWhile (p : ascii -> bool) (s : jsstring) (c : ascii) :
  In c (dropWhile p s) -> In c s.
Proof.
  induction s as [|x s IH]; [intros []|].
  cbn [dropWhile]. destruct (p x); [|auto].
  intros H. right. apply IH, H.
Qed.

Lemma dropWhile_hd (p : ascii -> bool) (s : jsstring) (c : ascii) :
  hd_opt (dropWhile p s) = Some c -> p c = false.
Proof.
  induction s as [|x s IH]; [discriminate|].
  cbn [dropWhile]. destruct (p x) eqn:E; [exact IH|].
  cbn [hd_opt]. intros H. inversion H; subst. exact E.
Qed.

Lemma dropWhile_suffix (p : ascii -> bool) (s : jsstring) :
  exists dropped, s = dropped ++ dropWhile p s /\ Forall (fun c => p c = true) dropped.
Proof.
  induction s as [|x s [d [IH Hd]]]; [exists []; split; [reflexivity|constructor]|].
  cbn [dropWhile]. destruct (p x) eqn:E.
  - exists (x :: d). split; [cbn [app]; rewrite <- IH; reflexivity|].
    constructor; assumption.
  - exists []. split; [reflexivity|constructor].
Qed.

Lemma dropWhile_idem (p : ascii -> bool) (s : jsstring) :
  dropWhile p (dropWhile p s) = dropWhile p s.
Proof.
  induction s as [|x s IH]; [reflexivity|].
  cbn [dropWhile]. destruct (p x) eqn:E; [exact IH|].
  cbn [dropWhile]. rewrite E. reflexivity.
Qed.

Lemma dropWhile_app_stop (p : ascii -> bool) (l1 l2 : jsstring) (c : ascii) :
  p c = false -> dropWhile p (l1 ++ c :: l2) = dropWhile p l1 ++ c :: l2.
Proof.
  intros Hc. induction l1 as [|x l1 IH].
  - cbn [app dropWhile]. rewrite Hc. reflexivity.
  - cbn [app dropWhile]. destruct (p x); [exact IH|reflexivity].
Qed.

(** [trimEnd] keeps a prefix of the string. *)
Lemma trimEnd_prefix (s : jsstring) :
  exists dropped, s = trimEnd s ++ dropped /\
                  Forall (fun c => is_space c = true) dropped.
Proof.
  unfold trimEnd.
  destruct (dropWhile_suffix is_space (rev s)) as [d [H Hd]].
  exists (rev d). split.
  - rewrite <- rev_app_distr, <- H, rev_involutive. reflexivity.
  - apply Forall_rev, Hd.
Qed.

Lemma trimEnd_last (s : jsstring) (c : ascii) :
  last_opt (trimEnd s) = Some c -> is_space c = false.
Proof.
  unfold last_opt, trimEnd. rewrite rev_involutive. apply dropWhile_hd.
Qed.

Lemma In_trim (s : jsstring) (c : ascii) : In c (trim s) -> In c s.
Proof.
  unfold trim, trimStart. intros H.
  apply In_dropWhile with (p := is_space).
  destruct (trimEnd_prefix (dropWhile is_space s)) as [d [E _]].
  rewrite E. apply in_or_app. left. exact H.
Qed.

Lemma In_replace_suffixes (s : jsstring) :
  forall before skip c, In c (replace_suffixes before skip s) -> In c s.
Proof.
  induction s as [|x s IH]; intros before skip c; [intros []|].
  cbn [replace_suffixes]. destruct skip as [|k].
  - destruct (match_suffix before (x :: s)) as [[|k]|].
    + intros [<-|H]; [left; reflexivity|right; eapply IH; eauto].
    + intros H. right. eapply IH; eauto.
    + intros [<-|H]; [left; reflexivity|right; eapply IH; eauto].
  - intros H. right. eapply IH; eauto.
Qed.

Lemma In_normalize_spaces (s : jsstring) :
  forall in_run c, In c (normalize_spaces in_run s) ->
                   c = " "%char \/ (In c s /\ is_space c = false).
Proof.
  induction s as [|x s IH]; intros in_run c; [intros []|].
  cbn [normalize_spaces]. destruct (is_space x) eqn:E.
  - destruct in_run.
    + intros H. destruct (IH _ _ H) as [->|[Hin Hs]]; [left; reflexivity|].
      right. split; [right; exact Hin|exact Hs].
    + intros [<-|H]; [left; reflexivity|].
      destruct (IH _ _ H) as [->|[Hin Hs]]; [left; reflexivity|].
      right. split; [right; exact Hin|exact Hs].
  - intros [<-|H]; [right; split; [left; reflexivity|exact E]|].
    destruct (IH _ _ H) as [->|[Hin Hs]]; [left; reflexivity|].
    right. split; [right; exact Hin|exact Hs].
Qed.

(** Every character of a cleaned name is a space, or a word character of
    the lower-cased name. *)
Lemma In_cleanBusinessName (name : jsstring) (c : ascii) :
  In c (cleanBusinessName name) ->
  c = " "%char \/ (is_word c = true /\ In c (toLowerCase name)).
Proof.
  unfold cleanBusinessName. intros H.
  apply In_trim, In_normalize_spaces in H.
  destruct H as [->|[H Hs]]; [left; reflexivity|]. right.
  unfold remove_punctuation in H. apply filter_In in H.
  destruct H as [H Hw]. rewrite Hs, orb_false_r in Hw.
  split; [exact Hw|]. eapply In_replace_suffixes; eauto.
Qed.

Lemma eqb_space_is_space (c : ascii) :
  Ascii.eqb c " "%char = true -> is_space c = true.
Proof. intros H. apply Ascii.eqb_eq in H. subst c. reflexivity. Qed.

Lemma spaced_normalize (s : jsstring) :
  forall in_run,
    Forall (fun c => is_word c || is_space c = true) s ->
    spaced in_run (normalize_spaces in_run s) = true.
Proof.
  induction s as [|x s IH]; intros in_run Hall; [reflexivity|].
  inversion Hall as [|? ? Hx Hs]; subst. cbv beta in Hx.
  cbn [normalize_spaces]. destruct (is_space x) eqn:E.
  - destruct in_run; [apply IH, Hs|].
    cbn [spaced]. rewrite Ascii.eqb_refl. cbn [negb andb]. apply IH, Hs.
  - cbn [spaced]. destruct (Ascii.eqb x " "%char) eqn:Ex.
    + apply eqb_space_is_space in Ex. congruence.
    + rewrite orb_false_r in Hx. rewrite Hx. cbn [andb]. apply IH, Hs.
Qed.

Lemma spaced_trimStart (s : jsstring) :
  forall after_space, spaced after_space s = true ->
                      spaced true (dropWhile is_space s) = true.
Proof.
  induction s as [|x s IH]; intros after_space H; [reflexivity|].
  cbn [dropWhile]. cbn [spaced] in H.
  destruct (Ascii.eqb x " "%char) eqn:Ex.
  - rewrite (eqb_space_is_space _ Ex).
    apply andb_true_iff in H. destruct H as [_ H]. eapply IH, H.
  - apply andb_true_iff in H. destruct H as [Hw H].
    rewrite (word_not_space _ Hw). cbn [spaced]. rewrite Ex, Hw, H. reflexivity.
Qed.

Lemma spaced_prefix (l1 l2 : jsstring) :
  forall after_space, spaced after_space (l1 ++ l2) = true ->
                      spaced after_space l1 = true.
Proof.
  induction l1 as [|x l1 IH]; intros after_space H; [reflexivity|].
  cbn [app spaced] in *. destruct (Ascii.eqb x " "%char).
  - apply andb_true_iff in H. destruct H as [-> H]. cbn [andb]. eapply IH, H.
  - apply andb_true_iff in H. destruct H as [-> H]. cbn [andb]. eapply IH, H.
Qed.

Lemma spaced_cleanBusinessName (name : jsstring) :
  spaced true (cleanBusinessName name) = true.
Proof.
  unfold cleanBusinessName, trim, trimStart.
  set (t := normalize_spaces false _).
  assert (Ht : spaced false t = true).
  { apply spaced_normalize. unfold remove_punctuation.
    apply Forall_forall. intros c Hc. apply filter_In in Hc. apply Hc. }
  apply spaced_trimStart in Ht.
  destruct (trimEnd_prefix (dropWhile is_space t)) as [d [E _]].
  rewrite E in Ht. eapply spaced_prefix, Ht.
Qed.

Lemma last_cleanBusinessName (name : jsstring) :
  last_opt (cleanBusinessName name) <> Some " "%char.
Proof.
  intros H. unfold cleanBusinessName, trim in H.
  apply trimEnd_last in H. discriminate.
Qed.

(** The words of a spaced string that does not end with a space. *)
Lemma spaced_words (s : jsstring) :
  forall after_space,
    spaced after_space s = true -> last_opt s <> Some " "%char -> s <> [] ->
    Forall (fun w => w <> []) (tl (split " "%char s)) /\
    (hd_opt s <> Some " "%char -> hd [] (split " "%char s) <> []).
Proof.
  induction s as [|x s IH]; intros after_space Hs Hlast Hne; [congruence|].
  cbn [spaced] in Hs. cbn [split].
  assert (Hlast' : s <> [] -> last_opt s <> Some " "%char).
  { intros Hs' H. apply Hlast. unfold last_opt in *. cbn [rev].
    destruct (rev s) as [|y r] eqn:Er.
    - apply (f_equal (@rev ascii)) in Er. rewrite rev_involutive in Er.
      cbn [rev] in Er. congruence.
    - cbn [app hd_opt] in *. exact H. }
  destruct (Ascii.eqb x " "%char) eqn:Ex.
  - apply andb_true_iff in Hs. destruct Hs as [_ Hs].
    apply Ascii.eqb_eq in Ex. subst x.
    assert (Hs' : s <> []).
    { intros ->. apply Hlast. reflexivity. }
    destruct (IH true Hs (Hlast' Hs') Hs') as [Htl Hhd].
    split.
    + cbn [tl].
      assert (Hh : hd_opt s <> Some " "%char).
      { destruct s as [|y s]; [congruence|]. cbn [spaced] in Hs.
        cbn [hd_opt]. intros H. inversion H; subst.
        rewrite Ascii.eqb_refl in Hs. discriminate. }
      specialize (Hhd Hh).
      pose proof (split_not_nil " "%char s) as Hn.
      destruct (split " "%char s) as [|w ws]; [congruence|].
      cbn [tl hd] in *. constructor; assumption.
    + cbn [hd_opt]. congruence.
  - apply andb_true_iff in Hs. destruct Hs as [_ Hs].
    destruct s as [|y s].
    + cbn [split tl hd]. split; [constructor|discriminate].
    + destruct (IH false Hs (Hlast' ltac:(discriminate)) ltac:(discriminate))
        as [Htl _].
      pose proof (split_not_nil " "%char (y :: s)) as Hn.
      destruct (split " "%char (y :: s)) as [|w ws]; [congruence|].
      cbn [tl hd] in *. split; [exact Htl|discriminate].
Qed.

Lemma spaced_hd (s : jsstring) :
  spaced true s = true -> hd_opt s <> Some " "%char.
Proof.
  destruct s as [|x s]; [discriminate|].
  cbn [spaced hd_opt]. intros H E. inversion E; subst.
  rewrite Ascii.eqb_refl in H. discriminate.
Qed.

(** X5. A cleaned name is a sequence of words separated by single spaces;
    each word is non-empty and made of word characters that lower-casing
    leaves alone, so the name has no punctuation, no capital letter and no
    space at either end. *)
Theorem cleanBusinessName_shape (name : jsstring) :
  exists words,
    cleanBusinessName name = join (lit " ") words /\
    Forall (fun w => w <> [] /\
                     Forall (fun c => is_word c = true /\ lower_char c = c) w)
           words.
Proof.
  destruct (cleanBusinessName name) as [|x s] eqn:E.
  - exists []. split; [reflexivity|constructor].
  - exists (split " "%char (x :: s)). split.
    + change (lit " ") with [" "%char]. rewrite join_split. reflexivity.
    + pose proof (spaced_cleanBusinessName name) as Hsp.
      pose proof (last_cleanBusinessName name) as Hlast.
      rewrite E in Hsp, Hlast.
      destruct (spaced_words _ _ Hsp Hlast ltac:(discriminate)) as [Htl Hhd].
      specialize (Hhd (spaced_hd _ Hsp)).
      pose proof (split_words_no_sep " "%char (x :: s)) as Hsep.
      assert (Hne : Forall (fun w => w <> []) (split " "%char (x :: s))).
      { destruct (split " "%char (x :: s)) as [|w ws]; [constructor|].
        cbn [tl hd] in *. constructor; assumption. }
      rewrite Forall_forall in Hne, Hsep. apply Forall_forall.
      intros w Hw. split; [apply Hne, Hw|].
      apply Forall_forall. intros c Hc.
      pose proof (In_split _ _ _ _ Hw Hc) as Hin.
      rewrite <- E in Hin. apply In_cleanBusinessName in Hin.
      destruct Hin as [->|[Hword Hlow]].
      * exfalso. apply (Hsep w Hw), Hc.
      * split; [exact Hword|].
        unfold toLowerCase in Hlow. apply in_map_iff in Hlow.
        destruct Hlow as [y [<- _]]. apply lower_char_idem.
Qed.

Lemma cleanBusinessName_lower (name : jsstring) :
  toLowerCase (cleanBusinessName name) = cleanBusinessName name.
Proof.
  apply toLowerCase_fixed, Forall_forall. intros c Hc.
  apply In_cleanBusinessName in Hc. destruct Hc as [->|[_ Hc]]; [reflexivity|].
  unfold toLowerCase in Hc. apply in_map_iff in Hc.
  destruct Hc as [y [<- _]]. apply lower_char_idem.
Qed.

(** ** The relaxed ratio *)

(** X6. The validator asks for 60% of the keywords instead of 75% exactly
    when a word of the cleaned query is a location term. *)
Theorem relaxed_ratio_iff_location_word (searchQuery : jsstring) :
  hasLocationTerms searchQuery
  = existsb (array_includes locationTerms)
      (split " "%char (cleanSearchName searchQuery)) /\
  requiredMatchRatio searchQuery
  = if existsb (array_includes locationTerms)
         (split " "%char (cleanSearchName searchQuery))
    then 0.6%Q else 0.75%Q.
Proof.
  assert (H : hasLocationTerms searchQuery
              = existsb (array_includes locationTerms)
                  (split " "%char (cleanSearchName searchQuery))).
  { unfold hasLocationTerms, searchWithoutLocation.
    rewrite (removeLocationTerms_shorter (cleanSearchName searchQuery)).
    unfold cleanSearchName at 1. rewrite cleanBusinessName_lower.
    reflexivity. }
  split; [exact H|].
  unfold requiredMatchRatio. rewrite H. reflexivity.
Qed.

(** ** What the validator reads of its arguments *)

(** The verdict depends on the query and on the candidate through their
    cleaned names only. *)
Lemma isBusinessNameMatch_cleaned (q1 q2 f1 f2 : jsstring) :
  cleanSearchName q1 = cleanSearchName q2 ->
  cleanFoundName f1 = cleanFoundName f2 ->
  isBusinessNameMatch q1 f1 = isBusinessNameMatch q2 f2.
Proof.
  intros Hq Hf.
  unfold isBusinessNameMatch, exactMatchLocationFiltered, exactMatchFullName,
    keywordVerdict, fallbackSimilarity, requiredMatches, requiredMatchRatio,
    hasLocationTerms, exactHits, totalKeywords, searchWords, foundWords,
    searchWithoutLocation, foundWithoutLocation.
  rewrite Hq, Hf. reflexivity.
Qed.

Lemma dropWhile_toLowerCase (s : jsstring) :
  dropWhile is_space (toLowerCase s) = toLowerCase (dropWhile is_space s).
Proof.
  unfold toLowerCase. induction s as [|c s IH]; [reflexivity|].
  cbn [map dropWhile]. rewrite lower_char_space.
  destruct (is_space c); [exact IH|reflexivity].
Qed.

Lemma trim_toLowerCase (s : jsstring) :
  trim (toLowerCase s) = toLowerCase (trim s).
Proof.
  unfold trim, trimStart, trimEnd. rewrite dropWhile_toLowerCase.
  unfold toLowerCase at 1. rewrite <- map_rev.
  fold (toLowerCase (rev (dropWhile is_space s))).
  rewrite dropWhile_toLowerCase. unfold toLowerCase. rewrite map_rev.
  reflexivity.
Qed.

Lemma split_comma_toLowerCase (s : jsstring) :
  split ","%char (toLowerCase s) = map toLowerCase (split ","%char s).
Proof.
  unfold toLowerCase at 1. induction s as [|c s IH]; [reflexivity|].
  cbn [map split]. rewrite lower_char_comma.
  destruct (Ascii.eqb c ","%char).
  - rewrite IH. reflexivity.
  - rewrite IH. destruct (split ","%char s); reflexivity.
Qed.

Lemma hd_map_toLowerCase (ws : list jsstring) :
  hd [] (map toLowerCase ws) = toLowerCase (hd [] ws).
Proof. destruct ws; reflexivity. Qed.

Lemma searchBusinessName_toLowerCase (q : jsstring) :
  searchBusinessName (toLowerCase q) = searchBusinessName q.
Proof.
  unfold searchBusinessName.
  rewrite trim_toLowerCase, split_comma_toLowerCase, hd_map_toLowerCase,
    trim_toLowerCase, toLowerCase_idem.
  reflexivity.
Qed.

(** X7. The validator does not tell capital letters from small ones, in the
    query or in the candidate name. *)
Theorem isBusinessNameMatch_ignores_case (searchQuery foundBusinessName : jsstring) :
  isBusinessNameMatch (toLowerCase searchQuery) (toLowerCase foundBusinessName)
  = isBusinessNameMatch searchQuery foundBusinessName.
Proof.
  apply isBusinessNameMatch_cleaned.
  - unfold cleanSearchName. rewrite searchBusinessName_toLowerCase. reflexivity.
  - unfold cleanFoundName. rewrite toLowerCase_idem. reflexivity.
Qed.

Lemma dropWhile_fixed (p : ascii -> bool) (s : jsstring) :
  (forall c, hd_opt s = Some c -> p c = false) -> dropWhile p s = s.
Proof.
  destruct s as [|x s]; [reflexivity|].
  intros H. cbn [dropWhile]. rewrite (H x eq_refl). reflexivity.
Qed.

Lemma trimEnd_idem (s : jsstring) : trimEnd (trimEnd s) = trimEnd s.
Proof.
  unfold trimEnd. rewrite rev_involutive, dropWhile_idem. reflexivity.
Qed.

Lemma trimEnd_hd (s : jsstring) (c : ascii) :
  hd_opt (trimEnd s) = Some c -> hd_opt s = Some c.
Proof.
  destruct (trimEnd_prefix s) as [d [E _]].
  destruct (trimEnd s) as [|x t]; [discriminate|].
  rewrite E. cbn [app hd_opt]. auto.
Qed.

Lemma trim_idem (s : jsstring) : trim (trim s) = trim s.
Proof.
  unfold trim at 1. unfold trimStart.
  rewrite (dropWhile_fixed is_space (trim s)).
  - unfold trim. apply trimEnd_idem.
  - intros c H. unfold trim in H. apply trimEnd_hd in H.
    eapply dropWhile_hd, H.
Qed.

Lemma trim_trimStart (s : jsstring) : trim (trimStart s) = trim s.
Proof. unfold trim, trimStart. rewrite dropWhile_idem. reflexivity. Qed.

Lemma trimEnd_app_stop (a x : jsstring) (c : ascii) :
  is_space c = false -> trimEnd (a ++ c :: x) = a ++ c :: trimEnd x.
Proof.
  intros Hc. unfold trimEnd.
  rewrite rev_app_distr. cbn [rev]. rewrite <- app_assoc. cbn [app].
  rewrite dropWhile_app_stop by exact Hc.
  rewrite rev_app_distr. cbn [rev]. rewrite rev_involutive, <- app_assoc.
  reflexivity.
Qed.

Lemma includes_char (s : jsstring) (c : ascii) :
  includes s [c] = false -> ~ In c s.
Proof.
  induction s as [|x s IH]; [intros _ []|].
  cbn [includes startsWith]. rewrite andb_true_r.
  intros H. apply orb_false_iff in H. destruct H as [Hx Hs].
  intros [E|Hin]; [|exact (IH Hs Hin)].
  subst x. rewrite Ascii.eqb_refl in Hx. discriminate.
Qed.

Lemma searchBusinessName_before_comma (q rest : jsstring) :
  ~ In ","%char q ->
  searchBusinessName (q ++ ","%char :: rest) = searchBusinessName q.
Proof.
  intros Hq. unfold searchBusinessName.
  assert (Hstart : ~ In ","%char (trimStart q)).
  { intros H. apply Hq. eapply In_dropWhile, H. }
  assert (Htrim : ~ In ","%char (trim q)).
  { intros H. apply Hq. eapply In_trim, H. }
  unfold trim at 2. unfold trimStart at 1.
  rewrite dropWhile_app_stop by reflexivity.
  rewrite trimEnd_app_stop by reflexivity.
  fold (trimStart q). rewrite split_app_sep by exact Hstart. cbn [hd].
  rewrite trim_trimStart.
  rewrite (split_no_sep _ _ Htrim). cbn [hd]. rewrite trim_idem.
  reflexivity.
Qed.

(** X8. Of a query with a comma the validator reads the part before the
    first comma only: whatever follows it has no influence on the verdict. *)
Theorem isBusinessNameMatch_ignores_text_after_comma
  (businessPart rest foundBusinessName : jsstring) :
  includes businessPart (lit ",") = false ->
  isBusinessNameMatch (businessPart ++ lit "," ++ rest) foundBusinessName
  = isBusinessNameMatch businessPart foundBusinessName.
Proof.
  intros H. apply includes_char in H.
  apply isBusinessNameMatch_cleaned; [|reflexivity].
  unfold cleanSearchName. change (lit "," ++ rest) with (","%char :: rest).
  rewrite searchBusinessName_before_comma by exact H. reflexivity.
Qed.

Lemma isBusinessNameMatch_ignores_text_after_comma_witness :
  isBusinessNameMatch (lit "Ace Plumbing" ++ lit "," ++ lit " Springfield IL")
    (lit "Ace Plumbing LLC")
  = isBusinessNameMatch (lit "Ace Plumbing") (lit "Ace Plumbing LLC").
Proof.
  apply (isBusinessNameMatch_ignores_text_after_comma
           (lit "Ace Plumbing") (lit " Springfield IL") (lit "Ace Plumbing LLC")).
  vm_compute. reflexivity.
Defined.

(** ** The category match *)

Section TypeMatchProperties.

Import Variations TypeMatch.

Lemma str_eqb_sym (a b : jsstring) : str_eqb a b = str_eqb b a.
Proof.
  destruct (str_eqb a b) eqn:E1, (str_eqb b a) eqn:E2; try reflexivity.
  - apply str_eqb_eq in E1. subst. rewrite str_eqb_refl in E2. discriminate.
  - apply str_eqb_eq in E2. subst. rewrite str_eqb_refl in E1. discriminate.
Qed.

Lemma words_overlap_sym (a b : jsstring) : words_overlap a b = words_overlap b a.
Proof.
  unfold words_overlap. rewrite (str_eqb_sym a b).
  rewrite <- !orb_assoc. f_equal. apply orb_comm.
Qed.

Lemma wordMatches_from (searchWords foundWords : list jsstring) :
  forall count,
    fold_left
      (fun count searchWord =>
         if existsb (words_overlap searchWord) foundWords
         then count + 1 else count)
      searchWords count
    = count
      + length (filter (fun searchWord =>
                          existsb (words_overlap searchWord) foundWords)
                  searchWords).
Proof.
  induction searchWords as [|w ws IH]; intros count; cbn [fold_left filter].
  - cbn [length]. lia.
  - rewrite IH. destruct (existsb (words_overlap w) foundWords);
      cbn [length]; lia.
Qed.

(** Some search word overlaps with some found word. *)
Lemma wordMatches_positive (searchWords foundWords : list jsstring) :
  (0 <? wordMatches searchWords foundWords)
  = existsb (fun searchWord => existsb (words_overlap searchWord) foundWords)
      searchWords.
Proof.
  unfold wordMatches. rewrite wordMatches_from. cbn [Nat.add].
  induction searchWords as [|w ws IH]; [reflexivity|].
  cbn [filter existsb].
  destruct (existsb (words_overlap w) foundWords); [reflexivity|exact IH].
Qed.

Lemma existsb_swap {A B : Type} (f : A -> B -> bool) (l1 : list A) (l2 : list B) :
  existsb (fun a => existsb (f a) l2) l1
  = existsb (fun b => existsb (fun a => f a b) l1) l2.
Proof.
  destruct (existsb (fun a => existsb (f a) l2) l1) eqn:E1;
    destruct (existsb (fun b => existsb (fun a => f a b) l1) l2) eqn:E2;
    try reflexivity.
  - apply existsb_exists in E1. destruct E1 as [a [Ha E1]].
    apply existsb_exists in E1. destruct E1 as [b [Hb E1]].
    assert (E : existsb (fun b => existsb (fun a => f a b) l1) l2 = true).
    { apply existsb_exists. exists b. split; [exact Hb|].
      apply existsb_exists. exists a. split; assumption. }
    congruence.
  - apply existsb_exists in E2. destruct E2 as [b [Hb E2]].
    apply existsb_exists in E2. destruct E2 as [a [Ha E2]].
    assert (E : existsb (fun a => existsb (f a) l2) l1 = true).
    { apply existsb_exists. exists a. split; [exact Ha|].
      apply existsb_exists. exists b. split; assumption. }
    congruence.
Qed.

Lemma wordMatches_positive_sym (ws1 ws2 : list jsstring) :
  (0 <? wordMatches ws1 ws2) = (0 <? wordMatches ws2 ws1).
Proof.
  rewrite !wordMatches_positive, existsb_swap.
  apply existsb_pointwise. intros b.
  apply existsb_pointwise. intros a. apply words_overlap_sym.
Qed.

Lemma wordMatches_positive_length (ws1 ws2 : list jsstring) :
  (0 <? wordMatches ws1 ws2) = true ->
  (0 <? length ws1) = true /\ (0 <? length ws2) = true.
Proof.
  rewrite wordMatches_positive. intros H.
  apply existsb_exists in H. destruct H as [a [Ha H]].
  apply existsb_exists in H. destruct H as [b [Hb _]].
  destruct ws1, ws2; try contradiction. split; reflexivity.
Qed.

(** The category match in one formula. *)
Lemma isBusinessTypeMatch_formula (s f category : jsstring) :
  isBusinessTypeMatch s f category
  = str_eqb category (lit "pest control")
    && existsb (fun keyword => includes (toLowerCase s) keyword)
         pestControlKeywords
    && existsb (fun keyword => includes (toLowerCase f) keyword)
         pestControlKeywords
    && (0 <? wordMatches (extractBusinessWords (toLowerCase s))
                         (extractBusinessWords (toLowerCase f))).
Proof.
  unfold isBusinessTypeMatch.
  destruct (str_eqb category (lit "pest control")); [|reflexivity].
  destruct (existsb _ pestControlKeywords); [|reflexivity].
  destruct (existsb _ pestControlKeywords); [|reflexivity].
  cbn [andb].
  destruct (0 <? wordMatches _ _) eqn:E; [|reflexivity].
  apply wordMatches_positive_length in E. destruct E as [-> _]. reflexivity.
Qed.

(** X9. The category match does not depend on which of the two names is the
    searched one and which the found one. *)
Theorem isBusinessTypeMatch_symmetric
  (searchedBusinessName foundBusinessName expectedCategory : jsstring) :
  isBusinessTypeMatch searchedBusinessName foundBusinessName expectedCategory
  = isBusinessTypeMatch foundBusinessName searchedBusinessName expectedCategory.
Proof.
  rewrite !isBusinessTypeMatch_formula.
  rewrite (wordMatches_positive_sym
             (extractBusinessWords (toLowerCase searchedBusinessName))).
  destruct (str_eqb _ _), (existsb _ pestControlKeywords),
    (existsb _ pestControlKeywords), (0 <? _); reflexivity.
Qed.

(** X10. The category match accepts only for the category [pest control],
    only names that both contain a pest-control keyword, and only when a
    distinctive word of one name overlaps with a distinctive word of the
    other. *)
Theorem isBusinessTypeMatch_accepts_only
  (searchedBusinessName foundBusinessName expectedCategory : jsstring) :
  isBusinessTypeMatch searchedBusinessName foundBusinessName expectedCategory
  = true ->
  expectedCategory = lit "pest control" /\
  (exists keyword, In keyword pestControlKeywords /\
     includes (toLowerCase searchedBusinessName) keyword = true) /\
  (exists keyword, In keyword pestControlKeywords /\
     includes (toLowerCase foundBusinessName) keyword = true) /\
  exists searchWord foundWord,
    In searchWord (extractBusinessWords searchedBusinessName) /\
    In foundWord (extractBusinessWords foundBusinessName) /\
    words_overlap searchWord foundWord = true.
Proof.
  rewrite isBusinessTypeMatch_formula, !andb_true_iff.
  intros [[[Hc Hs] Hf] Hw].
  apply str_eqb_eq in Hc. apply existsb_exists in Hs, Hf.
  rewrite wordMatches_positive in Hw.
  apply existsb_exists in Hw. destruct Hw as [a [Ha Hw]].
  apply existsb_exists in Hw. destruct Hw as [b [Hb Hw]].
  unfold extractBusinessWords in Ha, Hb. rewrite toLowerCase_idem in Ha, Hb.
  repeat split; auto. exists a, b. auto.
Qed.

Lemma isBusinessTypeMatch_accepts_only_witness :
  lit "pest control" = lit "pest control" /\
  (exists keyword, In keyword pestControlKeywords /\
     includes (toLowerCase (lit "Bugzapper Pest Control")) keyword = true) /\
  (exists keyword, In keyword pestControlKeywords /\
     includes (toLowerCase (lit "Bugzapper Exterminator Inc")) keyword = true) /\
  exists searchWord foundWord,
    In searchWord (extractBusinessWords (lit "Bugzapper Pest Control")) /\
    In foundWord (extractBusinessWords (lit "Bugzapper Exterminator Inc")) /\
    words_overlap searchWord foundWord = true.
Proof.
  apply (isBusinessTypeMatch_accepts_only
           (lit "Bugzapper Pest Control") (lit "Bugzapper Exterminator Inc")
           (lit "pest control")).
  vm_compute. reflexivity.
Defined.

(** Every word [extractBusinessWords] returns is non-empty and made of the
    letters a to z only, and there are no more of them than pieces between
    the white space of the name. *)
Lemma extractBusinessWords_letters (businessName : jsstring) :
  Forall (fun word => word <> [] /\
                      Forall (fun c => is_lower_letter c = true) word)
         (extractBusinessWords businessName) /\
  length (extractBusinessWords businessName)
  <= length (split_spaces false (toLowerCase businessName)).
Proof.
  unfold extractBusinessWords. split.
  - apply Forall_forall. intros w Hw.
    apply filter_In in Hw. destruct Hw as [Hw Hlen].
    split; [destruct w; [discriminate|discriminate]|].
    apply in_map_iff in Hw. destruct Hw as [x [<- _]].
    apply Forall_forall. intros c Hc. apply filter_In in Hc. apply Hc.
  - eapply Nat.le_trans; [apply filter_length_le|].
    rewrite length_map. apply filter_length_le.
Qed.

End TypeMatchProperties.

(** ** The business type *)

Section BusinessTypeProperties.

Import BusinessType.

Lemma array_includes_In (arr : list jsstring) (word : jsstring) :
  array_includes arr word = true <-> In word arr.
Proof.
  unfold array_includes. rewrite existsb_exists. split.
  - intros [x [Hx E]]. apply str_eqb_eq in E. subst. exact Hx.
  - intros H. exists word. split; [exact H|apply str_eqb_refl].
Qed.

Lemma find_first {A : Type} (f : A -> bool) (l : list A) (x : A) :
  find f l = Some x ->
  exists before after,
    l = before ++ x :: after /\ f x = true /\
    forall b, In b before -> f b = false.
Proof.
  induction l as [|y l IH]; [discriminate|].
  cbn [find]. destruct (f y) eqn:E.
  - intros H. inversion H; subst.
    exists [], l. split; [reflexivity|]. split; [exact E|intros b []].
  - intros H. destruct (IH H) as [before [after [-> [Hx Hb]]]].
    exists (y :: before), after. split; [reflexivity|]. split; [exact Hx|].
    intros b [<-|Hin]; [exact E|apply Hb, Hin].
Qed.

(** X11. The business type is [establishment] or one of the types of the
    place, and never one of the other two generic types. *)
Theorem getBusinessType_result (types : option (list jsstring)) :
  (getBusinessType types = lit "establishment" \/
   exists ts, types = Some ts /\ In (getBusinessType types) ts) /\
  getBusinessType types <> lit "point_of_interest" /\
  getBusinessType types <> lit "premise".
Proof.
  destruct types as [ts|]; cbn [getBusinessType].
  2:{ split; [left; reflexivity|]. split; discriminate. }
  destruct (find (fun businessType => array_includes ts businessType)
              priorityTypes) as [p|] eqn:E1.
  - apply find_some in E1. destruct E1 as [Hp Hin].
    apply array_includes_In in Hin.
    split; [right; exists ts; auto|].
    split; intros ->; revert Hp; clear;
      intros Hp; apply array_includes_In in Hp; vm_compute in Hp;
      discriminate.
  - destruct (find (fun type => negb (array_includes genericTypes type)) ts)
      as [t|] eqn:E2.
    + apply find_some in E2. destruct E2 as [Hin Hg].
      split; [right; exists ts; auto|].
      split; intros ->; vm_compute in Hg; discriminate.
    + split; [left; reflexivity|]. split; discriminate.
Qed.

(** X12. When the place has a type of the priority list, the business type
    is the first entry of the priority list that is among the types of the
    place, whatever the order of the place's own types. *)
Theorem getBusinessType_priority (ts : list jsstring) (p : jsstring) :
  array_includes priorityTypes p = true ->
  array_includes ts p = true ->
  exists before after,
    priorityTypes = before ++ getBusinessType (Some ts) :: after /\
    In (getBusinessType (Some ts)) ts /\
    forall earlier, In earlier before -> ~ In earlier ts.
Proof.
  intros Hp Hts. cbn [getBusinessType].
  destruct (find (fun businessType => array_includes ts businessType)
              priorityTypes) as [r|] eqn:E.
  - destruct (find_first _ _ _ E) as [before [after [Hl [Hr Hb]]]].
    exists before, after. split; [exact Hl|].
    split; [apply array_includes_In, Hr|].
    intros earlier Hin H. apply array_includes_In in H.
    rewrite (Hb earlier Hin) in H. discriminate.
  - exfalso. apply array_includes_In in Hp.
    pose proof (find_none _ _ E p Hp) as H. cbv beta in H. congruence.
Qed.

Lemma getBusinessType_priority_witness :
  exists before after,
    priorityTypes
    = before
      ++ getBusinessType
           (Some [lit "point_of_interest"; lit "cafe"; lit "restaurant"])
      :: after /\
    In (getBusinessType
          (Some [lit "point_of_interest"; lit "cafe"; lit "restaurant"]))
       [lit "point_of_interest"; lit "cafe"; lit "restaurant"] /\
    forall earlier, In earlier before ->
      ~ In earlier [lit "point_of_interest"; lit "cafe"; lit "restaurant"].
Proof.
  apply (getBusinessType_priority
           [lit "point_of_interest"; lit "cafe"; lit "restaurant"] (lit "cafe"));
    vm_compute; reflexivity.
Defined.

End BusinessTypeProperties.

(** ** The agency name *)

Section AgencyProperties.

Import Agency.

(** X13. The sanitised agency name is the default or the name given, it is
    never empty, and it never contains one of the test names, in any case of
    the letters. *)
Theorem getSanitizedAgencyName_never_test (agencyName : option jsstring) :
  (getSanitizedAgencyName agencyName = lit "Review Rocket" \/
   agencyName = Some (getSanitizedAgencyName agencyName)) /\
  getSanitizedAgencyName agencyName <> [] /\
  forall testName, In testName testNames ->
    includes (toLowerCase (getSanitizedAgencyName agencyName)) testName = false.
Proof.
  assert (Hdefault :
            forall testName, In testName testNames ->
              includes (toLowerCase (lit "Review Rocket")) testName = false).
  { intros t Ht.
    assert (E : existsb (fun t => includes (toLowerCase (lit "Review Rocket")) t)
                  testNames = false) by (vm_compute; reflexivity).
    destruct (includes (toLowerCase (lit "Review Rocket")) t) eqn:Et;
      [|reflexivity].
    assert (E' : existsb (fun t => includes (toLowerCase (lit "Review Rocket")) t)
                   testNames = true)
      by (apply existsb_exists; exists t; auto).
    congruence. }
  destruct agencyName as [[|c cs]|]; cbn [getSanitizedAgencyName].
  - split; [left; reflexivity|]. split; [discriminate|exact Hdefault].
  - destruct (existsb _ testNames) eqn:E.
    + split; [left; reflexivity|]. split; [discriminate|exact Hdefault].
    + split; [right; reflexivity|]. split; [discriminate|].
      intros t Ht.
      destruct (includes (toLowerCase (c :: cs)) t) eqn:Et; [|reflexivity].
      assert (E' : existsb (fun t => includes (toLowerCase (c :: cs)) t)
                     testNames = true)
        by (apply existsb_exists; exists t; auto).
      congruence.
  - split; [left; reflexivity|]. split; [discriminate|exact Hdefault].
Qed.

End AgencyProperties.

(** ** The search variants *)

Section VariationsProperties.

Import Variations.

Lemma set_add_In (set : list jsstring) (x y : jsstring) :
  In y (set_add set x) <-> In y set \/ y = x.
Proof.
  unfold set_add. destruct (array_includes set x) eqn:E.
  - apply array_includes_In in E. split; [auto|]. intros [H| ->]; assumption.
  - rewrite in_app_iff. cbn [In]. split.
    + intros [H|[H|[]]]; auto.
    + intros [H|H]; auto.
Qed.

Lemma set_add_NoDup (set : list jsstring) (x : jsstring) :
  NoDup set -> NoDup (set_add set x).
Proof.
  intros H. unfold set_add. destruct (array_includes set x) eqn:E; [exact H|].
  apply NoDup_app; [exact H|constructor; [intros []|constructor]|].
  intros y Hy [<-|[]].
  apply array_includes_In in Hy. congruence.
Qed.

Lemma set_add_prefix (set : list jsstring) (x : jsstring) :
  exists added, set_add set x = set ++ added /\ length added <= 1.
Proof.
  unfold set_add. destruct (array_includes set x).
  - exists []. rewrite app_nil_r. split; [reflexivity|cbn [length]; lia].
  - exists [x]. split; [reflexivity|cbn [length]; lia].
Qed.

Lemma fold_set_add (xs : list jsstring) :
  forall set,
    NoDup set ->
    NoDup (fold_left set_add xs set) /\
    (forall y, In y (fold_left set_add xs set) <-> In y set \/ In y xs) /\
    exists added, fold_left set_add xs set = set ++ added /\
                  length added <= length xs.
Proof.
  induction xs as [|x xs IH]; intros set Hset; cbn [fold_left].
  - split; [exact Hset|]. split; [intros y; cbn [In]; tauto|].
    exists []. rewrite app_nil_r. split; [reflexivity|apply Nat.le_refl].
  - destruct (IH (set_add set x) (set_add_NoDup _ x Hset)) as [Hnd [Hin Hpre]].
    split; [exact Hnd|]. split.
    + intros y. rewrite Hin, set_add_In. cbn [In]. intuition auto.
    + destruct Hpre as [added [E Hlen]].
      destruct (set_add_prefix set x) as [a [Ea Hla]].
      exists (a ++ added). rewrite E, Ea, <- app_assoc.
      split; [reflexivity|]. rewrite length_app. cbn [length]. lia.
Qed.

(** [Array.from(new Set(xs))] keeps the first element first, has no
    duplicate, and has the elements of [xs]. *)
Lemma unique_spec (x : jsstring) (xs : list jsstring) :
  (exists others, unique (x :: xs) = x :: others) /\
  NoDup (unique (x :: xs)) /\
  length (unique (x :: xs)) <= S (length xs) /\
  forall y, In y (unique (x :: xs)) <-> In y (x :: xs).
Proof.
  unfold unique. cbn [fold_left].
  change (set_add [] x) with [x].
  assert (Hx : NoDup [x]) by (constructor; [intros []|constructor]).
  destruct (fold_set_add xs [x] Hx) as [Hnd [Hin [added [E Hlen]]]].
  split; [exists added; exact E|]. split; [exact Hnd|]. split.
  - rewrite E. cbn [app length]. lia.
  - intros y. rewrite Hin. cbn [In]. intuition auto.
Qed.

(** The variants before the duplicates are removed: the input, then at
    most eight more, of which at most two when the input has no comma. *)
Lemma generateSearchVariations_raw (input : jsstring) :
  exists rest,
    generateSearchVariations input = unique (input :: rest) /\
    length rest <= 8 /\
    (includes (trim input) (lit ",") = false -> length rest <= 2).
Proof.
  unfold generateSearchVariations. cbv zeta.
  destruct (includes (trim input) (lit ",")) eqn:Hc; cbn [negb andb];
    repeat match goal with
           | |- context [if ?c then _ else _] => destruct c
           end;
    cbn [app];
    eexists; (split; [reflexivity|]); cbn [length];
    (split; [lia|intros; try discriminate; lia]).
Qed.

Lemma generateSearchVariations_head (input : jsstring) :
  exists others, generateSearchVariations input = input :: others.
Proof.
  destruct (generateSearchVariations_raw input) as [rest [-> _]].
  apply unique_spec.
Qed.

(** X14. The variants of a query start with the query itself, contain no
    duplicate and are at most nine; a query without a comma has at most
    three. *)
Theorem generateSearchVariations_shape (input : jsstring) :
  (exists others, generateSearchVariations input = input :: others) /\
  NoDup (generateSearchVariations input) /\
  length (generateSearchVariations input) <= 9 /\
  (includes (trim input) (lit ",") = false ->
   length (generateSearchVariations input) <= 3).
Proof.
  destruct (generateSearchVariations_raw input) as [rest [-> [H8 H2]]].
  destruct (unique_spec input rest) as [Hhd [Hnd [Hlen _]]].
  split; [exact Hhd|]. split; [exact Hnd|]. split; [lia|].
  intros H. specialize (H2 H). lia.
Qed.

End VariationsProperties.

(** ** The search by text *)

Section ProviderProperties.

Import Js Variations TypeMatch Places.

Variable apiKey : result jsstring.
Variable fetchFindPlace : jsstring -> result FindPlaceData.
Variable fetchTextSearch : jsstring -> result TextSearchData.
Variable fetchDetails : jsstring -> result DetailsData.

(** What [validated] accepts. *)
Lemma validated_true (searchText variation candidateName : jsstring) :
  validated searchText variation candidateName = true ->
  isBusinessNameMatch searchText candidateName = true \/
  ((includes variation (lit "pest control")
    || includes variation (lit "exterminator")) = true /\
   isBusinessTypeMatch searchText candidateName (lit "pest control") = true).
Proof.
  unfold validated.
  destruct (isBusinessNameMatch searchText candidateName); [auto|].
  cbn [negb andb].
  destruct (includes variation (lit "pest control")
            || includes variation (lit "exterminator")); [auto|discriminate].
Qed.

(** A turn of the loop that returns a place. *)
Lemma tryVariation_returns (searchText variation : jsstring)
  (place : option PlaceDetails) :
  Places.tryVariation apiKey fetchFindPlace fetchTextSearch fetchDetails searchText variation = Ok (Return place) ->
  exists candidate,
    place = Some (fromCandidate candidate) /\
    validated searchText variation (cand_name candidate) = true /\
    ((exists data rest,
         fetchFindPlace variation = Ok data /\
         fp_candidates data = Some (candidate :: rest)) \/
     (exists data rest,
         fetchTextSearch variation = Ok data /\
         ts_results data = Some (candidate :: rest)))
    \/
    (exists id,
        cand_place_id candidate = Some id /\ Places.getPlaceDetails apiKey fetchDetails id = place /\
        place <> None /\
        validated searchText variation (cand_name candidate) = true /\
        exists data rest,
          fetchFindPlace variation = Ok data /\
          fp_candidates data = Some (candidate :: rest)).
Proof.
  unfold Places.tryVariation.
  destruct apiKey as [k|e]; [|discriminate]. cbn [bind].
  destruct (fetchFindPlace variation) as [fp|e] eqn:Efp; [|discriminate].
  cbn [bind].
  destruct (if str_eqb (fp_status fp) (lit "OK") then fp_candidates fp else None)
    as [[|candidate rest]|] eqn:Ec.
  - (* an empty list of candidates: the text search *)
    destruct (fetchTextSearch variation) as [ts|e] eqn:Ets; [|discriminate].
    cbn [bind].
    destruct (if str_eqb (ts_status ts) (lit "OK") then ts_results ts else None)
      as [[|result rest]|] eqn:Er; try discriminate.
    destruct (validated searchText variation (cand_name result)) eqn:Ev;
      cbn [negb]; [|discriminate].
    intros H. inversion H; subst. exists result. left.
    split; [reflexivity|]. split; [exact Ev|]. right.
    exists ts, rest. split; [reflexivity|].
    destruct (str_eqb (ts_status ts) (lit "OK")); [exact Er|discriminate].
  - destruct (validated searchText variation (cand_name candidate)) eqn:Ev;
      cbn [negb]; [|discriminate].
    assert (Hc : fp_candidates fp = Some (candidate :: rest)).
    { destruct (str_eqb (fp_status fp) (lit "OK")); [exact Ec|discriminate]. }
    destruct (cand_place_id candidate) as [[|c cs]|] eqn:Eid.
    + intros H. inversion H; subst. exists candidate. left.
      split; [reflexivity|]. split; [exact Ev|]. left. exists fp, rest. auto.
    + destruct (falsy_number (cand_rating candidate)
                || falsy_number (cand_user_ratings_total candidate)).
      * destruct (Places.getPlaceDetails _ fetchDetails (c :: cs))
          as [full|] eqn:Ed.
        -- intros H. inversion H; subst. exists candidate. right.
           exists (c :: cs). split; [exact Eid|]. split; [exact Ed|].
           split; [discriminate|]. split; [exact Ev|]. exists fp, rest. auto.
        -- intros H. inversion H; subst. exists candidate. left.
           split; [reflexivity|]. split; [exact Ev|]. left.
           exists fp, rest. auto.
      * intros H. inversion H; subst. exists candidate. left.
        split; [reflexivity|]. split; [exact Ev|]. left. exists fp, rest. auto.
    + intros H. inversion H; subst. exists candidate. left.
      split; [reflexivity|]. split; [exact Ev|]. left. exists fp, rest. auto.
  - destruct (fetchTextSearch variation) as [ts|e] eqn:Ets; [|discriminate].
    cbn [bind].
    destruct (if str_eqb (ts_status ts) (lit "OK") then ts_results ts else None)
      as [[|result rest]|] eqn:Er; try discriminate.
    destruct (validated searchText variation (cand_name result)) eqn:Ev;
      cbn [negb]; [|discriminate].
    intros H. inversion H; subst. exists result. left.
    split; [reflexivity|]. split; [exact Ev|]. right.
    exists ts, rest. split; [reflexivity|].
    destruct (str_eqb (ts_status ts) (lit "OK")); [exact Er|discriminate].
Qed.

Lemma tryVariations_returns (searchText : jsstring) (variations : list jsstring)
  (place : PlaceDetails) :
  Places.tryVariations apiKey fetchFindPlace fetchTextSearch fetchDetails searchText variations = Ok (Some place) ->
  exists variation,
    In variation variations /\
    Places.tryVariation apiKey fetchFindPlace fetchTextSearch fetchDetails searchText variation = Ok (Return (Some place)).
Proof.
  induction variations as [|v vs IH]; [discriminate|].
  cbn [Places.tryVariations].
  destruct (Places.tryVariation apiKey fetchFindPlace fetchTextSearch fetchDetails searchText v) as [[p|]|e] eqn:E; cbn [bind].
  - intros H. inversion H; subst. exists v. split; [left; reflexivity|exact E].
  - intros H. destruct (IH H) as [x [Hx Ex]]. exists x. split; [right|]; auto.
  - discriminate.
Qed.

Lemma searchByText_returns (searchText : jsstring) (place : PlaceDetails) :
  Places.searchByText apiKey fetchFindPlace fetchTextSearch fetchDetails searchText = Some place ->
  exists variation,
    In variation (generateSearchVariations searchText) /\
    Places.tryVariation apiKey fetchFindPlace fetchTextSearch fetchDetails searchText variation = Ok (Return (Some place)).
Proof.
  unfold Places.searchByText. intros H. apply tryVariations_returns.
  destruct (Places.tryVariations apiKey fetchFindPlace fetchTextSearch fetchDetails searchText (generateSearchVariations searchText))
    as [[p|]|e]; cbn [try_catch] in H; try discriminate.
  inversion H; subst. reflexivity.
Qed.

(** X15. Every place the search by text returns was validated: it is, or it
    is the Place Details of, the first candidate the provider gave for one
    of the variants of the query, and the name of that candidate passed the
    name match, or the category match on a variant that names pest control. *)
Theorem searchByText_validated (searchText : jsstring) (place : PlaceDetails) :
  Places.searchByText apiKey fetchFindPlace fetchTextSearch fetchDetails searchText = Some place ->
  exists variation candidate,
    In variation (generateSearchVariations searchText) /\
    (isBusinessNameMatch searchText (cand_name candidate) = true \/
     ((includes variation (lit "pest control")
       || includes variation (lit "exterminator")) = true /\
      isBusinessTypeMatch searchText (cand_name candidate) (lit "pest control")
      = true)) /\
    ((exists data rest,
         fetchFindPlace variation = Ok data /\
         fp_candidates data = Some (candidate :: rest)) \/
     (exists data rest,
         fetchTextSearch variation = Ok data /\
         ts_results data = Some (candidate :: rest))) /\
    (place = fromCandidate candidate \/
     exists id, cand_place_id candidate = Some id /\
                Places.getPlaceDetails apiKey fetchDetails id = Some place).
Proof.
  intros H. destruct (searchByText_returns _ _ H) as [v [Hv Ht]].
  destruct (tryVariation_returns _ _ _ Ht)
    as [c [[Hp [Hval Hsrc]]|[id [Hid [Hd [_ [Hval Hsrc]]]]]]].
  - exists v, c. split; [exact Hv|]. split; [apply validated_true, Hval|].
    split; [exact Hsrc|]. left. inversion Hp. reflexivity.
  - exists v, c. split; [exact Hv|]. split; [apply validated_true, Hval|].
    split; [left; exact Hsrc|]. right. exists id. auto.
Qed.

(** X16. The flag of incomplete data can be relied on: a place returned with
    the flag off has a rating and a review count that are not zero, a place
    returned with the flag on lacks one of them, and a place without the
    flag is a Place Details result. *)
Theorem searchByText_incomplete_flag (searchText : jsstring)
  (place : PlaceDetails) :
  Places.searchByText apiKey fetchFindPlace fetchTextSearch fetchDetails searchText = Some place ->
  match hasIncompleteData place with
  | Some false =>
      exists r n, rating place = Some r /\ ~ (r == 0)%Q /\
                  user_ratings_total place = Some n /\ ~ (n == 0)%Q
  | Some true =>
      rating place = None \/ user_ratings_total place = None \/
      (exists r, rating place = Some r /\ (r == 0)%Q) \/
      (exists n, user_ratings_total place = Some n /\ (n == 0)%Q)
  | None => exists id, Places.getPlaceDetails apiKey fetchDetails id = Some place
  end.
Proof.
  intros H. destruct (searchByText_returns _ _ H) as [v [_ Ht]].
  destruct (tryVariation_returns _ _ _ Ht)
    as [c [[Hp _]|[id [_ [Hd _]]]]].
  - inversion Hp; subst. unfold fromCandidate, incomplete.
    cbn [hasIncompleteData rating user_ratings_total].
    destruct (cand_rating c) as [r|], (cand_user_ratings_total c) as [n|];
      cbn [falsy_number is_zero orb].
    + destruct (Qeq_bool r 0) eqn:Er; cbn [orb].
      * apply Qeq_bool_iff in Er. right. right. left. exists r. auto.
      * destruct (Qeq_bool n 0) eqn:En; cbn [orb].
        -- apply Qeq_bool_iff in En. right. right. right. exists n. auto.
        -- exists r, n. split; [reflexivity|].
           split; [intros E; apply Qeq_bool_iff in E; congruence|].
           split; [reflexivity|].
           intros E; apply Qeq_bool_iff in E; congruence.
    + destruct (Qeq_bool r 0); cbn [orb]; auto.
    + auto.
    + auto.
  - assert (Hnone : hasIncompleteData place = None).
    { unfold Places.getPlaceDetails in Hd.
      destruct apiKey; cbn [bind try_catch] in Hd; [|discriminate].
      destruct (fetchDetails id) as [d|]; cbn [bind try_catch] in Hd;
        [|discriminate].
      destruct (str_eqb (pd_status d) (lit "OK")); cbn [try_catch] in Hd;
        [|discriminate].
      destruct (pd_result d); cbn [option_map] in Hd; [|discriminate].
      inversion Hd. reflexivity. }
    rewrite Hnone. exists id. exact Hd.
Qed.

(** X17. An exception ends the whole search: when no key can be had, or when
    the Find Place request for the query itself throws, the result is null,
    whatever the other variants would have found. *)
Theorem searchByText_error_is_null (searchText : jsstring) :
  (exists e, apiKey = Throw e) \/
  (exists e, fetchFindPlace searchText = Throw e) ->
  Places.searchByText apiKey fetchFindPlace fetchTextSearch fetchDetails searchText = None.
Proof.
  intros H. unfold Places.searchByText.
  destruct (generateSearchVariations_head searchText) as [others ->].
  cbn [Places.tryVariations]. unfold Places.tryVariation.
  destruct H as [[e ->]|[e He]]; [reflexivity|].
  destruct apiKey; [|reflexivity]. cbn [bind]. rewrite He. reflexivity.
Qed.

End ProviderProperties.

Lemma searchByText_validated_witness :
  exists variation candidate,
    In variation (Variations.generateSearchVariations
                    (lit "Bugzapper Pest Control, Springfield IL")) /\
    (isBusinessNameMatch (lit "Bugzapper Pest Control, Springfield IL")
       (Places.cand_name candidate) = true \/
     ((includes variation (lit "pest control")
       || includes variation (lit "exterminator")) = true /\
      TypeMatch.isBusinessTypeMatch
        (lit "Bugzapper Pest Control, Springfield IL")
        (Places.cand_name candidate) (lit "pest control") = true)) /\
    ((exists data rest,
         SampleProvider.findPlace variation = Js.Ok data /\
         Places.fp_candidates data = Some (candidate :: rest)) \/
     (exists data rest,
         SampleProvider.textSearch variation = Js.Ok data /\
         Places.ts_results data = Some (candidate :: rest))) /\
    (SampleProvider.bugzapper_place = Places.fromCandidate candidate \/
     exists id, Places.cand_place_id candidate = Some id /\
                Places.getPlaceDetails SampleProvider.key SampleProvider.details id
                = Some SampleProvider.bugzapper_place).
Proof.
  apply (searchByText_validated SampleProvider.key SampleProvider.findPlace
           SampleProvider.textSearch SampleProvider.details
           (lit "Bugzapper Pest Control, Springfield IL")
           SampleProvider.bugzapper_place).
  vm_compute. reflexivity.
Defined.

Lemma searchByText_incomplete_flag_witness :
  exists r n,
    Places.rating SampleProvider.bugzapper_place = Some r /\ ~ (r == 0)%Q /\
    Places.user_ratings_total SampleProvider.bugzapper_place = Some n /\
    ~ (n == 0)%Q.
Proof.
  apply (searchByText_incomplete_flag SampleProvider.key
           SampleProvider.findPlace SampleProvider.textSearch
           SampleProvider.details
           (lit "Bugzapper Pest Control, Springfield IL")
           SampleProvider.bugzapper_place).
  vm_compute. reflexivity.
Defined.

Lemma searchByText_error_is_null_witness :
  Places.searchByText SampleProvider.key SampleProvider.unreachable
    SampleProvider.textSearch SampleProvider.details
    (lit "Bugzapper Pest Control, Springfield IL") = None.
Proof.
  apply (searchByText_error_is_null SampleProvider.key
           SampleProvider.unreachable SampleProvider.textSearch
           SampleProvider.details).
  right. exists (Js.Error (lit "fetch failed")). reflexivity.
Defined.

(** ** Nearby places *)


Section NearbyProperties.

Import Js Places.

Variable apiKey : result jsstring.
Variable fetchNearby : jsstring -> result NearbyData.






End NearbyProperties.

(** ** The provider key *)

Section ApiKeyProperties.

Import Js Places.

(** The key [getApiKey] returns is never empty: it is the trimmed
    environment variable when that is not blank, whatever the store holds
    or does, and otherwise the value of the stored record; without either
    the call throws. *)
Lemma getApiKey_sources (envKey : option jsstring)
  (apiKeyRecord : result (option Storage.ApiKey)) :
  match getApiKey envKey apiKeyRecord with
  | Ok key =>
      key <> [] /\
      ((exists e, envKey = Some e /\ key = trim e) \/
       (exists record, apiKeyRecord = Ok (Some record) /\
                       key = Storage.keyValue record /\
                       match envKey with
                       | Some e => trim e = []
                       | None => True
                       end))
  | Throw _ =>
      match envKey with Some e => trim e = [] | None => True end /\
      match apiKeyRecord with
      | Ok (Some record) => Storage.keyValue record = []
      | _ => True
      end
  end.
Proof.
  assert (Hstore :
    forall blank : match envKey with Some e => trim e = [] | None => True end,
      match
        match
          match apiKeyRecord with
          | Ok (Some record) =>
              match Storage.keyValue record with
              | c :: cs => Some (c :: cs)
              | [] => None
              end
          | _ => None
          end
        with
        | Some key => Ok key
        | None =>
            Throw (Error (lit "Google Places API key not found. Please add GOOGLE_API_KEY in Replit Secrets."))
        end
      with
      | Ok key =>
          key <> [] /\
          ((exists e, envKey = Some e /\ key = trim e) \/
           (exists record, apiKeyRecord = Ok (Some record) /\
                           key = Storage.keyValue record /\
                           match envKey with
                           | Some e => trim e = []
                           | None => True
                           end))
      | Throw _ =>
          match envKey with Some e => trim e = [] | None => True end /\
          match apiKeyRecord with
          | Ok (Some record) => Storage.keyValue record = []
          | _ => True
          end
      end).
  { intros blank.
    destruct apiKeyRecord as [[record|]|e]; try (split; [exact blank|exact I]).
    destruct (Storage.keyValue record) as [|c cs] eqn:Ek.
    - split; [exact blank|reflexivity].
    - split; [discriminate|]. right. exists record.
      split; [reflexivity|].
      split; [first [reflexivity|symmetry; exact Ek]|exact blank]. }
  unfold getApiKey. cbv zeta.
  destruct envKey as [[|c cs]|].
  - apply Hstore. reflexivity.
  - destruct (trim (c :: cs)) as [|t ts] eqn:Et.
    + apply Hstore. reflexivity.
    + split; [discriminate|]. left. exists (c :: cs). split; [reflexivity|].
      rewrite Et. reflexivity.
  - apply Hstore. exact I.
Qed.

End ApiKeyProperties.

(** ** The in-memory store *)

Section StorageProperties.

Import Storage.

Lemma toString_inj (a b : nat) : toString a = toString b -> a = b.
Proof.
  unfold toString. intros H.
  apply (f_equal string_of_list_ascii) in H.
  rewrite !string_of_list_ascii_of_string in H.
  apply (f_equal NilEmpty.uint_of_string) in H.
  rewrite !NilEmpty.usu in H. inversion H as [H'].
  apply (f_equal Nat.of_uint) in H'. rewrite !Unsigned.of_to in H'.
  exact H'.
Qed.

Lemma str_eqb_neq (a b : jsstring) : str_eqb a b = false <-> a <> b.
Proof.
  split.
  - intros H E. subst. rewrite str_eqb_refl in H. discriminate.
  - intros H. destruct (str_eqb a b) eqn:E; [|reflexivity].
    apply str_eqb_eq in E. contradiction.
Qed.

Section Maps.

Context {V : Type}.

Lemma map_get_None (m : jsmap V) (key : jsstring) :
  map_get m key = None <-> ~ In key (map fst m).
Proof.
  induction m as [|[k v] m IH]; cbn [map_get map fst In]; [tauto|].
  destruct (str_eqb k key) eqn:E.
  - apply str_eqb_eq in E. subst. split; [discriminate|]. intros H.
    exfalso. apply H. left; reflexivity.
  - apply str_eqb_neq in E. rewrite IH. tauto.
Qed.

Lemma map_get_In (m : jsmap V) (key : jsstring) (v : V) :
  map_get m key = Some v -> In (key, v) m.
Proof.
  induction m as [|[k x] m IH]; cbn [map_get]; [discriminate|].
  destruct (str_eqb k key) eqn:E.
  - apply str_eqb_eq in E. subst. intros H. inversion H. left; reflexivity.
  - intros H. right. apply IH, H.
Qed.

Lemma map_get_set_same (m : jsmap V) (key : jsstring) (v : V) :
  map_get (map_set m key v) key = Some v.
Proof.
  induction m as [|[k x] m IH]; cbn [map_set map_get].
  - rewrite str_eqb_refl. reflexivity.
  - destruct (str_eqb k key) eqn:E; cbn [map_get]; rewrite E;
      [reflexivity|exact IH].
Qed.

Lemma map_get_set_other (m : jsmap V) (key other : jsstring) (v : V) :
  other <> key -> map_get (map_set m key v) other = map_get m other.
Proof.
  intros Hne. induction m as [|[k x] m IH]; cbn [map_set map_get].
  - destruct (str_eqb key other) eqn:E; [|reflexivity].
    apply str_eqb_eq in E. congruence.
  - destruct (str_eqb k key) eqn:E; cbn [map_get].
    + apply str_eqb_eq in E. subst k.
      destruct (str_eqb key other) eqn:E'; [|reflexivity].
      apply str_eqb_eq in E'. congruence.
    + rewrite IH. reflexivity.
Qed.

Lemma map_set_fresh (m : jsmap V) (key : jsstring) (v : V) :
  ~ In key (map fst m) -> map_set m key v = m ++ [(key, v)].
Proof.
  induction m as [|[k x] m IH]; cbn [map_set map fst In app]; [reflexivity|].
  intros H. destruct (str_eqb k key) eqn:E.
  - apply str_eqb_eq in E. exfalso. apply H. left. exact E.
  - rewrite IH by tauto. reflexivity.
Qed.

Lemma map_set_keys (m : jsmap V) (key : jsstring) (v : V) :
  In key (map fst m) -> map fst (map_set m key v) = map fst m.
Proof.
  induction m as [|[k x] m IH]; cbn [map_set map fst In]; [intros []|].
  intros H. destruct (str_eqb k key) eqn:E; cbn [map fst]; [reflexivity|].
  apply str_eqb_neq in E. rewrite IH by (destruct H; [contradiction|assumption]).
  reflexivity.
Qed.

Lemma map_delete_found (m : jsmap V) (key : jsstring) :
  snd (map_delete m key) = true <-> In key (map fst m).
Proof.
  induction m as [|[k x] m IH]; cbn [map_delete map fst In snd].
  - split; [discriminate|intros []].
  - destruct (str_eqb k key) eqn:E; cbn [snd].
    + apply str_eqb_eq in E. tauto.
    + apply str_eqb_neq in E. destruct (map_delete m key) as [m' found].
      cbn [snd] in *. rewrite IH. tauto.
Qed.

Lemma map_delete_keys (m : jsmap V) (key other : jsstring) :
  In other (map fst (fst (map_delete m key))) -> In other (map fst m).
Proof.
  induction m as [|[k x] m IH]; cbn [map_delete map fst In]; [auto|].
  destruct (str_eqb k key); cbn [fst]; [auto|].
  destruct (map_delete m key) as [m' found]. cbn [fst map In] in *.
  intros [H|H]; auto.
Qed.

Lemma map_delete_NoDup (m : jsmap V) (key : jsstring) :
  NoDup (map fst m) ->
  NoDup (map fst (fst (map_delete m key))) /\
  ~ In key (map fst (fst (map_delete m key))).
Proof.
  induction m as [|[k x] m IH]; cbn [map_delete map fst]; intros Hnd.
  - split; [constructor|intros []].
  - inversion Hnd as [|? ? Hk Hm]; subst.
    destruct (str_eqb k key) eqn:E; cbn [fst].
    + apply str_eqb_eq in E. subst k. split; assumption.
    + apply str_eqb_neq in E. destruct (IH Hm) as [H1 H2].
      pose proof (map_delete_keys m key) as Hkeys.
      destruct (map_delete m key) as [m' found]. cbn [fst map In] in *.
      split.
      * constructor; [|exact H1]. intros H. apply Hk, Hkeys, H.
      * intros [H|H]; [contradiction|auto].
Qed.

Lemma map_get_delete_other (m : jsmap V) (key other : jsstring) :
  other <> key ->
  map_get (fst (map_delete m key)) other = map_get m other.
Proof.
  intros Hne. induction m as [|[k x] m IH]; cbn [map_delete map_get fst];
    [reflexivity|].
  destruct (str_eqb k key) eqn:E; cbn [fst].
  - apply str_eqb_eq in E. subst k.
    destruct (str_eqb key other) eqn:E'; [|reflexivity].
    apply str_eqb_eq in E'. congruence.
  - destruct (map_delete m key) as [m' found]. cbn [fst map_get] in *.
    rewrite IH. reflexivity.
Qed.

Lemma keys_below_nil (n : nat) : keys_below ([] : jsmap V) n.
Proof. split; [constructor|intros key []]. Qed.

Lemma keys_below_mono (m : jsmap V) (n n' : nat) :
  n <= n' -> keys_below m n -> keys_below m n'.
Proof.
  intros Hle [Hnd Hk]. split; [exact Hnd|].
  intros key Hin. destruct (Hk key Hin) as [k [Hlt E]].
  exists k. split; [lia|exact E].
Qed.

Lemma keys_below_fresh (m : jsmap V) (n : nat) :
  keys_below m n -> ~ In (toString n) (map fst m).
Proof.
  intros [_ Hk] Hin. destruct (Hk _ Hin) as [k [Hlt E]].
  apply toString_inj in E. lia.
Qed.

Lemma keys_below_add (m : jsmap V) (n : nat) (v : V) :
  keys_below m n -> keys_below (map_set m (toString n) v) (n + 1).
Proof.
  intros H. pose proof (keys_below_fresh m n H) as Hfresh.
  rewrite map_set_fresh by exact Hfresh.
  destruct H as [Hnd Hk]. unfold keys_below. rewrite map_app.
  cbn [map fst]. split.
  - apply NoDup_app; [exact Hnd|constructor; [intros []|constructor]|].
    intros key Hin [<-|[]]. contradiction.
  - intros key Hin. apply in_app_iff in Hin. destruct Hin as [Hin|[<-|[]]].
    + destruct (Hk key Hin) as [k [Hlt E]]. exists k. split; [lia|exact E].
    + exists n. split; [lia|reflexivity].
Qed.

Lemma keys_below_update (m : jsmap V) (n : nat) (key : jsstring) (v : V) :
  map_get m key <> None -> keys_below m n -> keys_below (map_set m key v) n.
Proof.
  intros Hget H. unfold keys_below. rewrite map_set_keys; [exact H|].
  destruct (in_dec (list_eq_dec ascii_dec) key (map fst m)) as [Hin|Hin];
    [exact Hin|].
  apply map_get_None in Hin. contradiction.
Qed.

Lemma keys_below_delete (m : jsmap V) (n : nat) (key : jsstring) :
  keys_below m n -> keys_below (fst (map_delete m key)) n.
Proof.
  intros [Hnd Hk]. split; [apply map_delete_NoDup, Hnd|].
  intros k Hin. apply Hk. eapply map_delete_keys, Hin.
Qed.

End Maps.

Lemma well_formed_empty : well_formed empty.
Proof. repeat split; try constructor; intros key []. Qed.

Lemma well_formed_perform (s : MemStorage) (c : call) :
  well_formed s -> well_formed (perform s c) /\
                   currentId s <= currentId (perform s c).
Proof.
  intros [Hl [Hc Hk]].
  assert (Hmono : forall V (m : jsmap V),
             keys_below m (currentId s) -> keys_below m (currentId s + 1))
    by (intros V m; apply keys_below_mono; lia).
  destruct c; cbn [perform].
  - unfold createLead, generateId.
    cbn [snd leads competitors apiKeys currentId].
    split; [|lia]. repeat split; try apply keys_below_add; try apply Hmono;
      assumption || apply Hl || apply Hc || apply Hk.
  - unfold clearLeads. cbn [leads competitors apiKeys currentId].
    split; [|lia]. split; [apply keys_below_nil|split; assumption].
  - unfold createCompetitor, generateId.
    cbn [snd leads competitors apiKeys currentId].
    split; [|lia]. split; [apply Hmono, Hl|].
    split; [apply keys_below_add, Hc|apply Hmono, Hk].
  - unfold clearCompetitors. cbn [leads competitors apiKeys currentId].
    split; [|lia]. split; [exact Hl|]. split; [apply keys_below_nil|exact Hk].
  - unfold createApiKey, generateId.
    cbn [snd leads competitors apiKeys currentId].
    split; [|lia]. split; [apply Hmono, Hl|].
    split; [apply Hmono, Hc|apply keys_below_add, Hk].
  - unfold updateApiKey.
    destruct (map_get (apiKeys s) id) as [existing|] eqn:E;
      cbn [snd leads competitors apiKeys currentId].
    + split; [|lia]. split; [exact Hl|]. split; [exact Hc|].
      apply keys_below_update; [congruence|exact Hk].
    + split; [|lia]. repeat split; apply Hl || apply Hc || apply Hk.
  - unfold deleteApiKey.
    pose proof (keys_below_delete (apiKeys s) (currentId s) id Hk) as Hd.
    destruct (map_delete (apiKeys s) id) as [m' found].
    cbn [fst snd leads competitors apiKeys currentId] in *.
    split; [|lia]. split; [exact Hl|]. split; [exact Hc|exact Hd].
Qed.

Lemma well_formed_fold (calls : list call) :
  forall s, well_formed s ->
            well_formed (fold_left perform calls s) /\
            currentId s <= currentId (fold_left perform calls s).
Proof.
  induction calls as [|c calls IH]; intros s H; cbn [fold_left].
  - split; [exact H|lia].
  - destruct (well_formed_perform s c H) as [H1 H2].
    destruct (IH _ H1) as [H3 H4]. split; [exact H3|lia].
Qed.

Lemma well_formed_after (calls : list call) : well_formed (after calls).
Proof. apply well_formed_fold, well_formed_empty. Qed.

(** X19. The identifier a creating call hands out is never handed out again,
    whatever calls follow, also after the leads or the competitors have been
    cleared: the counter is shared and never reset. *)
Theorem ids_never_reused (calls more : list call) (c : call) :
  (exists insertLead, c = CreateLead insertLead) \/
  (exists insertCompetitor, c = CreateCompetitor insertCompetitor) \/
  (exists insertApiKey now, c = CreateApiKey insertApiKey now) ->
  str_eqb (fst (generateId (after calls)))
          (fst (generateId (after (calls ++ c :: more)))) = false.
Proof.
  intros Hc. unfold generateId. cbn [fst]. apply str_eqb_neq. intros E.
  apply toString_inj in E.
  unfold after in E. rewrite fold_left_app in E. cbn [fold_left] in E.
  fold (after calls) in E.
  pose proof (well_formed_after calls) as Hwf.
  destruct (well_formed_perform _ c Hwf) as [Hwf' _].
  destruct (well_formed_fold more _ Hwf') as [_ Hle].
  assert (Hstep : currentId (perform (after calls) c)
                  = currentId (after calls) + 1).
  { destruct Hc as [[x ->]|[[x ->]|[x [now ->]]]]; reflexivity. }
  lia.
Qed.

Lemma ids_never_reused_witness :
  str_eqb (fst (generateId (after [])))
          (fst (generateId
                  (after ([] ++ CreateLead (mkInsertLead (lit "Ace Plumbing")
                                              (lit "1 Main St") None 4.5%Q
                                              12%Q Scoring.A [] None None)
                             :: [ClearLeads])))) = false.
Proof.
  apply (ids_never_reused [] [ClearLeads]).
  left. eexists. reflexivity.
Defined.

(** X20. On a store reached by any history of calls, a created lead can be
    read back under its identifier, which was not in use before; the lead
    comes last in the list of leads, and every other lead stays as it was. *)
Theorem createLead_round_trip (calls : list call) (insertLead : InsertLead) :
  let s := after calls in
  let lead := fst (createLead insertLead s) in
  let s' := snd (createLead insertLead s) in
  getLead (Scoring.lead_id lead) s = None /\
  getLead (Scoring.lead_id lead) s' = Some lead /\
  getLeads s' = getLeads s ++ [lead] /\
  forall id, id <> Scoring.lead_id lead -> getLead id s' = getLead id s.
Proof.
  intros s lead s'.
  pose proof (well_formed_after calls) as [Hl _]. fold s in Hl.
  pose proof (keys_below_fresh _ _ Hl) as Hfresh.
  subst lead s'. unfold createLead, generateId, getLead, getLeads, values.
  cbn [fst snd leads Scoring.lead_id].
  split; [apply map_get_None, Hfresh|].
  split; [apply map_get_set_same|].
  split.
  - rewrite map_set_fresh by exact Hfresh. rewrite map_app. reflexivity.
  - intros id Hne. apply map_get_set_other, Hne.
Qed.

(** X21. The competitors of a lead are those created with its identifier, in
    the order of their creation, and none after [clearCompetitors]. *)
Theorem getCompetitorsByLeadId_created (calls : list call)
  (insertCompetitor : InsertCompetitor) (leadId : jsstring) :
  let s := after calls in
  let competitor := fst (createCompetitor insertCompetitor s) in
  let s' := snd (createCompetitor insertCompetitor s) in
  getCompetitorsByLeadId leadId s'
  = getCompetitorsByLeadId leadId s
    ++ (if str_eqb (ic_leadId insertCompetitor) leadId
        then [competitor] else []) /\
  Forall (fun c => Scoring.comp_leadId c = leadId)
         (getCompetitorsByLeadId leadId s') /\
  getCompetitorsByLeadId leadId (clearCompetitors s') = [].
Proof.
  intros s competitor s'.
  pose proof (well_formed_after calls) as [_ [Hc _]]. fold s in Hc.
  pose proof (keys_below_fresh _ _ Hc) as Hfresh.
  subst competitor s'.
  unfold createCompetitor, generateId, getCompetitorsByLeadId, values.
  cbn [fst snd competitors clearCompetitors].
  split; [|split].
  - rewrite map_set_fresh by exact Hfresh.
    rewrite map_app, filter_app. cbn [map snd filter Scoring.comp_leadId].
    destruct (str_eqb (ic_leadId insertCompetitor) leadId); reflexivity.
  - apply Forall_forall. intros c Hin. apply filter_In in Hin.
    destruct Hin as [_ Hin]. apply str_eqb_eq, Hin.
  - reflexivity.
Qed.

(** X22. [deleteApiKey] tells whether the key was there; afterwards the key
    is gone, a second deletion reports that, and the other keys are as they
    were. *)
Theorem deleteApiKey_removes (calls : list call) (id : jsstring) :
  let s := after calls in
  let s' := snd (deleteApiKey id s) in
  (fst (deleteApiKey id s) = true <-> map_get (apiKeys s) id <> None) /\
  map_get (apiKeys s') id = None /\
  fst (deleteApiKey id s') = false /\
  forall other, other <> id ->
                map_get (apiKeys s') other = map_get (apiKeys s) other.
Proof.
  intros s s'.
  pose proof (well_formed_after calls) as [_ [_ [Hnd _]]]. fold s in Hnd.
  pose proof (map_delete_found (apiKeys s) id) as Hfound.
  pose proof (map_delete_NoDup (apiKeys s) id Hnd) as [_ Hgone].
  pose proof (map_get_delete_other (apiKeys s) id) as Hother.
  assert (Hs' : apiKeys s' = fst (map_delete (apiKeys s) id)).
  { subst s'. unfold deleteApiKey.
    destruct (map_delete (apiKeys s) id); reflexivity. }
  assert (Hfst : forall t, fst (deleteApiKey id t)
                           = snd (map_delete (apiKeys t) id)).
  { intros t. unfold deleteApiKey.
    destruct (map_delete (apiKeys t) id); reflexivity. }
  rewrite !Hfst, Hs'.
  split; [|split; [|split]].
  - rewrite Hfound. split.
    + intros Hin E. apply map_get_None in E. contradiction.
    + intros Hne.
      destruct (in_dec (list_eq_dec ascii_dec) id (map fst (apiKeys s)))
        as [Hin|Hin]; [exact Hin|].
      apply map_get_None in Hin. contradiction.
  - apply map_get_None, Hgone.
  - destruct (snd (map_delete (fst (map_delete (apiKeys s) id)) id)) eqn:E;
      [|reflexivity].
    apply map_delete_found in E. contradiction.
  - exact Hother.
Qed.

(** X23. [updateApiKey] on an identifier that is not in the store changes
    nothing and returns [undefined]; on a stored key it replaces the fields
    given, keeps the identifier and the creation date, sets the date of the
    update, and leaves the order of the keys and every other key as they
    were. *)
Theorem updateApiKey_in_place (s : MemStorage) (id : jsstring)
  (updates : ApiKeyUpdates) (now : Z) :
  match map_get (apiKeys s) id with
  | None => updateApiKey id updates now s = (None, s)
  | Some existing =>
      exists updated,
        fst (updateApiKey id updates now s) = Some updated /\
        key_id updated = key_id existing /\
        createdAt updated = createdAt existing /\
        updatedAt updated = now /\
        (forall v, up_keyValue updates = Some v -> keyValue updated = v) /\
        (up_keyValue updates = None -> keyValue updated = keyValue existing) /\
        map_get (apiKeys (snd (updateApiKey id updates now s))) id
        = Some updated /\
        map fst (apiKeys (snd (updateApiKey id updates now s)))
        = map fst (apiKeys s) /\
        forall other, other <> id ->
          map_get (apiKeys (snd (updateApiKey id updates now s))) other
          = map_get (apiKeys s) other
  end.
Proof.
  unfold updateApiKey.
  destruct (map_get (apiKeys s) id) as [existing|] eqn:E; [|reflexivity].
  eexists. cbn [fst snd apiKeys key_id createdAt updatedAt keyValue].
  split; [reflexivity|]. split; [reflexivity|]. split; [reflexivity|].
  split; [reflexivity|]. split; [intros v ->; reflexivity|].
  split; [intros ->; reflexivity|].
  split; [apply map_get_set_same|].
  split.
  - apply map_set_keys.
    apply map_get_In in E. apply in_map_iff. exists (id, existing). auto.
  - intros other Hne. apply map_get_set_other, Hne.
Qed.

(** X24. A created key is always active, whatever the request says; when the
    store had no active key of the type it is the key [getApiKeyByType]
    finds, and for the type [google_places], without the environment
    variable, the key the provider service uses. *)
Theorem createApiKey_active (calls : list call) (insertApiKey : InsertApiKey)
  (now : Z) :
  getApiKeyByType (ik_keyType insertApiKey) (after calls) = None ->
  let apiKey := fst (createApiKey insertApiKey now (after calls)) in
  let s' := snd (createApiKey insertApiKey now (after calls)) in
  isActive apiKey = lit "true" /\
  getApiKeyByType (ik_keyType insertApiKey) s' = Some apiKey /\
  getAllApiKeys s' = getAllApiKeys (after calls) ++ [apiKey] /\
  (ik_keyType insertApiKey = lit "google_places" ->
   ik_keyValue insertApiKey <> [] ->
   Places.getApiKey None (Js.Ok (getApiKeyByType (lit "google_places") s'))
   = Js.Ok (ik_keyValue insertApiKey)).
Proof.
  intros Hnone apiKey s'.
  pose proof (well_formed_after calls) as [_ [_ Hk]].
  pose proof (keys_below_fresh _ _ Hk) as Hfresh.
  assert (Hget : getApiKeyByType (ik_keyType insertApiKey) s' = Some apiKey).
  { subst apiKey s'. unfold createApiKey, generateId, getApiKeyByType, values
      in *. cbn [fst snd apiKeys] in *.
    rewrite map_set_fresh by exact Hfresh. rewrite map_app.
    cbn [map snd].
    set (p := fun key => str_eqb (keyType key) (ik_keyType insertApiKey)
                         && str_eqb (isActive key) (lit "true")) in *.
    revert Hnone. generalize (map snd (apiKeys (after calls))).
    intros l. induction l as [|x l IH]; cbn [find app].
    - intros _. unfold p at 1. cbn [keyType isActive].
      rewrite !str_eqb_refl. reflexivity.
    - destruct (p x); [discriminate|exact IH]. }
  split; [reflexivity|]. split; [exact Hget|]. split.
  - subst apiKey s'. unfold createApiKey, generateId, getAllApiKeys, values.
    cbn [fst snd apiKeys].
    rewrite map_set_fresh by exact Hfresh. rewrite map_app, filter_app.
    cbn [map snd filter isActive]. rewrite str_eqb_refl. reflexivity.
  - intros Ht Hv. rewrite <- Ht, Hget. unfold Places.getApiKey.
    subst apiKey. unfold createApiKey, generateId. cbn [fst keyValue].
    destruct (ik_keyValue insertApiKey); [congruence|reflexivity].
Qed.

Lemma createApiKey_active_witness :
  let insertApiKey :=
    mkInsertApiKey (lit "google_places") (lit "AIza-sample")
      (Some (lit "false")) in
  let apiKey := fst (createApiKey insertApiKey 0%Z (after [])) in
  let s' := snd (createApiKey insertApiKey 0%Z (after [])) in
  isActive apiKey = lit "true" /\
  getApiKeyByType (ik_keyType insertApiKey) s' = Some apiKey /\
  getAllApiKeys s' = getAllApiKeys (after []) ++ [apiKey] /\
  (ik_keyType insertApiKey = lit "google_places" ->
   ik_keyValue insertApiKey <> [] ->
   Places.getApiKey None (Js.Ok (getApiKeyByType (lit "google_places") s'))
   = Js.Ok (ik_keyValue insertApiKey)).
Proof.
  apply (createApiKey_active []
           (mkInsertApiKey (lit "google_places") (lit "AIza-sample")
              (Some (lit "false"))) 0%Z).
  reflexivity.
Defined.

End StorageProperties.

(** ** The tiers *)

Section TierProperties.

Import Js Scoring.

Variable numberToString : Q -> jsstring.

Lemma ltb_false_iff (x y : Q) : Js.ltb x y = false <-> (y <= x)%Q.
Proof.
  split.
  - intros H. apply Qnot_lt_le. intros Hlt. apply ltb_iff in Hlt. congruence.
  - intros H. destruct (Js.ltb x y) eqn:E; [|reflexivity].
    apply ltb_iff in E. lra.
Qed.

Lemma geb_false_iff (x y : Q) : Js.geb x y = false <-> (x < y)%Q.
Proof.
  split.
  - intros H. apply Qnot_le_lt. intros Hle. apply geb_iff in Hle. congruence.
  - intros H. destruct (Js.geb x y) eqn:E; [|reflexivity].
    apply geb_iff in E. lra.
Qed.

(** X25. Each tier and each urgency, by the two numbers: A is a rating of at
    least 4.0 with fewer than 50 reviews, B a rating of at least 4.0 with 50
    to 99 reviews, C everything else; the urgency is High below 4.0 or below
    50 reviews, Low from 4.0 and 100 reviews on, Medium exactly on tier B. *)
Theorem scoreLead_tiers (rating reviewCount : Q)
  (competitors : list Competitor) :
  (score (scoreLead numberToString rating reviewCount competitors) = A <->
   (4.0 <= rating)%Q /\ (reviewCount < 50)%Q) /\
  (score (scoreLead numberToString rating reviewCount competitors) = B <->
   (4.0 <= rating)%Q /\ (50 <= reviewCount)%Q /\ (reviewCount < 100)%Q) /\
  (score (scoreLead numberToString rating reviewCount competitors) = C <->
   (rating < 4.0)%Q \/ (100 <= reviewCount)%Q) /\
  (urgencyLevel (scoreLead numberToString rating reviewCount competitors)
   = High <-> (rating < 4.0)%Q \/ (reviewCount < 50)%Q) /\
  (urgencyLevel (scoreLead numberToString rating reviewCount competitors)
   = Medium <->
   score (scoreLead numberToString rating reviewCount competitors) = B) /\
  (urgencyLevel (scoreLead numberToString rating reviewCount competitors)
   = Low <-> (4.0 <= rating)%Q /\ (100 <= reviewCount)%Q).
Proof.
  pose proof (scoreLead_decision numberToString rating reviewCount competitors)
    as Hd.
  destruct (ltb rating 4.0) eqn:E1.
  { apply ltb_iff in E1. inversion Hd as [[Hs Hu]]. rewrite Hs, Hu.
    repeat split; intros; try discriminate; try lra; auto;
      try (destruct H; lra). }
  apply ltb_false_iff in E1.
  destruct (geb reviewCount 100) eqn:E2.
  { apply geb_iff in E2. inversion Hd as [[Hs Hu]]. rewrite Hs, Hu.
    repeat split; intros; try discriminate; try lra; auto;
      try (destruct H; lra). }
  apply geb_false_iff in E2.
  assert (E3 : geb rating 4.0 = true) by (apply geb_iff; exact E1).
  rewrite E3 in Hd. cbn [andb] in Hd.
  destruct (ltb reviewCount 50) eqn:E4.
  { apply ltb_iff in E4. inversion Hd as [[Hs Hu]]. rewrite Hs, Hu.
    repeat split; intros; try discriminate; try lra; auto;
      try (destruct H; lra). }
  apply ltb_false_iff in E4. inversion Hd as [[Hs Hu]]. rewrite Hs, Hu.
  repeat split; intros; try discriminate; try lra; auto;
    try (destruct H; lra).
Qed.

Lemma Qmax_cases (x y : Q) : Qmax x y = x \/ Qmax x y = y.
Proof.
  unfold Qmax, GenericMinMax.gmax. destruct (x ?= y)%Q; auto.
Qed.

(** [Math.max(x, ...xs)] is a member of its arguments above all of them. *)
Lemma Math_max_spec (xs : list Q) :
  forall x,
    In (Math_max x xs) (x :: xs) /\
    (forall y, In y (x :: xs) -> (y <= Math_max x xs)%Q).
Proof.
  unfold Math_max.
  induction xs as [|z xs IH]; intros x; cbn [fold_left].
  - split; [left; reflexivity|]. intros y [<-|[]]. apply Qle_refl.
  - destruct (IH (Qmax x z)) as [Hin Hle]. split.
    + destruct Hin as [Hin|Hin]; [|right; right; exact Hin].
      rewrite <- Hin. destruct (Qmax_cases x z) as [->| ->];
        [left|right; left]; reflexivity.
    + intros y [<-|[<-|Hy]].
      * eapply Qle_trans; [apply Q.le_max_l|apply Hle; left; reflexivity].
      * eapply Qle_trans; [apply Q.le_max_r|apply Hle; left; reflexivity].
      * apply Hle. right. exact Hy.
Qed.

(** X26. The figures of the market: the number of competitors, the high
    performers among them, and a review range that contains the review count
    of every competitor and is reached at both ends. *)
Theorem calculateMarketStats_bounds (competitors : list Competitor) :
  totalCompetitors (calculateMarketStats competitors) = length competitors /\
  highPerformers (calculateMarketStats competitors) <= length competitors /\
  (forall c, In c competitors ->
     (reviewRange_min (calculateMarketStats competitors) <= comp_reviewCount c)%Q
     /\
     (comp_reviewCount c <= reviewRange_max (calculateMarketStats competitors))%Q)
  /\
  (competitors = [] \/
   exists lowest highest,
     In lowest competitors /\ In highest competitors /\
     reviewRange_min (calculateMarketStats competitors)
     = comp_reviewCount lowest /\
     reviewRange_max (calculateMarketStats competitors)
     = comp_reviewCount highest).
Proof.
  destruct competitors as [|first others].
  - split; [reflexivity|]. split; [apply Nat.le_refl|].
    split; [intros c []|left; reflexivity].
  - unfold calculateMarketStats.
    cbn [totalCompetitors highPerformers reviewRange_min reviewRange_max].
    destruct (Math_min_spec (map comp_reviewCount others)
                (comp_reviewCount first)) as [Hmin_in Hmin].
    destruct (Math_max_spec (map comp_reviewCount others)
                (comp_reviewCount first)) as [Hmax_in Hmax].
    change (comp_reviewCount first :: map comp_reviewCount others)
      with (map comp_reviewCount (first :: others)) in *.
    split; [reflexivity|]. split; [apply filter_length_le|]. split.
    + intros c Hc.
      split; [apply Hmin|apply Hmax]; apply in_map; exact Hc.
    + right. apply in_map_iff in Hmin_in, Hmax_in.
      destruct Hmin_in as [lowest [El Hl]].
      destruct Hmax_in as [highest [Eh Hh]].
      exists lowest, highest. auto.
Qed.

(** *** The AI-augmented path without an answer *)

Variable JSON_parse : jsstring -> option json.

Lemma scoreLead_no_ai (rating reviewCount : Q)
  (competitors : list Competitor) :
  intelligentInsights (scoreLead numberToString rating reviewCount competitors)
  = None.
Proof.
  unfold scoreLead.
  destruct (ltb rating 4.0); [reflexivity|].
  destruct (geb reviewCount 100); [reflexivity|].
  destruct (geb rating 4.0 && ltb reviewCount 50); reflexivity.
Qed.

(** The AI-augmented path never touches the gap analysis nor the
    recommendations of the rules, and when the reply is JSON [null] it
    returns the insights of the rules unchanged. *)
Lemma scoreLeadWithAI_keeps_rule_fields (lead : Lead)
  (competitors : list Competitor) (outcome : completion) :
  gapAnalysis
    (scoreLeadWithAI numberToString JSON_parse lead competitors outcome)
  = gapAnalysis
      (scoreLead numberToString (lead_rating lead) (lead_reviewCount lead)
         competitors) /\
  actionableRecommendations
    (scoreLeadWithAI numberToString JSON_parse lead competitors outcome)
  = actionableRecommendations
      (scoreLead numberToString (lead_rating lead) (lead_reviewCount lead)
         competitors) /\
  (generateAIInsights JSON_parse lead competitors
     (score (scoreLead numberToString (lead_rating lead)
               (lead_reviewCount lead) competitors)) outcome = JNull <->
   intelligentInsights
     (scoreLeadWithAI numberToString JSON_parse lead competitors outcome)
   = None) /\
  (intelligentInsights
     (scoreLeadWithAI numberToString JSON_parse lead competitors outcome)
   = None ->
   scoreLeadWithAI numberToString JSON_parse lead competitors outcome
   = scoreLead numberToString (lead_rating lead) (lead_reviewCount lead)
       competitors).
Proof.
  pose proof (scoreLead_no_ai (lead_rating lead) (lead_reviewCount lead)
                competitors) as Hnone.
  unfold scoreLeadWithAI.
  destruct (generateAIInsights JSON_parse lead competitors _ outcome);
    cbn [get bind try_catch gapAnalysis actionableRecommendations
         intelligentInsights];
    (split; [reflexivity|]); (split; [reflexivity|]);
    (split; [split; intros H; first [discriminate H|exact Hnone|reflexivity]|]);
    intros H; first [discriminate H|reflexivity].
Qed.

(** X27. When the text-generation request fails, or its content does not
    parse, the market opportunity and the competitive position computed by
    the rules are replaced by the canned texts of the fallback, and the
    three AI fields carry the canned insights. *)
Theorem scoreLeadWithAI_request_fails (lead : Lead)
  (competitors : list Competitor) (outcome : completion) :
  outcome = RequestFails \/
  (exists content,
      outcome = Content content /\
      JSON_parse (match content with
                  | Some (c :: cs) => c :: cs
                  | _ => lit "{}"
                  end) = None) ->
  marketingOpportunity
    (scoreLeadWithAI numberToString JSON_parse lead competitors outcome)
  = lit "Growth potential in local market" /\
  competitivePosition
    (scoreLeadWithAI numberToString JSON_parse lead competitors outcome)
  = lit "Positioned for market expansion" /\
  intelligentInsights
    (scoreLeadWithAI numberToString JSON_parse lead competitors outcome)
  = Some (lit "Standard competitive analysis available") /\
  industrySpecificAdvice
    (scoreLeadWithAI numberToString JSON_parse lead competitors outcome)
  = Some (lit "Focus on customer service excellence") /\
  aiRecommendations
    (scoreLeadWithAI numberToString JSON_parse lead competitors outcome)
  = Some [ JString (lit "Increase review generation");
           JString (lit "Improve online presence");
           JString (lit "Monitor competitors") ].
Proof.
  intros H.
  assert (E : generateAIInsights JSON_parse lead competitors
                (score (scoreLead numberToString (lead_rating lead)
                          (lead_reviewCount lead) competitors)) outcome
              = defaultAIInsights).
  { unfold generateAIInsights.
    destruct H as [->|[content [-> Hp]]]; [reflexivity|].
    rewrite Hp. reflexivity. }
  unfold scoreLeadWithAI. rewrite E. repeat split; reflexivity.
Qed.

End TierProperties.
Lemma scoreLeadWithAI_request_fails_witness :
  Scoring.marketingOpportunity
    (Scoring.scoreLeadWithAI (fun _ => lit "n") (fun _ => None)
       (Scoring.mkLead [] (lit "Ace Plumbing") (lit "1 Main St") None
          4.5%Q 30%Q Scoring.A [] None None)
       [] Scoring.RequestFails)
  = lit "Growth potential in local market" /\
  Scoring.competitivePosition
    (Scoring.scoreLeadWithAI (fun _ => lit "n") (fun _ => None)
       (Scoring.mkLead [] (lit "Ace Plumbing") (lit "1 Main St") None
          4.5%Q 30%Q Scoring.A [] None None)
       [] Scoring.RequestFails)
  = lit "Positioned for market expansion".
Proof.
  pose proof (scoreLeadWithAI_request_fails (fun _ => lit "n") (fun _ => None)
                (Scoring.mkLead [] (lit "Ace Plumbing") (lit "1 Main St") None
                   4.5%Q 30%Q Scoring.A [] None None)
                [] Scoring.RequestFails (or_introl eq_refl)) as H.
  split; [apply H|apply H].
Defined.

(** ** The cohort and its figures *)

Section CohortProperties.

Import Js TenPack.




Lemma statistics_Ok (businesses : list TenPackBusiness) (a : TenPackAnalysis) :
  statistics businesses = Ok a ->
  exists first others, businesses = first :: others.
Proof.
  destruct businesses as [|first others]; [discriminate|].
  intros _. exists first, others. reflexivity.
Qed.


Lemma outranked_by_refl (b : TenPackBusiness) : outranked_by b b.
Proof. right. split; [reflexivity|apply Qle_refl]. Qed.

Lemma outranked_by_trans (a b c : TenPackBusiness) :
  outranked_by a b -> outranked_by b c -> outranked_by a c.
Proof.
  unfold outranked_by. intros [H1|[H1 H1']] [H2|[H2 H2']].
  - left. lra.
  - left. lra.
  - left. lra.
  - right. split; lra.
Qed.

Lemma better_outranks (top current : TenPackBusiness) :
  outranked_by top (better top current) /\
  outranked_by current (better top current).
Proof.
  unfold better.
  destruct (gtb (rating current) (rating top)) eqn:E1.
  - unfold gtb in E1. apply negb_true_iff in E1.
    assert (H : (rating top < rating current)%Q).
    { apply Qnot_le_lt. intros Hle. apply Qle_bool_iff in Hle. congruence. }
    split; [left; exact H|apply outranked_by_refl].
  - unfold gtb in E1. apply negb_false_iff, Qle_bool_iff in E1.
    destruct (Qeq_bool (rating current) (rating top)) eqn:E2; cbn [andb].
    + apply Qeq_bool_iff in E2.
      destruct (gtb (reviewCount current) (reviewCount top)) eqn:E3.
      * unfold gtb in E3. apply negb_true_iff in E3.
        assert (H : (reviewCount top < reviewCount current)%Q).
        { apply Qnot_le_lt. intros Hle. apply Qle_bool_iff in Hle.
          congruence. }
        split; [|apply outranked_by_refl].
        right. split; [symmetry; exact E2|lra].
      * unfold gtb in E3. apply negb_false_iff, Qle_bool_iff in E3.
        split; [apply outranked_by_refl|].
        right. split; [exact E2|exact E3].
    + split; [apply outranked_by_refl|].
      left. apply Qle_lteq in E1. destruct E1 as [E1|E1]; [exact E1|].
      apply Qeq_bool_neq in E2. contradiction.
Qed.

Lemma fold_better_outranks (others : list TenPackBusiness) :
  forall first b,
    In b (first :: others) -> outranked_by b (fold_left better others first).
Proof.
  induction others as [|c others IH]; intros first b Hin; cbn [fold_left].
  - destruct Hin as [<-|[]]. apply outranked_by_refl.
  - destruct (better_outranks first c) as [H1 H2].
    destruct Hin as [<-|[<-|Hin]].
    + eapply outranked_by_trans; [exact H1|]. apply IH. left; reflexivity.
    + eapply outranked_by_trans; [exact H2|]. apply IH. left; reflexivity.
    + apply IH. right. exact Hin.
Qed.

(** X29. The top performer is a business of the cohort, and no business of
    the cohort has a higher rating, nor the same rating with more reviews. *)
Theorem topPerformer_is_best (members : list TenPackBusiness)
  (analysis : TenPackAnalysis) :
  statistics members = Ok analysis ->
  In (topPerformer analysis) members /\
  forall b, In b members ->
    (rating b <= rating (topPerformer analysis))%Q /\
    ((rating b == rating (topPerformer analysis))%Q ->
     (reviewCount b <= reviewCount (topPerformer analysis))%Q).
Proof.
  intros H. destruct (statistics_Ok _ _ H) as [first [others ->]].
  rewrite statistics_nonempty in H. inversion H. cbn [topPerformer].
  split; [apply fold_better_In|].
  intros b Hb. pose proof (fold_better_outranks others first b Hb) as Hr.
  destruct Hr as [Hr|[Hr Hr']].
  - split; [lra|]. intros E. lra.
  - split; [lra|]. intros _. exact Hr'.
Qed.

Lemma topPerformer_is_best_witness :
  In (topPerformer SampleMarket.analysis) (businesses SampleMarket.analysis) /\
  forall b, In b (businesses SampleMarket.analysis) ->
    (rating b <= rating (topPerformer SampleMarket.analysis))%Q /\
    ((rating b == rating (topPerformer SampleMarket.analysis))%Q ->
     (reviewCount b <= reviewCount (topPerformer SampleMarket.analysis))%Q).
Proof.
  apply (topPerformer_is_best (businesses SampleMarket.analysis)
           SampleMarket.analysis).
  vm_compute. reflexivity.
Defined.


(** *** Averages and the median within the range *)







End CohortProperties.
